(** * Tracking_Software.py: cloud-chamber track extraction

    A shallow embedding of [Tracking_Software.py]: the two region filters
    ([denoise], [remove_border_tracks]), the region statistics ([get_length],
    [get_area], the centroid), and the module-level frame loop with its five
    parallel per-track lists and three output lists.

    Conventions.
    - A numpy 2-D array is a list of rows; label images and masks hold
      non-negative integers ([nat]).
    - Python floats (centroids, lengths, scaled outputs) are rationals [Q];
      [np.mean] and [/] are exact there.
    - scipy's [label] (both connectivities) and [distance.euclidean] are
      library functions: they are the fields of the class [Scipy].
    - An exception ([IndexError], [ValueError]) is [None]. *)

From Stdlib Require Import ZArith QArith Lia Sorted.
From stdpp Require Import base option list sorting.

Set Default Proof Using "Type".

(** ** Arrays *)

Definition image := list (list nat).

(** [a.ravel()] *)
Definition ravel {A} (a : list (list A)) : list A := concat a.

(** [np.shape(a)], kept as the list of row lengths. *)
Definition shape {A} (a : list (list A)) : list nat := length <$> a.

(** [a[r, c]] *)
Definition pixel {A} (a : list (list A)) (r c : nat) : option A :=
  row ← a !! r; row !! c.

(** A [w]-column array with at least one row and one column. *)
Definition rect (w : nat) (a : image) : Prop :=
  a ≠ [] ∧ 0 < w ∧ Forall (λ row, length row = w) a.

(** [np.all(a == 0)] *)
Definition all_zero (a : image) : bool :=
  forallb (forallb (Nat.eqb 0)) a.

(** [np.bincount(l)]: one counter per value from 0 to the maximum. *)
Definition bincount (l : list nat) : list nat :=
  match l with
  | [] => []
  | _ => (λ v, count_occ Nat.eq_dec l v) <$> seq 0 (S (max_list l))
  end.

(** [np.where(cond)[0]] over a 1-D array: the indices that satisfy [cond],
    ascending. [k] is the index of the head. *)
Fixpoint where_from {A} (cond : A → bool) (k : nat) (l : list A) : list nat :=
  match l with
  | [] => []
  | x :: l' =>
      (if cond x then [k] else []) ++ where_from cond (S k) l'
  end.

Definition np_where {A} (cond : A → bool) (l : list A) : list nat :=
  where_from cond 0 l.

(** [np.in1d(ar1, ar2)] *)
Definition in1d (ar1 ar2 : list nat) : list bool :=
  (λ x, bool_decide (x ∈ ar2)) <$> ar1.

(** [flat.reshape(shp)]: [ValueError] when the sizes differ. *)
Fixpoint reshape {A} (shp : list nat) (flat : list A) : option (list (list A)) :=
  match shp with
  | [] => match flat with [] => Some [] | _ => None end
  | w :: shp' =>
      if decide (w ≤ length flat)
      then rows ← reshape shp' (drop w flat); Some (take w flat :: rows)
      else None
  end.

(** [a[mask] = 0] *)
Definition clear_masked (a : image) (mask : list (list bool)) : image :=
  zip_with (zip_with (λ x (m : bool), if m then 0 else x)) a mask.

(** [a[a == val] = 0] *)
Definition clear_value (a : image) (val : nat) : image :=
  fmap (M := list) (λ x, if decide (x = val) then 0 else x) <$> a.

(** [v[np.nonzero(v)]] *)
Definition nonzero (v : list nat) : list nat :=
  filter (λ x, x ≠ 0) v.

(** [v[1:-1]] *)
Definition inner {A} (v : list A) : list A := removelast (tail v).

(** ** The library functions *)

Class Scipy := {
  (** [scipy.ndimage.measurements.label(a)]: 4-connected components. *)
  label : image → image * nat;
  (** [measurements.label(a, structure=np.ones((3,3)))]: 8-connected. *)
  label8 : image → image * nat;
  (** [scipy.spatial.distance.euclidean(u, v)] on 2-vectors. *)
  euclidean : Q * Q → Q * Q → Q
}.

(** ** Options *)

Record Options := {
  framebuff : Z;
  meanshift_length : Z;
  denoise_thresh : Z;
  pix_per_cm : Z
}.

(** ** Region filters *)

Section Filters.
Context `{Scipy}.

(** Lines 28-35. *)
Definition denoise (img : image) (nthresh : Z) : option image :=
  let '(labeled_array, num_features) := label img in
  let binc := bincount (ravel labeled_array) in
  let noise_idx := np_where (λ c, (Z.of_nat c <=? nthresh)%Z) binc in
  mask ← reshape (shape img) (in1d (ravel labeled_array) noise_idx);
  Some (clear_masked img mask).

(** Lines 57-71. [image[:, 0]] and [image[0, ...]] raise on an array without
    columns or without rows. *)
Definition remove_border_tracks (img : image) : option image :=
  lb ← nonzero <$> mapM (λ row : list nat, row !! 0) img;
  rb ← nonzero <$> mapM (λ row : list nat, last row) img;
  tb ← nonzero ∘ inner <$> head img;
  bb ← nonzero ∘ inner <$> last img;
  let img := foldl clear_value img lb in
  let img := foldl clear_value img rb in
  let img := foldl clear_value img tb in
  let img := foldl clear_value img bb in
  Some img.

End Filters.

(** ** Python list operations that can raise *)

(** [l[i] = x] *)
Definition setitem {A} (l : list A) (i : nat) (x : A) : option (list A) :=
  if decide (i < length l) then Some (<[i:=x]> l) else None.

(** [del l[i]] *)
Definition delitem {A} (l : list A) (i : nat) : option (list A) :=
  if decide (i < length l) then Some (delete i l) else None.

(** A [for] loop over [xs] whose body threads a state and may raise. *)
Fixpoint for_each {S X} (body : S → X → option S) (xs : list X) (s : S)
    : option S :=
  match xs with
  | [] => Some s
  | x :: xs' => s' ← body s x; for_each body xs' s'
  end.

(** [x < y] on floats. *)
Definition Qltb (x y : Q) : bool := negb (Qle_bool y x).

(** ** The global lists (lines 90-99) *)

Record State := {
  len_abs : list Q;
  area_abs : list Q;
  frames_abs : list Z;
  len_buffer : list Q;
  area_buffer : list Z;
  frame_buffer : list Z;
  mean_buffer : list (Q * Q);
  seen : list bool
}.

Definition init : State :=
  {| len_abs := []; area_abs := []; frames_abs := [];
     len_buffer := []; area_buffer := []; frame_buffer := [];
     mean_buffer := []; seen := [] |}.

(** ** Region statistics *)

(** [np.where(clusters == lab)]: the (row, column) pairs in row-major order. *)
Definition where_label (clusters : image) (lab : nat) : list (nat * nat) :=
  concat (imap (λ r row, (λ c, (r, c)) <$> np_where (Nat.eqb lab) row) clusters).

(** [np.mean(v)] *)
Definition np_mean (v : list nat) : Q :=
  (inject_Z (Z.of_nat (sum_list v)) / inject_Z (Z.of_nat (length v)))%Q.

Definition to_float (n : nat) : Q := inject_Z (Z.of_nat n).

(** Lines 44-47. *)
Definition get_area (idx_lists : image) : list nat :=
  bincount (ravel idx_lists).

Section Engine.
Context `{Scipy}.
Variable opt : Options.

(** Lines 37-42. [idx_lists] is the pair of arrays of [np.where], zipped. *)
Definition get_length (idx_lists : list (nat * nat)) : option Q :=
  first ← head idx_lists;
  final ← last idx_lists;
  let start := (to_float first.1, to_float first.2) in
  let end_ := (to_float final.1, to_float final.2) in
  Some (euclidean start end_).

(** ** Association (lines 140-158) *)

(** The body of [for idx, val in enumerate(mean_buffer)], lines 141-151. *)
Definition match_step (mean : Q * Q) (length : Q) (area : Z)
    (acc : State * bool) (idx : nat) : option (State * bool) :=
  let '(st, seen_flag) := acc in
  val ← mean_buffer st !! idx;
  let dis := euclidean val mean in
  if Qltb dis (inject_Z (meanshift_length opt)) then
    f ← frame_buffer st !! idx;
    frame_buffer' ← setitem (frame_buffer st) idx (f + 1)%Z;
    seen' ← setitem (seen st) idx true;
    mean_buffer' ← setitem (mean_buffer st) idx mean;
    l ← len_buffer st !! idx;
    len_buffer' ← (if Qltb l length
                   then setitem (len_buffer st) idx length
                   else Some (len_buffer st));
    a ← area_buffer st !! idx;
    area_buffer' ← (if (a <? area)%Z
                    then setitem (area_buffer st) idx area
                    else Some (area_buffer st));
    Some ({| len_abs := len_abs st; area_abs := area_abs st;
             frames_abs := frames_abs st;
             len_buffer := len_buffer'; area_buffer := area_buffer';
             frame_buffer := frame_buffer'; mean_buffer := mean_buffer';
             seen := seen' |}, true)
  else Some (st, seen_flag).

(** Lines 153-158. *)
Definition new_track (st : State) (mean : Q * Q) (length : Q) (area : Z)
    : State :=
  {| len_abs := len_abs st; area_abs := area_abs st;
     frames_abs := frames_abs st;
     len_buffer := len_buffer st ++ [length];
     area_buffer := area_buffer st ++ [area];
     frame_buffer := frame_buffer st ++ [1%Z];
     mean_buffer := mean_buffer st ++ [mean];
     seen := seen st ++ [true] |}.

(** One region against the store, lines 139-158. *)
Definition associate (st : State) (mean : Q * Q) (length : Q) (area : Z)
    : option State :=
  acc ← for_each (match_step mean length area)
           (seq 0 (List.length (mean_buffer st))) (st, false);
  let '(st, seen_flag) := acc : State * bool in
  if seen_flag then Some st else Some (new_track st mean length area).

(** The body of [for lab in labels], lines 132-158. *)
Definition label_step (clusters : image) (st : State) (lab : nat)
    : option State :=
  let idxs := where_label clusters lab in
  if decide (List.length idxs = 0) then Some st
  else
    let mean := (np_mean idxs.*2, np_mean idxs.*1) in
    length ← get_length idxs;
    area ← get_area clusters !! lab;
    associate st mean length (Z.of_nat area).

(** Line 130. *)
Definition reset_seen (st : State) : State :=
  {| len_abs := len_abs st; area_abs := area_abs st;
     frames_abs := frames_abs st;
     len_buffer := len_buffer st; area_buffer := area_buffer st;
     frame_buffer := frame_buffer st; mean_buffer := mean_buffer st;
     seen := replicate (List.length (seen st)) false |}.

(** ** Finalization (lines 162-173) *)

(** Lines 165-167. The quotients are those of [Q]: they are the source's
    where [pix_per_cm] is not zero. With [pix_per_cm] at 0 the source
    appends [inf] (a numpy scalar divided by 0), which [Q] has not; the
    properties of the values written assume [pix_per_cm ≠ 0]. *)
Definition emit (st : State) (f : Z) (l : Q) (a : Z) : State :=
  {| len_abs := len_abs st ++ [(l / inject_Z (pix_per_cm opt))%Q];
     area_abs := area_abs st ++ [(inject_Z a / inject_Z (pix_per_cm opt ^ 2))%Q];
     frames_abs := frames_abs st ++ [f];
     len_buffer := len_buffer st; area_buffer := area_buffer st;
     frame_buffer := frame_buffer st; mean_buffer := mean_buffer st;
     seen := seen st |}.

Definition finalize_step (st : State) (idx : nat) : option State :=
  f ← frame_buffer st !! idx;
  st ← (if (framebuff opt <? f)%Z
        then l ← len_buffer st !! idx;
             a ← area_buffer st !! idx;
             Some (emit st f l a)
        else Some st);
  len_buffer' ← delitem (len_buffer st) idx;
  seen' ← delitem (seen st) idx;
  mean_buffer' ← delitem (mean_buffer st) idx;
  area_buffer' ← delitem (area_buffer st) idx;
  frame_buffer' ← delitem (frame_buffer st) idx;
  Some {| len_abs := len_abs st; area_abs := area_abs st;
          frames_abs := frames_abs st;
          len_buffer := len_buffer'; area_buffer := area_buffer';
          frame_buffer := frame_buffer'; mean_buffer := mean_buffer';
          seen := seen' |}.

(** [for idx in np.where(np.array(seen) == 0)[0][::-1]] *)
Definition finalize (st : State) : option State :=
  for_each finalize_step (reverse (np_where negb (seen st))) st.

(** ** The frame loop (lines 108-173) *)

(** Lines 130-173, on the filtered label image. *)
Definition track_frame (st : State) (clusters : image) (num : nat)
    : option State :=
  let labels := seq 1 num in
  let st := reset_seen st in
  st ← for_each (label_step clusters) labels st;
  finalize st.

(** One iteration of the loop of line 108; [mask] is [fgbg.apply(frame)]. *)
Definition process_frame (st : State) (mask : image) : option State :=
  mask_proc ← denoise mask (denoise_thresh opt);
  if all_zero mask_proc then Some st
  else
    let '(clusters, num) := label8 mask_proc in
    clusters ← remove_border_tracks clusters;
    if all_zero clusters then Some st
    else track_frame st clusters num.

Definition run (st : State) (masks : list image) : option State :=
  for_each process_frame masks st.

(** The columns of the data frame of line 175, one row per record. *)
Definition data (st : State) : list (Q * Q * Z) :=
  zip (zip (len_abs st) (area_abs st)) (frames_abs st).

Definition program (masks : list image) : option (list (Q * Q * Z)) :=
  data <$> run init masks.

End Engine.

(** ** The store as a list of tracks

    The five parallel lists, read as one list of tracks: the view in which
    the properties below are stated. *)

Record Track := {
  t_mean : Q * Q;
  t_len : Q;
  t_area : Z;
  t_frames : Z;
  t_seen : bool
}.

(** The five lists have one length. *)
Definition same_length (st : State) : Prop :=
  length (len_buffer st) = length (mean_buffer st) ∧
  length (area_buffer st) = length (mean_buffer st) ∧
  length (frame_buffer st) = length (mean_buffer st) ∧
  length (seen st) = length (mean_buffer st).

Fixpoint zip_tracks (ms : list (Q * Q)) (ls : list Q) (az fs : list Z)
    (ss : list bool) : list Track :=
  match ms, ls, az, fs, ss with
  | m :: ms, l :: ls, a :: az, f :: fs, s :: ss =>
      {| t_mean := m; t_len := l; t_area := a; t_frames := f; t_seen := s |}
      :: zip_tracks ms ls az fs ss
  | _, _, _, _, _ => []
  end.

Definition tracks (st : State) : list Track :=
  zip_tracks (mean_buffer st) (len_buffer st) (area_buffer st)
    (frame_buffer st) (seen st).

(** The state whose buffers are the columns of [ts]. *)
Definition with_tracks (la aa : list Q) (fa : list Z) (ts : list Track)
    : State :=
  {| len_abs := la; area_abs := aa; frames_abs := fa;
     len_buffer := t_len <$> ts; area_buffer := t_area <$> ts;
     frame_buffer := t_frames <$> ts; mean_buffer := t_mean <$> ts;
     seen := t_seen <$> ts |}.

(** A region as the association sees it: centroid, length, area. *)
Record Region := {
  r_mean : Q * Q;
  r_length : Q;
  r_area : Z
}.

Section View.
Context `{Scipy}.
Variable opt : Options.

(** The test of line 142 for a track with centroid [val]. *)
Definition near (mean val : Q * Q) : bool :=
  Qltb (euclidean val mean) (inject_Z (meanshift_length opt)).

(** What lines 143-151 leave of a track that passes the test. *)
Definition matched (r : Region) (t : Track) : Track :=
  {| t_mean := r_mean r;
     t_len := if Qltb (t_len t) (r_length r) then r_length r else t_len t;
     t_area := if (t_area t <? r_area r)%Z then r_area r else t_area t;
     t_frames := t_frames t + 1;
     t_seen := true |}.

Definition update (r : Region) (t : Track) : Track :=
  if near (r_mean r) (t_mean t) then matched r t else t.

(** The track appended by lines 153-158. *)
Definition created (r : Region) : Track :=
  {| t_mean := r_mean r; t_len := r_length r; t_area := r_area r;
     t_frames := 1; t_seen := true |}.

(** The test of line 164. *)
Definition long_enough (t : Track) : bool := (framebuff opt <? t_frames t)%Z.

(** The tracks finalization writes out, in the order it meets them. *)
Definition finalized (ts : list Track) : list Track :=
  reverse (filter (λ t, negb (t_seen t) && long_enough t = true) ts).

(** What [finalize_step] writes out for one track. *)
Definition record_if (t : Track) : list Track :=
  if long_enough t then [t] else [].

Definition length_cm (t : Track) : Q :=
  (t_len t / inject_Z (pix_per_cm opt))%Q.

Definition area_cm2 (t : Track) : Q :=
  (inject_Z (t_area t) / inject_Z (pix_per_cm opt ^ 2))%Q.

(** [associate] on a region record. *)
Definition associate_region (st : State) (r : Region) : option State :=
  associate opt st (r_mean r) (r_length r) (r_area r).

(** Lines 130-173 on the statistics of the frame's regions, in label
    order. *)
Definition lifecycle (st : State) (regions : list Region) : option State :=
  st ← for_each associate_region regions (reset_seen st);
  finalize opt st.

(** The regions of a frame that match a track with centroid [c], each one
    tested against the centroid the one before it left. *)
Fixpoint hits (c : Q * Q) (rs : list Region) : nat :=
  match rs with
  | [] => 0
  | r :: rs' =>
      if near (r_mean r) c then S (hits (r_mean r) rs') else hits c rs'
  end.

End View.

(** ** The loop on the track view *)

Section TrackSteps.
Context `{Scipy}.
Variable opt : Options.

(** Line 130 on one track. *)
Definition unsee (t : Track) : Track :=
  {| t_mean := t_mean t; t_len := t_len t; t_area := t_area t;
     t_frames := t_frames t; t_seen := false |}.

(** Lines 140-158 on the list of tracks: every track is tested and updated
    on its own, and a track is appended when none passed. *)
Definition associate_tracks (ts : list Track) (r : Region) : list Track :=
  (update opt r <$> ts) ++
  (if existsb (λ t, near opt (r_mean r) (t_mean t)) ts
   then [] else [created r]).

(** The tracks before finalization, after the regions of a frame. *)
Definition scanned (ts : list Track) (rs : list Region) : list Track :=
  foldl associate_tracks (unsee <$> ts) rs.

(** The tracks a frame leaves in the store. *)
Definition survivors (ts : list Track) : list Track :=
  filter (λ t, t_seen t = true) ts.

(** The position of track [i] after the unseen tracks are deleted. *)
Definition position_after (ts : list Track) (i : nat) : nat :=
  length (survivors (take i ts)).

(** Greater index first. *)
Definition descending (idxs : list nat) : Prop :=
  StronglySorted (λ i j, j < i) idxs.

End TrackSteps.

(** ** An instance for the examples

    The labelling of [label_single] is the one of scipy on an image whose
    foreground is empty or one connected region, for either connectivity.
    [euclidean_floor] rounds the root down on the grid of the denominator
    and is exact where the distance is rational. *)

Definition label_single (a : image) : image * nat :=
  (fmap (M := list) (λ x, if decide (x = 0) then 0 else 1) <$> a,
   if all_zero a then 0 else 1).

Definition sqrt_floor (q : Q) : Q :=
  (Z.sqrt (Qnum q * Zpos (Qden q)) # Qden q)%Q.

Definition euclidean_floor (u v : Q * Q) : Q :=
  sqrt_floor ((u.1 - v.1) * (u.1 - v.1) + (u.2 - v.2) * (u.2 - v.2))%Q.

#[export] Instance scipy_ex : Scipy :=
  {| label := label_single; label8 := label_single;
     euclidean := euclidean_floor |}.

(** The defaults of lines 19-23. *)
Definition defaults : Options :=
  {| framebuff := 1; meanshift_length := 25; denoise_thresh := 500;
     pix_per_cm := 120 |}.

Definition region (x y : Z) (length : Z) (area : Z) : Region :=
  {| r_mean := (inject_Z x, inject_Z y); r_length := inject_Z length;
     r_area := area |}.

(** Two tracks 30 pixels apart, as two regions of one frame leave them. *)
Definition two_tracks : State :=
  with_tracks [] [] []
    [created (region 100 50 500 501); created (region 130 50 500 501)].

(** ** The regions of a frame *)

Section Regions.
Context `{Scipy}.

(** Lines 133-138: the statistics of label [lab], [None] when no pixel
    carries it (the [continue] of line 135). *)
Definition region_of (clusters : image) (lab : nat) : option Region :=
  let idxs := where_label clusters lab in
  match head idxs, last idxs with
  | Some first, Some final =>
      Some {| r_mean := (np_mean idxs.*2, np_mean idxs.*1);
              r_length := euclidean (to_float first.1, to_float first.2)
                            (to_float final.1, to_float final.2);
              r_area := Z.of_nat (count_occ Nat.eq_dec (ravel clusters) lab) |}
  | _, _ => None
  end.

(** The regions the loop of line 131 meets, in label order. *)
Definition regions (clusters : image) (num : nat) : list Region :=
  omap (region_of clusters) (seq 1 num).

End Regions.

(** ** Skipped frames *)

Section Skipped.
Context `{Scipy}.
Variable opt : Options.

(** The frame takes one of the two [continue] of lines 117-118 and
    126-127. *)
Definition skipped (mask : image) : bool :=
  match denoise mask (denoise_thresh opt) with
  | Some mask_proc =>
      all_zero mask_proc ||
      match remove_border_tracks (label8 mask_proc).1 with
      | Some clusters => all_zero clusters
      | None => false
      end
  | None => false
  end.

End Skipped.

(** ** A track followed over several frames *)

Section Following.
Context `{Scipy}.
Variable opt : Options.

(** Lines 116-138 of one frame: the statistics of its regions, [Some None]
    for a skipped frame, [None] when a filter raises. *)
Definition frame_regions (mask : image) : option (option (list Region)) :=
  mask_proc ← denoise mask (denoise_thresh opt);
  if all_zero mask_proc then Some None
  else
    let '(clusters, num) := label8 mask_proc in
    clusters ← remove_border_tracks clusters;
    if all_zero clusters then Some None
    else Some (Some (regions clusters num)).

(** Frames given by the statistics of their regions. *)
Definition lifecycles (st : State) (frames : list (list Region))
    : option State :=
  for_each (lifecycle opt) frames st.

(** Each region passes the test of line 142 against the one before it,
    the first against [c]. *)
Fixpoint chain (c : Q * Q) (rs : list Region) : bool :=
  match rs with
  | [] => true
  | r :: rs' => near opt (r_mean r) c && chain (r_mean r) rs'
  end.

(** The centroid the last region of [rs] leaves. *)
Definition last_mean (c : Q * Q) (rs : list Region) : Q * Q :=
  foldl (λ _ r, r_mean r) c rs.

(** The track a chain of regions leaves, one region per frame. *)
Definition followed (t : Track) (rs : list Region) : Track :=
  foldl (λ t r, matched r t) t rs.

(** Lines 148-151: the greater of the stored and the new value. *)
Definition max_float (x y : Q) : Q := if Qltb x y then y else x.
Definition max_int (x y : Z) : Z := if (x <? y)%Z then y else x.

End Following.

(** ** Regions of a label image *)

(** Some pixel of value [v] lies in the first or last row or column of the
    [w]-column array [a]. *)
Definition touches_border (w : nat) (a : image) (v : nat) : Prop :=
  ∃ r c, pixel a r c = Some v ∧
    (r = 0 ∨ r = length a - 1 ∨ c = 0 ∨ c = w - 1).

(** The number of pixels that carry label [l]. *)
Definition pixel_count (labeled : image) (l : nat) : nat :=
  count_occ Nat.eq_dec (ravel labeled) l.

(** ** Example data *)

(** The defaults with a denoise threshold that suits small images. *)
Definition small_images : Options :=
  {| framebuff := 1; meanshift_length := 25; denoise_thresh := 1;
     pix_per_cm := 120 |}.

(** The region that lies between the two tracks of [two_tracks], 15 pixels
    from each. *)
Definition between : Region := region 115 50 520 530.

(** [two_tracks] after [between] was associated. *)
Definition both_matched : State :=
  {| len_abs := []; area_abs := []; frames_abs := [];
     len_buffer := [520%Q; 520%Q]; area_buffer := [530%Z; 530%Z];
     frame_buffer := [2%Z; 2%Z];
     mean_buffer := [(115%Q, 50%Q); (115%Q, 50%Q)];
     seen := [true; true] |}.

(** Two frames: a strip of 501 pixels, then the same strip and a second
    one two rows below it. *)
Definition two_frames : list (list Region) :=
  [[region 251 10 500 501];
   [region 251 10 500 501; region 251 12 500 501]].

(** The store after [two_frames]. *)
Definition matched_thrice : State :=
  {| len_abs := []; area_abs := []; frames_abs := [];
     len_buffer := [500%Q]; area_buffer := [501%Z]; frame_buffer := [3%Z];
     mean_buffer := [(251%Q, 12%Q)]; seen := [true] |}.

(** Five tracks, those at indices 1, 3 and 4 unseen; the one at index 3 was
    seen in [framebuff] frames, the ones at 1 and 4 in more. *)
Definition five_tracks : State :=
  {| len_abs := []; area_abs := []; frames_abs := [];
     len_buffer := [10%Q; 11%Q; 12%Q; 13%Q; 14%Q];
     area_buffer := [100%Z; 110%Z; 120%Z; 130%Z; 140%Z];
     frame_buffer := [5%Z; 2%Z; 7%Z; 1%Z; 3%Z];
     mean_buffer := [(0%Q, 0%Q); (100%Q, 0%Q); (200%Q, 0%Q); (300%Q, 0%Q);
                     (400%Q, 0%Q)];
     seen := [true; false; true; false; false] |}.

(** A speck of one pixel; a region of two pixels on the right border; a
    region of two pixels inside; the same region one frame later. *)
Definition speck : image := [[0; 0; 0; 0]; [0; 255; 0; 0]; [0; 0; 0; 0]].
Definition on_border : image := [[0; 0; 0; 0]; [0; 0; 255; 255]; [0; 0; 0; 0]].
Definition inside : image :=
  [[0; 0; 0; 0; 0]; [0; 255; 255; 0; 0]; [0; 0; 0; 0; 0]].
Definition inside_next : image :=
  [[0; 0; 0; 0; 0]; [0; 0; 255; 255; 0]; [0; 0; 0; 0; 0]].

(** A label image with four regions; 1 lies inside, 2 and 4 touch the
    border, 3 lies inside. *)
Definition four_regions : image :=
  [[0; 0; 0; 0; 0]; [0; 1; 1; 0; 0]; [2; 0; 0; 3; 0]; [2; 0; 0; 0; 4];
   [0; 0; 0; 0; 4]].

(** The store after [inside] and [inside_next]: one track, seen twice. *)
Definition followed_twice : State :=
  {| len_abs := []; area_abs := []; frames_abs := [];
     len_buffer := [1%Q]; area_buffer := [2%Z]; frame_buffer := [2%Z];
     mean_buffer := [(5 # 2, 2 # 2)%Q]; seen := [true] |}.

(** ** Arrays with rows of one length *)

(** Every row of [a] has [w] elements, as in a numpy array. *)
Definition uniform (w : nat) (a : image) : Prop :=
  Forall (λ row, length row = w) a.

(** The position lies in the first or last row or column of an array with
    [h] rows and [w] columns. *)
Definition at_border (h w r c : nat) : Prop :=
  r = 0 ∨ r = h - 1 ∨ c = 0 ∨ c = w - 1.

(** ** A track over the regions of one frame *)

Section FrameScan.
Context `{Scipy}.
Variable opt : Options.

(** The centroid a track with centroid [c] holds after the regions [rs]:
    the centroid of the last region that matched it. *)
Fixpoint moved (c : Q * Q) (rs : list Region) : Q * Q :=
  match rs with
  | [] => c
  | r :: rs' =>
      if near opt (r_mean r) c then moved (r_mean r) rs' else moved c rs'
  end.

End FrameScan.

(** ** Frames, cropping and the video (lines 49-55, 80-110, 175-176)

    cv2 is a library: the background subtractor and the video capture are
    the fields of two classes. A frame is an array of colour pixels; the
    capture delivers frames one by one and [None] when it has no more. *)

Definition bgr : Type := nat * nat * nat.
Definition frame : Type := list (list bgr).

(** A bound of a slice over [n] elements: a negative one counts from the
    end, and both are clamped to the range. *)
Definition py_bound (n : nat) (i : Z) : nat :=
  if (i <? 0)%Z then Z.to_nat (Z.max 0 (Z.of_nat n + i))
  else Nat.min n (Z.to_nat i).

(** [l[start:stop]] *)
Definition py_slice {A} (start stop : Z) (l : list A) : list A :=
  let a := py_bound (length l) start in
  let b := py_bound (length l) stop in
  take (b - a) (drop a l).

(** [frame[border[1]:-border[1], border[0]:-border[0]]], lines 53 and
    110. *)
Definition crop {A} (border : Z * Z) (fr : list (list A)) : list (list A) :=
  py_slice border.1 (- border.1)%Z <$> py_slice border.2 (- border.2)%Z fr.

Class Subtractor := {
  subtractor : Type;
  (** [cv2.createBackgroundSubtractorMOG2(detectShadows=False)] *)
  createBackgroundSubtractorMOG2 : subtractor;
  (** [fgbg.apply(frame)]: the updated model and the mask, or an error. *)
  apply : subtractor → frame → option (subtractor * image)
}.

Class VideoCapture := {
  capture : Type;
  (** [cap.read()]: the capture after the call and the frame, [None] when
      no frame is delivered. *)
  read : capture → capture * option frame;
  (** [int(cap.get(cv2.CAP_PROP_POS_FRAMES))] *)
  pos_frames : capture → Z;
  (** [int(cap.get(cv2.CAP_PROP_FRAME_COUNT))] *)
  frame_count : capture → Z
}.

(** The two calls of [sys.exit]. *)
Inductive exit_message :=
  | file_does_not_exist
  | video_has_no_frames.

(** How the script ends: [sys.exit], an exception, or the rows written to
    the output file. *)
Inductive outcome :=
  | Exited (msg : exit_message)
  | Raised
  | Written (rows : list (Q * Q * Z)).

Section Script.
Context `{Scipy} `{Subtractor} `{VideoCapture}.
Variable opt : Options.
Variable border : Z * Z.

(** The body of the loop of [train_bkg], lines 52-54. Slicing [None]
    raises. *)
Definition train_step (s : capture * subtractor) (i : nat)
    : option (capture * subtractor) :=
  let '(cap, fgbg) := s in
  let '(cap, ret_frame) := read cap in
  fr ← ret_frame;
  let fr := crop border fr in
  r ← apply fgbg fr;
  Some (cap, r.1).

(** Lines 49-55. The capture is advanced in place and comes back with the
    subtractor. *)
Definition train_bkg (cap : capture) (nframes : Z) (fgbg : subtractor)
    : option (capture * subtractor) :=
  for_each train_step (seq 0 (Z.to_nat nframes)) (cap, fgbg).

(** The body of the loop of line 108, lines 109-173. *)
Definition tick (s : capture * subtractor * State) (i : nat)
    : option (capture * subtractor * State) :=
  let '(cap, fgbg, st) := s in
  let '(cap, ret_frame) := read cap in
  fr ← ret_frame;
  let fr := crop border fr in
  r ← apply fgbg fr;
  st ← process_frame opt st r.2;
  Some (cap, r.1, st).

(** Lines 80-176; [isfile] is [os.path.isfile(video)], [cap] the capture
    opened on the video. *)
Definition main (isfile : bool) (cap : capture) : outcome :=
  if negb isfile then Exited file_does_not_exist
  else
    match train_bkg cap 1000 createBackgroundSubtractorMOG2 with
    | None => Raised
    | Some (cap, fgbg) =>
        let current_frame := pos_frames cap in
        let final_frame := (frame_count cap - 1)%Z in
        if (final_frame <=? 0)%Z then Exited video_has_no_frames
        else
          match for_each tick
                  (seq 0 (Z.to_nat (final_frame - current_frame)))
                  (cap, fgbg, init) with
          | None => Raised
          | Some (_, _, st) => Written (data st)
          end
    end.

(** The frames [frames] through the subtractor and the frame loop, without
    the capture: lines 110-173 for each. *)
Definition feed_step (s : subtractor * State) (fr : frame)
    : option (subtractor * State) :=
  r ← apply s.1 (crop border fr);
  st ← process_frame opt s.2 r.2;
  Some (r.1, st).

(** The frames through the subtractor alone: lines 53-54 for each. *)
Definition learn_step (fgbg : subtractor) (fr : frame) : option subtractor :=
  fst <$> apply fgbg (crop border fr).

End Script.

(** ** A capture that is exact

    The frames of a file, delivered in order; the position is the number of
    frames delivered and the frame count the number of frames of the
    file. *)

Record FileCapture := {
  pending : list frame;
  delivered : nat;
  total : nat
}.

Definition open_file (frames : list frame) : FileCapture :=
  {| pending := frames; delivered := 0; total := length frames |}.

Definition read_file (cap : FileCapture) : FileCapture * option frame :=
  match pending cap with
  | [] => (cap, None)
  | fr :: rest =>
      ({| pending := rest; delivered := S (delivered cap);
          total := total cap |}, Some fr)
  end.

#[export] Instance file_capture : VideoCapture :=
  {| capture := FileCapture; read := read_file;
     pos_frames := λ cap, Z.of_nat (delivered cap);
     frame_count := λ cap, Z.of_nat (total cap) |}.

(** A subtractor for the examples: no model, and the mask of a frame is its
    first channel. *)
#[export] Instance first_channel : Subtractor :=
  {| subtractor := unit; createBackgroundSubtractorMOG2 := tt;
     apply := λ _ fr, Some (tt, fmap (M := list) (λ p : bgr, p.1.1) <$> fr) |}.

(** ** Example data for the options and the script *)

(** Small images, and a track continued within two pixels only. *)
Definition close_tracks : Options :=
  {| framebuff := 1; meanshift_length := 2; denoise_thresh := 1;
     pix_per_cm := 120 |}.

(** Small images, and no track ever continued. *)
Definition no_meanshift : Options :=
  {| framebuff := 1; meanshift_length := 0; denoise_thresh := 1;
     pix_per_cm := 120 |}.

(** The defaults with [framebuff] at 0. *)
Definition every_track : Options :=
  {| framebuff := 0; meanshift_length := 25; denoise_thresh := 500;
     pix_per_cm := 120 |}.

(** An array of two rows: every pixel lies on the border. *)
Definition two_rows : image := [[0; 7; 0]; [7; 7; 0]].

(** Three masks of one video: a track of two pixels, the track one pixel
    further, and a track two rows below while the first one is gone. *)
Definition track_enters : image :=
  [[0; 0; 0; 0; 0]; [0; 255; 255; 0; 0]; [0; 0; 0; 0; 0]; [0; 0; 0; 0; 0];
   [0; 0; 0; 0; 0]].
Definition track_moves : image :=
  [[0; 0; 0; 0; 0]; [0; 0; 255; 255; 0]; [0; 0; 0; 0; 0]; [0; 0; 0; 0; 0];
   [0; 0; 0; 0; 0]].
Definition track_elsewhere : image :=
  [[0; 0; 0; 0; 0]; [0; 0; 0; 0; 0]; [0; 0; 0; 0; 0]; [0; 255; 255; 0; 0];
   [0; 0; 0; 0; 0]].
Definition no_track : image := replicate 5 (replicate 5 0).

(** The grey frame that shows [img] inside a black margin of one pixel. *)
Definition grey (v : nat) : bgr := (v, v, v).

Definition framed (img : image) : frame :=
  let margin := replicate (2 + length (concat (take 1 img))) (grey 0) in
  margin :: ((λ row, grey 0 :: (grey <$> row) ++ [grey 0]) <$> img)
         ++ [margin].

(** 1000 frames without a track, then the three masks above, then a last
    frame. *)
Definition training_frames : list frame := replicate 1000 (framed no_track).

Definition short_film : list frame :=
  training_frames
  ++ [framed track_enters; framed track_moves; framed track_elsewhere;
      framed no_track].

(** ** A track over the frames of its life

    The regions that pass the test of line 142 for one track: within a
    frame each region is tested against the centroid the last match left
    (line 146), and the next frame goes on from there. *)

Section TrackHistory.
Context `{Scipy}.
Variable opt : Options.

(** The regions of a frame that match a track with centroid [c], in label
    order: the regions [hits] counts. *)
Fixpoint matches (c : Q * Q) (rs : list Region) : list Region :=
  match rs with
  | [] => []
  | r :: rs' =>
      if near opt (r_mean r) c then r :: matches (r_mean r) rs'
      else matches c rs'
  end.

(** The centroid of the track after the frames. *)
Definition moved_over (c : Q * Q) (frames : list (list Region)) : Q * Q :=
  foldl (moved opt) c frames.

(** The regions that match the track over the frames. *)
Fixpoint history (c : Q * Q) (frames : list (list Region)) : list Region :=
  match frames with
  | [] => []
  | rs :: rest => matches c rs ++ history (moved opt c rs) rest
  end.

(** Some region matches the track in every one of the frames: it is never
    left unseen, so finalization never removes it. *)
Fixpoint tracked (c : Q * Q) (frames : list (list Region)) : bool :=
  match frames with
  | [] => true
  | rs :: rest => (0 <? hits opt c rs) && tracked (moved opt c rs) rest
  end.

(** The regions that match the track region [r] starts (lines 153-158):
    those after [r] in its frame, then those of the frames that follow. *)
Definition seen_in (r : Region) (post : list Region)
    (frames : list (list Region)) : list Region :=
  matches (r_mean r) post ++ history (moved opt (r_mean r) post) frames.

End TrackHistory.

(** ** The output on the track view *)

Section Output.
Context `{Scipy}.
Variable opt : Options.

(** The row of the data frame for a track that is written out (lines
    165-167, 175). *)
Definition record (t : Track) : Q * Q * Z :=
  (length_cm opt t, area_cm2 opt t, t_frames t).

(** The tracks the processed frames write out, from the tracks [ts] on, in
    the order of the output lists: in each frame the unseen tracks that are
    long enough. *)
Fixpoint written (ts : list Track) (frames : list (list Region))
    : list Track :=
  match frames with
  | [] => []
  | rs :: rest =>
      finalized opt (scanned opt ts rs)
      ++ written (survivors (scanned opt ts rs)) rest
  end.

(** The tracks the processed frames leave in the store. *)
Definition live (ts : list Track) (frames : list (list Region))
    : list Track :=
  foldl (λ ts rs, survivors (scanned opt ts rs)) ts frames.

End Output.

(** ** The frames read and their masks *)

Section Staged.
Context `{Subtractor} `{VideoCapture}.
Variable border : Z * Z.

(** The frames [n] calls of [cap.read()] deliver and the capture after
    them, [None] when one call delivers no frame. *)
Fixpoint reads (n : nat) (cap : capture) : option (capture * list frame) :=
  match n with
  | 0 => Some (cap, [])
  | S n' =>
      let '(cap, ret_frame) := read cap in
      fr ← ret_frame;
      r ← reads n' cap;
      Some (r.1, fr :: r.2)
  end.

(** The masks [fgbg.apply] returns for the cropped frames, in order (lines
    110-113), and the subtractor after them. *)
Fixpoint masks_of (fgbg : subtractor) (frames : list frame)
    : option (subtractor * list image) :=
  match frames with
  | [] => Some (fgbg, [])
  | fr :: rest =>
      r ← apply fgbg (crop border fr);
      s ← masks_of r.1 rest;
      Some (s.1, r.2 :: s.2)
  end.

End Staged.

(** ** A labelling for images of horizontal strips

    On an image whose foreground is one run of pixels in each of a few
    rows, no two of them adjacent, scipy numbers the rows that hold a pixel
    from the top, for either connectivity. *)

Fixpoint label_rows (next : nat) (a : image) : image * nat :=
  match a with
  | [] => ([], next)
  | row :: rest =>
      if forallb (Nat.eqb 0) row
      then let '(labeled, num) := label_rows next rest in
           (row :: labeled, num)
      else let '(labeled, num) := label_rows (S next) rest in
           (((λ x, if decide (x = 0) then 0 else S next) <$> row) :: labeled,
            num)
  end.

Definition label_strips (a : image) : image * nat := label_rows 0 a.

Definition scipy_strips : Scipy :=
  {| label := label_strips; label8 := label_strips;
     euclidean := euclidean_floor |}.

(** Two masks of one video: two tracks of two pixels each, in rows 1 and 3,
    and the two tracks one pixel further. *)
Definition two_strips : image :=
  [[0; 0; 0; 0; 0]; [0; 255; 255; 0; 0]; [0; 0; 0; 0; 0]; [0; 0; 255; 255; 0];
   [0; 0; 0; 0; 0]].
Definition two_strips_next : image :=
  [[0; 0; 0; 0; 0]; [0; 0; 255; 255; 0]; [0; 0; 0; 0; 0]; [0; 255; 255; 0; 0];
   [0; 0; 0; 0; 0]].

(** * Properties *)

Section StoreFacts.

Lemma zip_tracks_columns (ts : list Track) :
  zip_tracks (t_mean <$> ts) (t_len <$> ts) (t_area <$> ts)
    (t_frames <$> ts) (t_seen <$> ts) = ts.
Proof.
  induction ts as [|[] ts IH]; [done|]. cbn. f_equal. apply IH.
Qed.

Lemma tracks_with_tracks la aa fa ts : tracks (with_tracks la aa fa ts) = ts.
Proof. apply zip_tracks_columns. Qed.

Lemma same_length_with_tracks la aa fa ts :
  same_length (with_tracks la aa fa ts).
Proof. unfold same_length; simpl. by rewrite !length_fmap. Qed.

Lemma columns_zip_tracks ms : ∀ ls az fs ss,
  length ls = length ms → length az = length ms →
  length fs = length ms → length ss = length ms →
  t_mean <$> zip_tracks ms ls az fs ss = ms ∧
  t_len <$> zip_tracks ms ls az fs ss = ls ∧
  t_area <$> zip_tracks ms ls az fs ss = az ∧
  t_frames <$> zip_tracks ms ls az fs ss = fs ∧
  t_seen <$> zip_tracks ms ls az fs ss = ss.
Proof.
  induction ms as [|m ms IH]; intros [|l ls] [|a az] [|f fs] [|s ss];
    simpl; intros; try done.
  destruct (IH ls az fs ss) as (? & ? & ? & ? & ?); [lia..|].
  cbn. repeat split; by f_equal.
Qed.

(** A state with lists of one length is the state of its tracks. *)
Lemma same_length_view st :
  same_length st →
  st = with_tracks (len_abs st) (area_abs st) (frames_abs st) (tracks st).
Proof.
  intros (? & ? & ? & ?). destruct st; unfold with_tracks, tracks; simpl in *.
  edestruct columns_zip_tracks as (-> & -> & -> & -> & ->); eauto.
Qed.

End StoreFacts.

Section LoopFacts.

Lemma for_each_app {S X} (body : S → X → option S) xs ys s :
  for_each body (xs ++ ys) s = for_each body xs s ≫= for_each body ys.
Proof.
  revert s. induction xs as [|x xs IH]; intros s; simpl; [done|].
  destruct (body s x); simpl; [apply IH | done].
Qed.

Lemma setitem_Some {A} (l : list A) i x :
  i < length l → setitem l i x = Some (<[i:=x]> l).
Proof. intros. unfold setitem. by rewrite decide_True. Qed.

Lemma delitem_Some {A} (l : list A) i :
  i < length l → delitem l i = Some (delete i l).
Proof. intros. unfold delitem. by rewrite decide_True. Qed.

Lemma column_insert_same {A} (f : Track → A) (ts : list Track) (i : nat) t t' :
  ts !! i = Some t → f t' = f t → f <$> <[i:=t']> ts = f <$> ts.
Proof.
  intros Ht Hf. rewrite list_fmap_insert, Hf.
  apply list_insert_id. by rewrite list_lookup_fmap, Ht.
Qed.

End LoopFacts.

Section AssociationFacts.
Context `{Scipy}.
Variable opt : Options.

(** One turn of the inner loop, on the track view. *)
Lemma match_step_view la aa fa ts flag idx t r :
  ts !! idx = Some t →
  match_step opt (r_mean r) (r_length r) (r_area r)
    (with_tracks la aa fa ts, flag) idx =
  Some (with_tracks la aa fa (<[idx:=update opt r t]> ts),
        flag || near opt (r_mean r) (t_mean t)).
Proof.
  intros Ht. pose proof (lookup_lt_Some _ _ _ Ht) as Hlt.
  unfold match_step, update. cbn [mean_buffer with_tracks].
  rewrite list_lookup_fmap, Ht. cbn [fmap option_fmap option_map mbind option_bind].
  fold (near opt (r_mean r) (t_mean t)).
  destruct (near opt (r_mean r) (t_mean t)) eqn:Hnear.
  - cbn [frame_buffer seen len_buffer area_buffer mean_buffer with_tracks
         len_abs area_abs frames_abs].
    rewrite !list_lookup_fmap, Ht.
    cbn [fmap option_fmap option_map mbind option_bind].
    rewrite !setitem_Some by (by rewrite length_fmap).
    cbn [mbind option_bind].
    rewrite orb_true_r. unfold with_tracks, matched.
    destruct (Qltb (t_len t) (r_length r)), (t_area t <? r_area r)%Z;
      cbn [mbind option_bind]; do 3 f_equal;
      try (by rewrite list_fmap_insert);
      try (symmetry; by eapply column_insert_same).
  - rewrite orb_false_r. by rewrite list_insert_id.
Qed.

(** The inner loop from index [length pre] on: the tracks before it are
    left alone, each one from there on is updated by its own test. *)
Lemma match_loop_view la aa fa r ts : ∀ pre flag,
  for_each (match_step opt (r_mean r) (r_length r) (r_area r))
    (seq (length pre) (length ts)) (with_tracks la aa fa (pre ++ ts), flag) =
  Some (with_tracks la aa fa (pre ++ (update opt r <$> ts)),
        flag || existsb (λ t, near opt (r_mean r) (t_mean t)) ts).
Proof.
  induction ts as [|t ts IH]; intros pre flag.
  - simpl. by rewrite orb_false_r.
  - cbn [length seq for_each].
    rewrite (match_step_view _ _ _ _ _ _ t) by by apply list_lookup_middle.
    cbn [mbind option_bind].
    rewrite insert_app_r_alt, Nat.sub_diag by lia. cbn [insert list_insert].
    replace (pre ++ update opt r t :: ts)
      with ((pre ++ [update opt r t]) ++ ts) by by rewrite <- app_assoc.
    replace (S (length pre)) with (length (pre ++ [update opt r t]))
      by (rewrite length_app; simpl; lia).
    rewrite IH. rewrite <- app_assoc. cbn [existsb fmap list_fmap app].
    by rewrite orb_assoc.
Qed.

Lemma associate_view la aa fa ts r :
  associate_region opt (with_tracks la aa fa ts) r =
  Some (with_tracks la aa fa
          ((update opt r <$> ts) ++
           if existsb (λ t, near opt (r_mean r) (t_mean t)) ts
           then [] else [created r])).
Proof.
  unfold associate_region, associate. cbn [mean_buffer with_tracks].
  rewrite length_fmap.
  pose proof (match_loop_view la aa fa r ts [] false) as Hloop.
  cbn [length app] in Hloop. rewrite Hloop.
  cbn [mbind option_bind orb].
  destruct (existsb _ ts).
  - by rewrite app_nil_r.
  - f_equal. unfold new_track, with_tracks; cbn.
    by rewrite !fmap_app.
Qed.

End AssociationFacts.

Section FinalizationFacts.
Context `{Scipy}.
Variable opt : Options.

Lemma finalize_step_view la aa fa ts idx t :
  ts !! idx = Some t →
  finalize_step opt (with_tracks la aa fa ts) idx =
  Some (with_tracks (la ++ (length_cm opt <$> record_if opt t))
          (aa ++ (area_cm2 opt <$> record_if opt t))
          (fa ++ (t_frames <$> record_if opt t)) (delete idx ts)).
Proof.
  intros Ht. pose proof (lookup_lt_Some _ _ _ Ht) as Hlt.
  unfold finalize_step, record_if, long_enough.
  cbn [frame_buffer len_buffer area_buffer with_tracks].
  rewrite !list_lookup_fmap, Ht.
  cbn [fmap option_fmap option_map mbind option_bind].
  destruct (framebuff opt <? t_frames t)%Z;
    cbn [mbind option_bind emit len_buffer area_buffer frame_buffer
         mean_buffer seen with_tracks len_abs area_abs frames_abs];
    rewrite !delitem_Some by (by rewrite length_fmap);
    cbn [mbind option_bind]; f_equal; unfold with_tracks;
    rewrite ?app_nil_r, !list_fmap_delete; done.
Qed.

(** The deletion loop over the unseen indices from [length pre] on, highest
    first: the tracks before are left alone, the seen ones from there on are
    kept in order, the unseen ones are written out from the last to the
    first. *)
Lemma finalize_loop_view ts : ∀ pre la aa fa,
  for_each (finalize_step opt)
    (reverse (where_from negb (length pre) (t_seen <$> ts)))
    (with_tracks la aa fa (pre ++ ts)) =
  Some (with_tracks (la ++ (length_cm opt <$> finalized opt ts))
          (aa ++ (area_cm2 opt <$> finalized opt ts))
          (fa ++ (t_frames <$> finalized opt ts))
          (pre ++ filter (λ t, t_seen t = true) ts)).
Proof.
  induction ts as [|t ts IH]; intros pre la aa fa.
  - cbn. by rewrite !app_nil_r.
  - cbn [fmap list_fmap where_from]. rewrite reverse_app, for_each_app.
    replace (pre ++ t :: ts) with ((pre ++ [t]) ++ ts)
      by by rewrite <- app_assoc.
    replace (S (length pre)) with (length (pre ++ [t]))
      by (rewrite length_app; simpl; lia).
    rewrite IH. cbn [mbind option_bind]. rewrite <- app_assoc. cbn [app].
    unfold finalized. rewrite !filter_cons.
    destruct (t_seen t) eqn:Hseen; cbn [negb andb].
    + rewrite (decide_False (P := false = true)) by done.
      rewrite (decide_True (P := true = true)) by done. by cbn.
    + rewrite (decide_False (P := false = true)) by done.
      cbn [reverse rev_append for_each].
      rewrite (finalize_step_view _ _ _ _ _ t)
        by by apply list_lookup_middle.
      cbn [mbind option_bind]. rewrite delete_middle.
      unfold record_if.
      destruct (long_enough opt t) eqn:Hlong.
      * rewrite (decide_True (P := true = true)) by done.
        rewrite reverse_cons. by rewrite !fmap_app, !app_assoc.
      * rewrite (decide_False (P := false = true)) by done.
        cbn. by rewrite !app_nil_r.
Qed.

Lemma finalize_view la aa fa ts :
  finalize opt (with_tracks la aa fa ts) =
  Some (with_tracks (la ++ (length_cm opt <$> finalized opt ts))
          (aa ++ (area_cm2 opt <$> finalized opt ts))
          (fa ++ (t_frames <$> finalized opt ts))
          (filter (λ t, t_seen t = true) ts)).
Proof. apply (finalize_loop_view ts []). Qed.

End FinalizationFacts.

Section LifecycleFacts.
Context `{Scipy}.
Variable opt : Options.

Lemma reset_seen_view la aa fa ts :
  reset_seen (with_tracks la aa fa ts) = with_tracks la aa fa (unsee <$> ts).
Proof.
  unfold reset_seen, with_tracks; cbn. f_equal.
  - by rewrite <- list_fmap_compose.
  - by rewrite <- list_fmap_compose.
  - by rewrite <- list_fmap_compose.
  - by rewrite <- list_fmap_compose.
  - rewrite length_fmap. induction ts as [|t ts IH]; [done|].
    cbn. f_equal. apply IH.
Qed.

Lemma associate_run_view la aa fa rs : ∀ ts,
  for_each (associate_region opt) rs (with_tracks la aa fa ts) =
  Some (with_tracks la aa fa (foldl (associate_tracks opt) ts rs)).
Proof.
  induction rs as [|r rs IH]; intros ts; [done|].
  cbn [for_each foldl]. rewrite associate_view. cbn [mbind option_bind].
  apply IH.
Qed.

Lemma lifecycle_view la aa fa ts rs :
  lifecycle opt (with_tracks la aa fa ts) rs =
  Some (with_tracks
          (la ++ (length_cm opt <$> finalized opt (scanned opt ts rs)))
          (aa ++ (area_cm2 opt <$> finalized opt (scanned opt ts rs)))
          (fa ++ (t_frames <$> finalized opt (scanned opt ts rs)))
          (survivors (scanned opt ts rs))).
Proof.
  unfold lifecycle. rewrite reset_seen_view, associate_run_view.
  cbn [mbind option_bind]. apply finalize_view.
Qed.

End LifecycleFacts.

(** Reads a state with lists of one length as the state of its tracks. *)
Ltac view_tracks st Hsame :=
  let E := fresh "E" in
  pose proof (same_length_view st Hsame) as E;
  let ts := fresh "ts" in
  set (ts := tracks st) in *; clearbody ts;
  rewrite E; clear E.

Section AssociationTheorem.
Context `{Scipy}.
Variable opt : Options.

(** C1 (as amended). A region updates every live track whose stored centroid
    is closer to the region's centroid than [meanshift_length], not only the
    first one: such a track is marked seen, takes the region's centroid, has
    its length and area raised to the region's when those are greater, and
    its frame count incremented. A live track that is not that close is left
    as it was. A track is appended exactly when no live track was close. *)
Theorem associate_updates_every_near_track (st : State) (r : Region) :
  same_length st →
  ∃ st', associate_region opt st r = Some st' ∧
    (∀ i t, tracks st !! i = Some t →
       tracks st' !! i =
       Some (if near opt (r_mean r) (t_mean t) then matched r t else t)) ∧
    tracks st' =
      (update opt r <$> tracks st) ++
      (if existsb (λ t, near opt (r_mean r) (t_mean t)) (tracks st)
       then [] else [created r]).
Proof.
  intros Hsame. view_tracks st Hsame.
  rewrite associate_view. eexists; split; [done|].
  rewrite tracks_with_tracks. split; [|done].
  intros i t Ht. rewrite lookup_app_l.
  - by rewrite list_lookup_fmap, Ht.
  - rewrite length_fmap. by eapply lookup_lt_Some.
Qed.

End AssociationTheorem.

Section CountingAndFinalizing.
Context `{Scipy}.
Variable opt : Options.

Lemma hits_frames rs : ∀ ts i t,
  ts !! i = Some t →
  ∃ t', foldl (associate_tracks opt) ts rs !! i = Some t' ∧
    t_frames t' = (t_frames t + Z.of_nat (hits opt (t_mean t) rs))%Z.
Proof.
  induction rs as [|r rs IH]; intros ts i t Ht.
  - exists t. split; [done|]. cbn. lia.
  - cbn [foldl hits].
    assert (associate_tracks opt ts r !! i = Some (update opt r t)) as Hi.
    { unfold associate_tracks. rewrite lookup_app_l.
      - by rewrite list_lookup_fmap, Ht.
      - rewrite length_fmap. by eapply lookup_lt_Some. }
    destruct (IH _ _ _ Hi) as (t' & Ht' & Hf). exists t'. split; [done|].
    rewrite Hf. unfold update.
    destruct (near opt (r_mean r) (t_mean t)); cbn; lia.
Qed.

(** C2 (as amended). Over the regions of a frame, the frame count of a live
    track rises by the number of regions that match it, each region being
    tested against the centroid the previous match left: by one for every
    match, so by two when two regions of the frame match the track. *)
Theorem frames_seen_counts_matches (st : State) (rs : list Region)
    (i : nat) (t : Track) :
  same_length st →
  tracks st !! i = Some t →
  ∃ st' t', for_each (associate_region opt) rs st = Some st' ∧
    tracks st' !! i = Some t' ∧
    t_frames t' = (t_frames t + Z.of_nat (hits opt (t_mean t) rs))%Z.
Proof.
  intros Hsame. view_tracks st Hsame. intros Ht.
  rewrite associate_run_view.
  destruct (hits_frames rs _ _ _ Ht) as (t' & Ht' & Hf).
  eexists _, t'. split; [done|]. by rewrite tracks_with_tracks.
Qed.

Lemma elem_of_finalized ts t :
  t ∈ finalized opt ts ↔
  t ∈ ts ∧ t_seen t = false ∧ (framebuff opt < t_frames t)%Z.
Proof.
  unfold finalized, long_enough.
  rewrite elem_of_reverse, list_elem_of_filter, andb_true_iff,
    negb_true_iff, Z.ltb_lt.
  tauto.
Qed.


End CountingAndFinalizing.

Section RegionFacts.
Context `{Scipy}.
Variable opt : Options.

Lemma where_from_elem {A} (cond : A → bool) l : ∀ k,
  where_from cond k l ≠ [] → ∃ x, x ∈ l ∧ cond x = true.
Proof.
  induction l as [|x l IH]; intros k Hne; [done|].
  cbn in Hne. destruct (cond x) eqn:Hx.
  - exists x. split; [left | done].
  - destruct (IH (S k) Hne) as (y & Hy & Hc). exists y. split; [by right|done].
Qed.

Lemma where_rows_elem lab clusters : ∀ g : nat → nat,
  concat (imap (λ r row, (λ c, (g r, c)) <$> np_where (Nat.eqb lab) row)
            clusters) ≠ [] →
  lab ∈ concat clusters.
Proof.
  induction clusters as [|row clusters IH]; intros g Hne; [done|].
  cbn [imap concat] in *.
  destruct (np_where (Nat.eqb lab) row) as [|c cs] eqn:Hrow.
  - cbn in Hne. apply elem_of_app. right.
    apply (IH (g ∘ S)). exact Hne.
  - apply elem_of_app. left.
    destruct (where_from_elem (Nat.eqb lab) row 0) as (x & Hx & Hc).
    { unfold np_where in Hrow. by rewrite Hrow. }
    apply Nat.eqb_eq in Hc. by subst.
Qed.

Lemma where_label_elem clusters lab :
  where_label clusters lab ≠ [] → lab ∈ ravel clusters.
Proof. apply (where_rows_elem lab clusters id). Qed.

Lemma bincount_lookup l v :
  v ∈ l → bincount l !! v = Some (count_occ Nat.eq_dec l v).
Proof.
  intros Hv. unfold bincount. destruct l as [|x l]; [by inversion Hv|].
  rewrite list_lookup_fmap, lookup_seq_lt; [done|].
  apply max_list_elem_of_le in Hv. lia.
Qed.

(** The body of the label loop: nothing for a label without pixels, the
    association of its statistics otherwise. It never raises. *)
Lemma label_step_region clusters st lab :
  label_step opt clusters st lab =
  match region_of clusters lab with
  | None => Some st
  | Some r => associate_region opt st r
  end.
Proof.
  unfold label_step, region_of, get_length, get_area.
  destruct (where_label clusters lab) as [|p idxs] eqn:Hidx; [done|].
  rewrite decide_False by done.
  assert (is_Some (last (p :: idxs))) as [q Hq].
  { apply last_is_Some. done. }
  rewrite Hq. cbn [head mbind option_bind].
  rewrite bincount_lookup.
  - done.
  - apply where_label_elem. by rewrite Hidx.
Qed.

Lemma label_loop_regions clusters labels : ∀ st,
  for_each (label_step opt clusters) labels st =
  for_each (associate_region opt) (omap (region_of clusters) labels) st.
Proof.
  induction labels as [|lab labels IH]; intros st; [done|].
  cbn [for_each omap list_omap]. rewrite label_step_region.
  destruct (region_of clusters lab) as [r|]; cbn [mbind option_bind].
  - cbn [for_each]. destruct (associate_region opt st r); [|done].
    cbn. apply IH.
  - apply IH.
Qed.

Lemma track_frame_lifecycle st clusters num :
  track_frame opt st clusters num = lifecycle opt st (regions clusters num).
Proof.
  unfold track_frame, lifecycle, regions. by rewrite label_loop_regions.
Qed.

End RegionFacts.

Section FrameTheorems.
Context `{Scipy}.
Variable opt : Options.

Lemma same_length_init : same_length init.
Proof. by repeat split. Qed.

Lemma lifecycle_same_length st rs :
  same_length st →
  ∃ st', lifecycle opt st rs = Some st' ∧ same_length st'.
Proof.
  intros Hsame. view_tracks st Hsame. rewrite lifecycle_view.
  eexists; split; [done|]. apply same_length_with_tracks.
Qed.

Lemma process_frame_regions st mask :
  process_frame opt st mask =
  fr ← frame_regions opt mask;
  match fr with
  | None => Some st
  | Some rs => lifecycle opt st rs
  end.
Proof.
  unfold process_frame, frame_regions.
  destruct (denoise mask (denoise_thresh opt)) as [mask_proc|]; [|done].
  cbn [mbind option_bind].
  destruct (all_zero mask_proc); [done|].
  destruct (label8 mask_proc) as [clusters num].
  destruct (remove_border_tracks clusters) as [clusters'|]; [|done].
  cbn [mbind option_bind].
  destruct (all_zero clusters'); [done|].
  cbn [mbind option_bind]. apply track_frame_lifecycle.
Qed.

Lemma process_frame_same_length st mask :
  same_length st →
  is_Some (frame_regions opt mask) →
  ∃ st', process_frame opt st mask = Some st' ∧ same_length st'.
Proof.
  intros Hsame [fr Hfr]. rewrite process_frame_regions, Hfr.
  cbn [mbind option_bind]. destruct fr as [rs|].
  - by apply lifecycle_same_length.
  - by exists st.
Qed.

Lemma run_same_length masks : ∀ st,
  same_length st →
  Forall (λ mask, is_Some (frame_regions opt mask)) masks →
  ∃ st', run opt st masks = Some st' ∧ same_length st'.
Proof.
  unfold run. induction masks as [|mask masks IH]; intros st Hsame Hall.
  - by exists st.
  - inversion Hall as [|? ? Hmask Hrest]; subst. cbn [for_each].
    destruct (process_frame_same_length st mask Hsame Hmask)
      as (st1 & -> & Hsame1).
    cbn [mbind option_bind]. by apply IH.
Qed.

Lemma run_Some_regions masks : ∀ st st',
  run opt st masks = Some st' →
  Forall (λ mask, is_Some (frame_regions opt mask)) masks.
Proof.
  unfold run. induction masks as [|mask masks IH]; intros st st' Hrun.
  - constructor.
  - cbn [for_each] in Hrun. rewrite process_frame_regions in Hrun.
    destruct (frame_regions opt mask) as [fr|] eqn:Hfr; [|done].
    cbn [mbind option_bind] in Hrun.
    constructor; [by eexists|].
    destruct (match fr with Some rs => lifecycle opt st rs | None => Some st end)
      as [st1|]; [|done].
    by eapply IH.
Qed.

(** C6. From a state whose five buffers have one length, the association
    of a region, the finalization, and the whole tracking of a frame
    return (no index is out of range) and leave five buffers of one length
    again: a created track is appended to all five, a finalized track is
    deleted from all five. So does the frame loop over any frames on which
    the two filters do not raise. *)
Theorem buffers_keep_one_length (st : State) :
  same_length st →
  (∀ r, ∃ st', associate_region opt st r = Some st' ∧ same_length st' ∧
     length (mean_buffer st') =
       length (mean_buffer st) +
       (if existsb (λ t, near opt (r_mean r) (t_mean t)) (tracks st)
        then 0 else 1)) ∧
  (∃ st', finalize opt st = Some st' ∧ same_length st' ∧
     length (mean_buffer st') =
       length (filter (λ s, s = true) (seen st))) ∧
  (∀ clusters num,
     ∃ st', track_frame opt st clusters num = Some st' ∧ same_length st') ∧
  (∀ masks,
     Forall (λ mask, is_Some (frame_regions opt mask)) masks →
     ∃ st', run opt st masks = Some st' ∧ same_length st').
Proof.
  intros Hsame. split; [|split; [|split]].
  - intros r. view_tracks st Hsame. rewrite associate_view.
    eexists; split; [done|]. split; [apply same_length_with_tracks|].
    cbn [mean_buffer with_tracks].
    rewrite !length_fmap, length_app, length_fmap.
    by destruct (existsb _ ts).
  - view_tracks st Hsame. rewrite finalize_view.
    eexists; split; [done|]. split; [apply same_length_with_tracks|].
    cbn [mean_buffer seen with_tracks]. rewrite length_fmap.
    induction ts as [|t ts IH]; [done|].
    cbn [fmap list_fmap]. rewrite !filter_cons.
    destruct (t_seen t).
    + rewrite !(decide_True (P := true = true)) by done. cbn. by rewrite IH.
    + by rewrite !(decide_False (P := false = true)) by done.
  - intros clusters num. rewrite track_frame_lifecycle.
    by apply lifecycle_same_length.
  - intros masks. by apply run_same_length.
Qed.

(** C4. A frame that is all background after [denoise], or after
    [remove_border_tracks], leaves the whole state as it was, the five
    buffers and the three output lists alike; so does any run of such
    frames. *)
Theorem skipped_frames_change_nothing (st : State) (masks : list image) :
  Forall (λ mask, skipped opt mask = true) masks →
  run opt st masks = Some st.
Proof.
  unfold run. induction 1 as [|mask masks Hskip _ IH]; [done|].
  cbn [for_each].
  assert (process_frame opt st mask = Some st) as ->; [|exact IH].
  unfold skipped in Hskip. unfold process_frame.
  destruct (denoise mask (denoise_thresh opt)) as [mask_proc|]; [|done].
  cbn [mbind option_bind].
  destruct (all_zero mask_proc); [done|]. cbn [orb] in Hskip.
  destruct (label8 mask_proc) as [clusters num]. cbn [fst] in Hskip.
  destruct (remove_border_tracks clusters) as [clusters'|]; [|done].
  cbn [mbind option_bind]. by rewrite Hskip.
Qed.

End FrameTheorems.

Section RemovalOrder.
Context `{Scipy}.
Variable opt : Options.

Lemma where_from_ascending {A} (cond : A → bool) l : ∀ k,
  StronglySorted lt (where_from cond k l) ∧
  Forall (λ i, k ≤ i) (where_from cond k l).
Proof.
  induction l as [|x l IH]; intros k; cbn [where_from].
  - split; constructor.
  - destruct (IH (S k)) as [Hsorted Hge].
    assert (Forall (λ i, k < i) (where_from cond (S k) l)) as Hgt.
    { eapply Forall_impl; [exact Hge|]. cbn. lia. }
    destruct (cond x); cbn [app].
    + split; constructor; try done.
      eapply Forall_impl; [exact Hgt|]. cbn. lia.
    + split; [done|]. eapply Forall_impl; [exact Hgt|]. cbn. lia.
Qed.

Lemma descending_reverse l : StronglySorted lt l → descending (reverse l).
Proof.
  unfold descending. induction 1 as [|i l Hsorted IH Hall].
  - constructor.
  - rewrite reverse_cons. apply StronglySorted_app_2; [|done|].
    + intros j i' Hj Hi'. apply list_elem_of_singleton in Hi' as ->.
      rewrite elem_of_reverse in Hj.
      rewrite Forall_forall in Hall. by apply Hall.
    + repeat constructor.
Qed.

Lemma survivors_lookup (ts : list Track) (i : nat) (t : Track) :
  ts !! i = Some t → t_seen t = true →
  survivors ts !! position_after ts i = Some t.
Proof.
  intros Ht Hseen. unfold position_after, survivors.
  transitivity
    (filter (λ t, t_seen t = true) (take i ts ++ t :: drop (S i) ts)
       !! length (filter (λ t, t_seen t = true) (take i ts))).
  { by rewrite take_drop_middle. }
  rewrite filter_app, filter_cons_True by done.
  by apply list_lookup_middle.
Qed.

Lemma length_survivors (l : list Track) :
  length (survivors l) =
  length l - length (filter (λ t, t_seen t = false) l).
Proof.
  unfold survivors. induction l as [|x l IH]; [done|].
  rewrite !filter_cons. destruct (t_seen x).
  - rewrite (decide_True (P := true = true)) by done.
    rewrite (decide_False (P := true = false)) by done.
    cbn [length]. rewrite IH.
    pose proof (length_filter (λ t, t_seen t = false) l). lia.
  - rewrite (decide_False (P := false = true)) by done.
    rewrite (decide_True (P := false = false)) by done.
    cbn [length]. rewrite IH. lia.
Qed.

(** C7. The unseen indices are visited from the greatest to the least, and
    a track that stays keeps its centroid, length, area and frame count:
    it is found unchanged at its old index less the number of unseen tracks
    that stood before it. *)
Theorem removal_keeps_survivors (st : State) (i : nat) (t : Track) :
  same_length st →
  tracks st !! i = Some t →
  t_seen t = true →
  descending (reverse (np_where negb (seen st))) ∧
  ∃ st', finalize opt st = Some st' ∧
    tracks st' !! position_after (tracks st) i = Some t ∧
    position_after (tracks st) i =
      i - length (filter (λ t, t_seen t = false) (take i (tracks st))).
Proof.
  intros Hsame Ht Hseen. split.
  { apply descending_reverse. apply where_from_ascending. }
  revert Ht. view_tracks st Hsame. intros Ht.
  rewrite finalize_view. eexists; split; [done|].
  rewrite tracks_with_tracks. split; [by apply survivors_lookup|].
  unfold position_after. rewrite length_survivors.
  rewrite length_take. pose proof (lookup_lt_Some _ _ _ Ht). f_equal. lia.
Qed.

End RemovalOrder.

Section FollowingFacts.
Context `{Scipy}.
Variable opt : Options.

Lemma lifecycle_first la aa fa r :
  lifecycle opt (with_tracks la aa fa []) [r] =
  Some (with_tracks la aa fa [created r]).
Proof.
  rewrite lifecycle_view. cbn. by rewrite !app_nil_r.
Qed.

Lemma lifecycle_follow la aa fa t r :
  near opt (r_mean r) (t_mean t) = true →
  lifecycle opt (with_tracks la aa fa [t]) [r] =
  Some (with_tracks la aa fa [matched r t]).
Proof.
  intros Hnear. rewrite lifecycle_view.
  unfold scanned, associate_tracks, update, finalized, survivors.
  cbn [fmap list_fmap foldl existsb unsee t_mean]. rewrite Hnear.
  cbn [orb app]. rewrite !filter_cons, filter_nil.
  cbn [matched t_seen negb andb].
  rewrite (decide_False (P := false = true)) by done.
  rewrite (decide_True (P := true = true)) by done.
  cbn. by rewrite !app_nil_r.
Qed.

Lemma lifecycle_lost la aa fa t r :
  near opt (r_mean r) (t_mean t) = false →
  lifecycle opt (with_tracks la aa fa [t]) [r] =
  Some (with_tracks (la ++ (length_cm opt <$> record_if opt t))
          (aa ++ (area_cm2 opt <$> record_if opt t))
          (fa ++ (t_frames <$> record_if opt t)) [created r]).
Proof.
  intros Hnear. rewrite lifecycle_view.
  unfold scanned, associate_tracks, update, finalized, survivors, record_if.
  cbn [fmap list_fmap foldl existsb unsee t_mean]. rewrite Hnear.
  cbn [orb app]. rewrite !filter_cons, filter_nil.
  cbn [created unsee t_seen negb andb].
  rewrite (decide_False (P := false = true)) by done.
  rewrite (decide_True (P := true = true)) by done.
  change (long_enough opt (unsee t)) with (long_enough opt t).
  destruct (long_enough opt t).
  - by rewrite (decide_False (P := false = true)),
      (decide_True (P := true = true)) by done.
  - by rewrite !(decide_False (P := false = true)) by done.
Qed.

Lemma lifecycles_follow la aa fa rs : ∀ t,
  chain opt (t_mean t) rs = true →
  lifecycles opt (with_tracks la aa fa [t]) ((λ r, [r]) <$> rs) =
  Some (with_tracks la aa fa [followed t rs]).
Proof.
  unfold lifecycles. induction rs as [|r rs IH]; intros t Hchain; [done|].
  cbn [chain] in Hchain. apply andb_true_iff in Hchain as [Hnear Hchain].
  cbn [fmap list_fmap for_each]. rewrite lifecycle_follow by done.
  cbn [mbind option_bind]. by apply IH.
Qed.

Lemma followed_fields rs : ∀ t,
  t_mean (followed t rs) = last_mean (t_mean t) rs ∧
  t_len (followed t rs) = foldl max_float (t_len t) (r_length <$> rs) ∧
  t_area (followed t rs) = foldl max_int (t_area t) (r_area <$> rs) ∧
  t_frames (followed t rs) = (t_frames t + Z.of_nat (length rs))%Z.
Proof.
  induction rs as [|r rs IH]; intros t.
  - cbn. repeat split; lia.
  - destruct (IH (matched r t)) as (Hm & Hl & Ha & Hf).
    cbn [followed foldl fmap list_fmap length] in *. fold (followed (matched r t) rs).
    rewrite Hm, Hl, Ha, Hf. cbn [matched t_mean t_len t_area t_frames].
    repeat split. lia.
Qed.

Lemma followed_seen rs : ∀ t,
  t_seen t = true → t_seen (followed t rs) = true.
Proof.
  induction rs as [|r rs IH]; intros t Ht; [done|]. by apply IH.
Qed.

End FollowingFacts.

Section RecordTheorems.
Context `{Scipy}.
Variable opt : Options.

Lemma frames_first_enough (n : nat) :
  (framebuff opt < 1 + Z.of_nat n)%Z →
  ∀ t, t_frames t = (1 + Z.of_nat n)%Z → record_if opt t = [t].
Proof.
  intros Hlt t Ht. unfold record_if, long_enough.
  rewrite Ht. by apply Z.ltb_lt in Hlt as ->.
Qed.

Lemma run_single_regions masks : ∀ rs st,
  Forall2 (λ mask r, frame_regions opt mask = Some (Some [r])) masks rs →
  run opt st masks = lifecycles opt st ((λ r, [r]) <$> rs).
Proof.
  unfold run, lifecycles.
  induction masks as [|mask masks IH]; intros rs st Hall;
    inversion Hall as [|? r ? rs' Hmask Hrest]; subst; [done|].
  cbn [fmap list_fmap for_each]. rewrite process_frame_regions, Hmask.
  cbn [mbind option_bind].
  destruct (lifecycle opt st [r]); [|done].
  cbn [mbind option_bind]. by apply IH.
Qed.

(** A region seen in every frame of the video, from the first to the last,
    leaves a track that counts all the frames and an empty output, whatever
    [framebuff] is. *)
Lemma persistent_track_leaves_no_record (masks : list image) (r1 : Region)
    (rs : list Region) :
  Forall2 (λ mask r, frame_regions opt mask = Some (Some [r]))
    masks (r1 :: rs) →
  chain opt (r_mean r1) rs = true →
  program opt masks = Some [] ∧
  ∃ st, run opt init masks = Some st ∧
    frame_buffer st = [(1 + Z.of_nat (length rs))%Z] ∧
    seen st = [true].
Proof.
  intros Hall Hchain. unfold program.
  rewrite (run_single_regions masks (r1 :: rs)) by done.
  unfold lifecycles. cbn [fmap list_fmap for_each].
  change init with (with_tracks [] [] [] []).
  rewrite lifecycle_first. cbn [mbind option_bind].
  pose proof (lifecycles_follow opt [] [] [] rs (created r1) Hchain) as Hrun.
  unfold lifecycles in Hrun. rewrite Hrun.
  split; [done|]. eexists; split; [done|].
  destruct (followed_fields rs (created r1)) as (Hm & Hl & Ha & Hf).
  cbn [frame_buffer seen with_tracks fmap list_fmap]. rewrite Hf.
  split; [done|]. f_equal.
  by apply followed_seen.
Qed.

Lemma finalized_unseen {A} (f : Track → A) ts :
  (∀ t, f (unsee t) = f t) →
  f <$> finalized opt (unsee <$> ts) =
  f <$> reverse (filter (λ t, long_enough opt t = true) ts).
Proof.
  intros Hf. unfold finalized. rewrite !fmap_reverse. f_equal.
  induction ts as [|t ts IH]; [done|].
  cbn [fmap list_fmap]. rewrite !filter_cons.
  cbn [unsee t_seen negb andb].
  change (long_enough opt (unsee t)) with (long_enough opt t).
  destruct (long_enough opt t).
  - rewrite !(decide_True (P := true = true)) by done.
    cbn [fmap list_fmap]. rewrite Hf. f_equal. apply IH.
  - rewrite !(decide_False (P := false = true)) by done. apply IH.
Qed.

End RecordTheorems.

Section ArrayFacts.

Lemma pixel_fmap {A B} (f : A → B) (a : list (list A)) r c :
  pixel (fmap (M := list) f <$> a) r c = f <$> pixel a r c.
Proof.
  unfold pixel. rewrite list_lookup_fmap.
  destruct (a !! r) as [row|]; cbn; [apply list_lookup_fmap | done].
Qed.

Lemma shape_fmap {A B} (f : A → B) (a : list (list A)) :
  shape (fmap (M := list) f <$> a) = shape a.
Proof.
  unfold shape. rewrite <- list_fmap_compose.
  apply list_fmap_ext. intros ? row _. cbn. apply length_fmap.
Qed.

Lemma pixel_clear_value a v r c :
  pixel (clear_value a v) r c =
  (λ x, if decide (x = v) then 0 else x) <$> pixel a r c.
Proof. apply pixel_fmap. Qed.

Lemma pixel_clear_values vals : ∀ a r c,
  pixel (foldl clear_value a vals) r c =
  (λ x, if decide (x ∈ vals) then 0 else x) <$> pixel a r c.
Proof.
  induction vals as [|v vals IH]; intros a r c; cbn [foldl].
  - destruct (pixel a r c) as [x|]; cbn; [|done].
    by rewrite decide_False by apply not_elem_of_nil.
  - rewrite IH, pixel_clear_value.
    destruct (pixel a r c) as [x|]; cbn; [|done]. f_equal.
    destruct (decide (x = v)) as [->|Hne].
    + rewrite (decide_True (P := v ∈ v :: vals)) by left.
      by destruct (decide (0 ∈ vals)).
    + destruct (decide (x ∈ vals)) as [Hin|Hout].
      * by rewrite decide_True by by right.
      * rewrite decide_False; [done|].
        intros [?|?]%elem_of_cons; done.
Qed.

Lemma shape_clear_values vals : ∀ a,
  shape (foldl clear_value a vals) = shape a.
Proof.
  induction vals as [|v vals IH]; intros a; [done|].
  cbn [foldl]. rewrite IH. apply shape_fmap.
Qed.

Lemma elem_of_mapM {A B} (f : A → option B) (l : list A) (k : list B) y :
  mapM f l = Some k →
  y ∈ k ↔ ∃ i x, l !! i = Some x ∧ f x = Some y.
Proof.
  intros Hk%mapM_Some_1. split.
  - intros (i & Hi)%list_elem_of_lookup.
    destruct (Forall2_lookup_r _ _ _ _ _ Hk Hi) as (x & Hx & Hf).
    by exists i, x.
  - intros (i & x & Hx & Hf).
    destruct (Forall2_lookup_l _ _ _ _ _ Hk Hx) as (y' & Hy & Hf').
    apply list_elem_of_lookup. exists i. congruence.
Qed.

Lemma elem_of_inner {A} (row : list A) x :
  x ∈ inner row ↔ ∃ c, 0 < c ∧ S c < length row ∧ row !! c = Some x.
Proof.
  unfold inner. destruct row as [|a row]; cbn [tail].
  - split; [by intros ?%elem_of_nil | intros (c & _ & Hc & _); cbn in Hc; lia].
  - rewrite removelast_firstn_len, list_elem_of_lookup. split.
    + intros (i & Hi). exists (S i).
      pose proof (lookup_lt_Some _ _ _ Hi) as Hlt.
      rewrite length_take in Hlt.
      rewrite lookup_take_lt in Hi by lia. cbn. split; [lia|].
      split; [lia|done].
    + intros (c & Hpos & Hlt & Hc). destruct c as [|i]; [lia|].
      cbn in Hlt, Hc. exists i. rewrite lookup_take_lt by lia. done.
Qed.

Lemma elem_of_nonzero v x : x ∈ nonzero v ↔ x ≠ 0 ∧ x ∈ v.
Proof. unfold nonzero. by rewrite list_elem_of_filter. Qed.

End ArrayFacts.

Section BorderTheorem.

Lemma pixel_Some {A} (a : list (list A)) r c v :
  pixel a r c = Some v ↔ ∃ row, a !! r = Some row ∧ row !! c = Some v.
Proof. unfold pixel. by rewrite bind_Some. Qed.

(** The values the four loops of lines 63-70 clear: the non-zero values of
    the border. *)
Lemma border_values w img :
  rect w img →
  ∃ vals, remove_border_tracks img = Some (foldl clear_value img vals) ∧
    ∀ v, v ∈ vals ↔ v ≠ 0 ∧ touches_border w img v.
Proof.
  intros (Hne & Hw & Hrows).
  assert (∀ r row, img !! r = Some row → length row = w) as Hlen.
  { intros r row Hr. by eapply (Forall_lookup_1 _ _ _ _ Hrows). }
  assert (is_Some (mapM (λ row : list nat, row !! 0) img)) as [col0 Hcol0].
  { apply mapM_is_Some_2. eapply Forall_impl; [exact Hrows|].
    intros row Hrow. cbn in *. apply lookup_lt_is_Some. lia. }
  assert (is_Some (mapM (λ row : list nat, last row) img)) as [colw Hcolw].
  { apply mapM_is_Some_2. eapply Forall_impl; [exact Hrows|].
    intros row Hrow. cbn in *. rewrite last_lookup.
    apply lookup_lt_is_Some. lia. }
  assert (is_Some (head img)) as [top Htop].
  { rewrite head_lookup. apply lookup_lt_is_Some.
    destruct img; [done|cbn; lia]. }
  assert (is_Some (last img)) as [bottom Hbottom].
  { by apply last_is_Some. }
  exists (nonzero col0 ++ nonzero colw ++ nonzero (inner top)
          ++ nonzero (inner bottom)).
  split.
  { unfold remove_border_tracks. rewrite Hcol0, Hcolw, Htop, Hbottom.
    cbn. by rewrite !foldl_app. }
  rewrite head_lookup in Htop. rewrite last_lookup in Hbottom.
  intros v. rewrite !elem_of_app, !elem_of_nonzero, !elem_of_inner.
  rewrite (elem_of_mapM _ _ _ _ Hcol0), (elem_of_mapM _ _ _ _ Hcolw).
  unfold touches_border. split.
  - intros [[Hv (r & row & Hr & Hc)]|[[Hv (r & row & Hr & Hc)]|
            [[Hv (c & Hpos & Hlt & Hc)]|[Hv (c & Hpos & Hlt & Hc)]]]];
      (split; [done|]).
    + exists r, 0. rewrite pixel_Some. split; [by exists row | tauto].
    + exists r, (w - 1). rewrite pixel_Some. split; [|tauto].
      exists row. split; [done|]. rewrite last_lookup in Hc.
      rewrite (Hlen _ _ Hr) in Hc. by replace (w - 1) with (pred w) by lia.
    + exists 0, c. rewrite pixel_Some. split; [by exists top | tauto].
    + exists (length img - 1), c. rewrite pixel_Some. split; [|tauto].
      exists bottom. split; [|done].
      by replace (length img - 1) with (pred (length img)) by lia.
  - intros (Hv & r & c & (row & Hr & Hc)%pixel_Some & Hborder).
    pose proof (Hlen _ _ Hr) as Hrow.
    pose proof (lookup_lt_Some _ _ _ Hc) as Hcw.
    destruct (decide (c = 0)) as [->|Hc0].
    { left. split; [done|]. by exists r, row. }
    destruct (decide (c = w - 1)) as [->|Hcw1].
    { right; left. split; [done|]. exists r, row. split; [done|].
      rewrite last_lookup, Hrow. by replace (pred w) with (w - 1) by lia. }
    right; right.
    destruct Hborder as [->|[->|[?|?]]]; try done.
    + left. split; [done|]. exists c.
      assert (row = top) as -> by congruence.
      split; [lia|]. split; [lia|done].
    + right. split; [done|]. exists c.
      replace (length img - 1) with (pred (length img)) in Hr by lia.
      assert (row = bottom) as -> by congruence.
      split; [lia|]. split; [lia|done].
Qed.

(** C8. On an array with at least one row and one column,
    [remove_border_tracks] returns an array of the same shape in which every
    pixel of a value found in the first or last row or column is 0, wherever
    the pixel lies, and every pixel of a value not found there is as it
    was. *)
Theorem border_regions_removed (w : nat) (img : image) :
  rect w img →
  ∃ out, remove_border_tracks img = Some out ∧
    shape out = shape img ∧
    ∀ r c v, pixel img r c = Some v →
      (touches_border w img v → pixel out r c = Some 0) ∧
      (¬ touches_border w img v → pixel out r c = Some v).
Proof.
  intros Hrect. destruct (border_values w img Hrect) as (vals & -> & Hvals).
  eexists; split; [done|]. split; [apply shape_clear_values|].
  intros r c v Hv. rewrite pixel_clear_values, Hv. cbn.
  split; intros Hborder.
  - destruct (decide (v ∈ vals)) as [_|Hout]; [done|].
    destruct (decide (v = 0)) as [->|Hnz]; [done|].
    destruct Hout. by apply Hvals.
  - rewrite decide_False; [done|]. intros Hin%Hvals. tauto.
Qed.

End BorderTheorem.

Section DenoiseTheorem.
Context `{Scipy}.

Lemma fmap_ravel {A B} (f : A → B) (a : list (list A)) :
  f <$> ravel a = ravel (fmap (M := list) f <$> a).
Proof.
  unfold ravel. induction a as [|row a IH]; [done|].
  cbn [concat fmap list_fmap]. rewrite fmap_app. f_equal. apply IH.
Qed.

Lemma reshape_ravel {A} (rows : list (list A)) :
  reshape (shape rows) (ravel rows) = Some rows.
Proof.
  unfold ravel, shape. induction rows as [|row rows IH]; [done|].
  cbn [fmap list_fmap concat reshape].
  rewrite decide_True by (rewrite length_app; lia).
  rewrite drop_app_length, take_app_length.
  fold (fmap (M := list) (@length A) rows). by rewrite IH.
Qed.

Lemma pixel_elem_of_ravel {A} (a : list (list A)) r c v :
  pixel a r c = Some v → v ∈ ravel a.
Proof.
  unfold ravel. revert r. induction a as [|row a IH]; intros r.
  - by rewrite pixel_Some; intros (? & ? & ?).
  - rewrite pixel_Some. intros (row' & Hr & Hc). cbn [concat].
    apply elem_of_app. destruct r as [|r]; cbn in Hr.
    + left. apply list_elem_of_lookup. exists c. congruence.
    + right. apply (IH r). rewrite pixel_Some. by exists row'.
Qed.

Lemma elem_of_where_from {A} (cond : A → bool) l : ∀ k i,
  i ∈ where_from cond k l ↔
  k ≤ i ∧ ∃ x, l !! (i - k) = Some x ∧ cond x = true.
Proof.
  induction l as [|x l IH]; intros k i; cbn [where_from].
  - split; [by intros ?%elem_of_nil | by intros (_ & ? & ? & _)].
  - rewrite elem_of_app, IH. split.
    + intros [Hhead|(Hle & y & Hy & Hc)].
      * destruct (cond x) eqn:Hx; [|by apply elem_of_nil in Hhead].
        apply list_elem_of_singleton in Hhead as ->. split; [done|].
        exists x. by rewrite Nat.sub_diag.
      * split; [lia|]. exists y. split; [|done].
        by replace (i - k) with (S (i - S k)) by lia.
    + intros (Hle & y & Hy & Hc).
      destruct (decide (i = k)) as [->|Hne].
      * left. rewrite Nat.sub_diag in Hy. injection Hy as ->.
        rewrite Hc. by left.
      * right. split; [lia|]. exists y. split; [|done].
        by replace (i - k) with (S (i - S k)) in Hy by lia.
Qed.

Lemma pixel_clear_masked (a : list (list nat)) m r c :
  pixel (clear_masked a m) r c =
  x ← pixel a r c; b ← pixel m r c; Some (if b : bool then 0 else x).
Proof.
  unfold pixel, clear_masked. rewrite lookup_zip_with.
  destruct (a !! r) as [row|]; cbn; [|done].
  destruct (m !! r) as [mrow|]; cbn.
  - by rewrite lookup_zip_with.
  - by destruct (row !! c).
Qed.

Lemma shape_clear_masked a : ∀ m,
  shape m = shape a → shape (clear_masked a m) = shape a.
Proof.
  unfold shape, clear_masked. induction a as [|row a IH]; intros [|mrow m];
    cbn; try done.
  intros [= Hrow Hrest]. f_equal; [|by apply IH].
  rewrite length_zip_with. lia.
Qed.

Lemma pixel_same_shape {A B} (a : list (list A)) : ∀ (b : list (list B)) r c,
  shape b = shape a → is_Some (pixel a r c) → is_Some (pixel b r c).
Proof.
  unfold shape, pixel. induction a as [|row a IH]; intros [|brow b] r c;
    cbn; try done.
  - by intros _ [? ?].
  - intros [= Hrow Hrest]. destruct r as [|r]; cbn.
    + intros [x Hx]. apply lookup_lt_is_Some. rewrite Hrow.
      by eapply lookup_lt_Some.
    + by apply IH.
Qed.

(** C9. When [label] returns an array of the shape of the image, [denoise]
    returns an array of that shape in which a pixel is 0 when its component
    has at most [nthresh] pixels and is as it was when its component has
    more. The components are the ones [label] finds. *)
Theorem denoise_clears_small_components (img : image) (nthresh : Z) :
  shape (label img).1 = shape img →
  ∃ out, denoise img nthresh = Some out ∧
    shape out = shape img ∧
    ∀ r c v, pixel img r c = Some v →
      ∃ l, pixel (label img).1 r c = Some l ∧
        ((Z.of_nat (pixel_count (label img).1 l) ≤ nthresh)%Z →
           pixel out r c = Some 0) ∧
        ((nthresh < Z.of_nat (pixel_count (label img).1 l))%Z →
           pixel out r c = Some v).
Proof.
  intros Hshape. unfold denoise.
  destruct (label img) as [labeled_array num_features]. cbn [fst] in *.
  unfold in1d. rewrite fmap_ravel.
  set (noisy := λ x, bool_decide
         (x ∈ np_where (λ c, (Z.of_nat c <=? nthresh)%Z)
                (bincount (ravel labeled_array)))).
  assert (reshape (shape img) (ravel (fmap (M := list) noisy <$> labeled_array))
          = Some (fmap (M := list) noisy <$> labeled_array)) as ->.
  { rewrite <- Hshape, <- (shape_fmap noisy). apply reshape_ravel. }
  cbn [mbind option_bind].
  eexists; split; [done|]. split.
  { apply shape_clear_masked. by rewrite shape_fmap. }
  intros r c v Hv.
  destruct (pixel_same_shape img labeled_array r c Hshape) as [l Hl];
    [by eexists|].
  exists l. split; [done|].
  rewrite pixel_clear_masked, Hv, pixel_fmap, Hl. cbn. unfold noisy.
  pose proof (bincount_lookup _ _ (pixel_elem_of_ravel _ _ _ _ Hl)) as Hbin.
  unfold pixel_count. split; intros Hcount.
  - rewrite bool_decide_eq_true_2; [done|].
    apply elem_of_where_from. split; [lia|].
    rewrite Nat.sub_0_r. eexists; split; [exact Hbin|]. by apply Z.leb_le.
  - rewrite bool_decide_eq_false_2; [done|].
    intros (_ & n & Hn & Hc)%elem_of_where_from.
    rewrite Nat.sub_0_r, Hbin in Hn. injection Hn as <-.
    apply Z.leb_le in Hc. lia.
Qed.

End DenoiseTheorem.

(** * Further properties of the filters *)

Section BorderFacts.

Lemma all_zero_pixels (a : image) :
  all_zero a = true ↔ ∀ r c v, pixel a r c = Some v → v = 0.
Proof.
  unfold all_zero. rewrite forallb_forall. split.
  - intros Hall r c v (row & Hr & Hc)%pixel_Some.
    assert (forallb (Nat.eqb 0) row = true) as Hrow.
    { apply Hall. apply list_elem_of_In, list_elem_of_lookup. by exists r. }
    rewrite forallb_forall in Hrow.
    symmetry. apply Nat.eqb_eq, Hrow.
    apply list_elem_of_In, list_elem_of_lookup. by exists c.
  - intros Hpix row (r & Hr)%list_elem_of_In%list_elem_of_lookup.
    apply forallb_forall.
    intros v (c & Hc)%list_elem_of_In%list_elem_of_lookup.
    apply Nat.eqb_eq. symmetry. apply (Hpix r c).
    apply pixel_Some. by exists row.
Qed.

Lemma shape_length {A B} (a : list (list A)) (b : list (list B)) :
  shape a = shape b → length a = length b.
Proof.
  unfold shape. intros Hs.
  by rewrite <- (length_fmap length a), Hs, length_fmap.
Qed.

Lemma shape_rows {A B} (a : list (list A)) (b : list (list B)) w :
  shape a = shape b →
  Forall (λ row, length row = w) b → Forall (λ row, length row = w) a.
Proof.
  unfold shape. revert b.
  induction a as [|row a IH]; intros [|rowb b]; try done.
  cbn [fmap list_fmap]. intros [= Hrow Hrest] Hb.
  inversion Hb as [|? ? Hlen Hb']; subst.
  constructor; [congruence|]. by eapply IH.
Qed.

Lemma rect_shape (a b : image) w :
  shape a = shape b → rect w b → rect w a.
Proof.
  intros Hs (Hne & Hw & Hrows). split; [|split; [done|]].
  - intros ->. by destruct b.
  - by eapply shape_rows.
Qed.

Lemma pixel_in_range (a : image) w r c v :
  uniform w a → pixel a r c = Some v → r < length a ∧ c < w.
Proof.
  intros Hu (row & Hr & Hc)%pixel_Some. split.
  - by eapply lookup_lt_Some.
  - rewrite <- (Forall_lookup_1 _ _ _ _ Hu Hr). by eapply lookup_lt_Some.
Qed.

Lemma clear_no_values (a : image) vals :
  (∀ v, v ∈ vals → False) → foldl clear_value a vals = a.
Proof.
  intros Hnone. destruct vals as [|v vals]; [done|].
  destruct (Hnone v). by left.
Qed.

(** After the filter no value is left on the border. *)
Lemma border_cleared w img out :
  rect w img → remove_border_tracks img = Some out →
  ∀ v, touches_border w out v → v = 0.
Proof.
  intros Hrect Hout.
  destruct (border_values w img Hrect) as (vals & Hrm & Hvals).
  rewrite Hrm in Hout. injection Hout as <-.
  intros v (r & c & Hv & Hborder).
  assert (length (foldl clear_value img vals) = length img) as Hlen.
  { apply shape_length, shape_clear_values. }
  rewrite Hlen in Hborder.
  rewrite pixel_clear_values in Hv.
  destruct (pixel img r c) as [x|] eqn:Hx; [|done].
  cbn in Hv. injection Hv as <-.
  destruct (decide (x ∈ vals)) as [_|Hout]; [done|].
  destruct (decide (x = 0)) as [->|Hnz]; [done|].
  destruct Hout. apply Hvals. split; [done|]. by exists r, c.
Qed.

Lemma remove_border_noop w img :
  rect w img → (∀ v, touches_border w img v → v = 0) →
  remove_border_tracks img = Some img.
Proof.
  intros Hrect Hclean.
  destruct (border_values w img Hrect) as (vals & -> & Hvals).
  f_equal. apply clear_no_values.
  intros v (Hnz & Hborder)%Hvals. by apply Hnz, Hclean.
Qed.

End BorderFacts.

Section BorderExtras.

(** X1. On an array whose rows have one length, [remove_border_tracks]
    raises exactly when the array has no row or no column. *)
Theorem remove_border_raises_iff_empty (w : nat) (img : image) :
  uniform w img →
  remove_border_tracks img = None ↔ img = [] ∨ w = 0.
Proof.
  intros Hu. split.
  - intros Hnone. destruct img as [|row img]; [by left|]. right.
    destruct (decide (w = 0)) as [|Hw]; [done|].
    destruct (border_values w (row :: img)) as (vals & Hsome & _).
    + split; [done|]. split; [lia|done].
    + congruence.
  - intros [->| ->]; [done|].
    destruct img as [|row img]; [done|].
    inversion Hu as [|? ? Hrow _]; subst.
    destruct row; [done|]. done.
Qed.

(** X2. In the array [remove_border_tracks] returns, every pixel of the
    first and last row and of the first and last column is 0. *)
Theorem remove_border_leaves_zero_border (w : nat) (img : image) :
  rect w img →
  ∃ out, remove_border_tracks img = Some out ∧
    ∀ r c v, pixel out r c = Some v →
      at_border (length img) w r c → v = 0.
Proof.
  intros Hrect.
  destruct (border_values w img Hrect) as (vals & Hrm & Hvals).
  eexists; split; [exact Hrm|]. intros r c v Hv Hborder.
  apply (border_cleared w img _ Hrect Hrm). exists r, c. split; [done|].
  replace (length (foldl clear_value img vals)) with (length img); [done|].
  symmetry. apply shape_length, shape_clear_values.
Qed.

(** X3. [remove_border_tracks] is idempotent: filtering its result again
    returns that result. *)
Theorem remove_border_idempotent (w : nat) (img out : image) :
  rect w img →
  remove_border_tracks img = Some out →
  remove_border_tracks out = Some out.
Proof.
  intros Hrect Hout.
  assert (shape out = shape img) as Hshape.
  { destruct (border_values w img Hrect) as (vals & Hrm & _).
    rewrite Hrm in Hout. injection Hout as <-. apply shape_clear_values. }
  apply (remove_border_noop w); [by eapply rect_shape|].
  by eapply border_cleared.
Qed.

(** X4. When every pixel of the border is 0, [remove_border_tracks] returns
    the array as it is. *)
Theorem remove_border_keeps_inner_image (w : nat) (img : image) :
  rect w img →
  (∀ r c v, pixel img r c = Some v →
     at_border (length img) w r c → v = 0) →
  remove_border_tracks img = Some img.
Proof.
  intros Hrect Hclean. apply (remove_border_noop w); [done|].
  intros v (r & c & Hv & Hborder). by eapply Hclean.
Qed.

(** X5. An array with at most two rows, or at most two columns, has only
    border pixels: [remove_border_tracks] returns it all zero, and the frame
    is skipped. *)
Theorem thin_arrays_are_cleared (w : nat) (img : image) :
  rect w img →
  length img ≤ 2 ∨ w ≤ 2 →
  ∃ out, remove_border_tracks img = Some out ∧ all_zero out = true.
Proof.
  intros Hrect Hthin.
  destruct (border_values w img Hrect) as (vals & Hrm & Hvals).
  eexists; split; [exact Hrm|]. apply all_zero_pixels. intros r c v Hv.
  apply (border_cleared w img _ Hrect Hrm). exists r, c. split; [done|].
  assert (uniform w (foldl clear_value img vals)) as Hu.
  { eapply shape_rows; [apply shape_clear_values|]. apply Hrect. }
  destruct (pixel_in_range _ w r c v Hu Hv) as [Hr Hc].
  assert (length (foldl clear_value img vals) = length img) as Hlen.
  { apply shape_length, shape_clear_values. }
  destruct Hthin; lia.
Qed.

End BorderExtras.

Section DenoiseFacts.
Context `{Scipy}.

Lemma pixel_ext (a b : list (list nat)) :
  shape a = shape b → (∀ r c, pixel a r c = pixel b r c) → a = b.
Proof.
  intros Hshape Hpix. pose proof (shape_length a b Hshape) as Hlen.
  apply list_eq. intros r.
  destruct (a !! r) as [rowa|] eqn:Ha, (b !! r) as [rowb|] eqn:Hb.
  - f_equal. apply list_eq. intros c. specialize (Hpix r c).
    unfold pixel in Hpix. by rewrite Ha, Hb in Hpix.
  - apply lookup_lt_Some in Ha. apply lookup_ge_None in Hb. lia.
  - apply lookup_ge_None in Ha. apply lookup_lt_Some in Hb. lia.
  - done.
Qed.

Lemma pixel_shape_None {A B} (a : list (list A)) (b : list (list B)) r c :
  shape b = shape a → pixel a r c = None → pixel b r c = None.
Proof.
  intros Hshape Ha. destruct (pixel b r c) as [x|] eqn:Hb; [|done].
  destruct (pixel_same_shape b a r c) as [y Hy]; [done|by eexists|].
  congruence.
Qed.

Lemma length_ravel {A} (a : list (list A)) :
  length (ravel a) = sum_list (shape a).
Proof.
  unfold ravel, shape. induction a as [|row a IH]; [done|].
  cbn [concat fmap list_fmap sum_list sum_list_with].
  rewrite length_app. by rewrite IH.
Qed.

(** [denoise], pixel by pixel: the array of the shape of the image in which
    a pixel is cleared when its label is counted at most [nthresh] times. *)
Lemma denoise_pixels (img : image) (nthresh : Z) :
  shape (label img).1 = shape img →
  ∃ out, denoise img nthresh = Some out ∧
    shape out = shape img ∧
    ∀ r c v, pixel img r c = Some v →
      ∃ l, pixel (label img).1 r c = Some l ∧
        pixel out r c =
        Some (if (Z.of_nat (pixel_count (label img).1 l) <=? nthresh)%Z
              then 0 else v).
Proof.
  intros Hshape. unfold denoise.
  destruct (label img) as [labeled_array num_features]. cbn [fst] in *.
  unfold in1d. rewrite fmap_ravel.
  set (noisy := λ x, bool_decide
         (x ∈ np_where (λ c, (Z.of_nat c <=? nthresh)%Z)
                (bincount (ravel labeled_array)))).
  assert (reshape (shape img) (ravel (fmap (M := list) noisy <$> labeled_array))
          = Some (fmap (M := list) noisy <$> labeled_array)) as ->.
  { rewrite <- Hshape, <- (shape_fmap noisy). apply reshape_ravel. }
  cbn [mbind option_bind]. eexists; split; [done|]. split.
  { apply shape_clear_masked. by rewrite shape_fmap. }
  intros r c v Hv.
  destruct (pixel_same_shape img labeled_array r c Hshape) as [l Hl];
    [by eexists|].
  exists l. split; [done|].
  rewrite pixel_clear_masked, Hv, pixel_fmap, Hl. cbn. unfold noisy.
  pose proof (bincount_lookup _ _ (pixel_elem_of_ravel _ _ _ _ Hl)) as Hbin.
  unfold pixel_count.
  destruct (Z.of_nat (count_occ Nat.eq_dec (ravel labeled_array) l)
            <=? nthresh)%Z eqn:Hle.
  - rewrite bool_decide_eq_true_2; [done|].
    apply elem_of_where_from. split; [lia|].
    rewrite Nat.sub_0_r. by eexists.
  - rewrite bool_decide_eq_false_2; [done|].
    intros (_ & n & Hn & Hc)%elem_of_where_from.
    rewrite Nat.sub_0_r, Hbin in Hn. injection Hn as <-. congruence.
Qed.

End DenoiseFacts.

Section DenoiseExtras.
Context `{Scipy}.

(** X6. With a negative threshold [denoise] returns the image as it is: no
    component has fewer than zero pixels. *)
Theorem denoise_negative_threshold (img : image) (nthresh : Z) :
  shape (label img).1 = shape img →
  (nthresh < 0)%Z →
  denoise img nthresh = Some img.
Proof.
  intros Hshape Hneg.
  destruct (denoise_pixels img nthresh Hshape) as (out & -> & Hso & Hpix).
  f_equal. apply pixel_ext; [done|]. intros r c.
  destruct (pixel img r c) as [v|] eqn:Hv.
  - destruct (Hpix r c v Hv) as (l & _ & ->).
    destruct (Z.leb_spec (Z.of_nat (pixel_count (label img).1 l)) nthresh);
      [lia|done].
  - by apply (pixel_shape_None img).
Qed.

(** X7. With a threshold of at least the number of pixels of the image
    [denoise] clears everything, and the frame is skipped. *)
Theorem denoise_threshold_above_size (img : image) (nthresh : Z) :
  shape (label img).1 = shape img →
  (Z.of_nat (length (ravel img)) ≤ nthresh)%Z →
  ∃ out, denoise img nthresh = Some out ∧ all_zero out = true.
Proof.
  intros Hshape Hbig.
  destruct (denoise_pixels img nthresh Hshape) as (out & Hout & Hso & Hpix).
  exists out. split; [done|]. apply all_zero_pixels. intros r c v Hv.
  destruct (pixel_same_shape out img r c) as [x Hx]; [done|by eexists|].
  destruct (Hpix r c x Hx) as (l & _ & Hv').
  rewrite Hv in Hv'. injection Hv' as ->.
  assert (pixel_count (label img).1 l ≤ length (ravel img)) as Hcount.
  { unfold pixel_count. rewrite length_ravel, <- Hshape, <- length_ravel.
    apply count_occ_bound. }
  by destruct (Z.leb_spec (Z.of_nat (pixel_count (label img).1 l)) nthresh);
    [|lia].
Qed.

(** X8. [denoise] only clears: a pixel of the result is 0 or as it was; and
    a pixel that is cleared at one threshold is cleared at every greater
    one. *)
Theorem denoise_only_clears (img : image) (nthresh nthresh' : Z) :
  shape (label img).1 = shape img →
  (nthresh ≤ nthresh')%Z →
  ∃ out out', denoise img nthresh = Some out ∧
    denoise img nthresh' = Some out' ∧
    ∀ r c v, pixel img r c = Some v →
      (pixel out r c = Some 0 ∨ pixel out r c = Some v) ∧
      (pixel out r c = Some 0 → pixel out' r c = Some 0).
Proof.
  intros Hshape Hle.
  destruct (denoise_pixels img nthresh Hshape) as (out & Hout & _ & Hpix).
  destruct (denoise_pixels img nthresh' Hshape) as (out' & Hout' & _ & Hpix').
  exists out, out'. split; [done|]. split; [done|]. intros r c v Hv.
  destruct (Hpix r c v Hv) as (l & Hl & ->).
  destruct (Hpix' r c v Hv) as (l' & Hl' & ->).
  assert (l' = l) as -> by congruence.
  destruct (Z.leb_spec (Z.of_nat (pixel_count (label img).1 l)) nthresh),
    (Z.leb_spec (Z.of_nat (pixel_count (label img).1 l)) nthresh');
    try lia; split; auto.
Qed.

End DenoiseExtras.

(** * Further properties of the region statistics *)

Section RegionStatFacts.
Context `{Scipy}.

Lemma elem_of_concat {A} (ls : list (list A)) x :
  x ∈ concat ls ↔ ∃ l, l ∈ ls ∧ x ∈ l.
Proof.
  rewrite list_elem_of_In, in_concat. split.
  - intros (l & Hl & Hx). exists l. by rewrite !list_elem_of_In.
  - intros (l & Hl & Hx). exists l. by rewrite <- !list_elem_of_In.
Qed.

(** [np.where(clusters == lab)] lists the positions of value [lab]. *)
Lemma elem_of_where_label (clusters : list (list nat)) lab r c :
  (r, c) ∈ where_label clusters lab ↔ pixel clusters r c = Some lab.
Proof.
  unfold where_label. rewrite elem_of_concat, pixel_Some. split.
  - intros (l & (i & row & -> & Hrow)%elem_of_lookup_imap & Hin).
    apply list_elem_of_fmap in Hin as (c' & [= -> ->] & Hc).
    apply elem_of_where_from in Hc as (_ & x & Hx & ->%Nat.eqb_eq).
    rewrite Nat.sub_0_r in Hx. by exists row.
  - intros (row & Hrow & Hc). eexists. split.
    + apply elem_of_lookup_imap. by exists r, row.
    + apply list_elem_of_fmap. exists c. split; [done|].
      apply elem_of_where_from. split; [lia|]. exists lab.
      rewrite Nat.sub_0_r. split; [done|]. apply Nat.eqb_refl.
Qed.

Lemma length_where_from lab row : ∀ k,
  length (where_from (Nat.eqb lab) k row) = count_occ Nat.eq_dec row lab.
Proof.
  induction row as [|x row IH]; intros k; [done|].
  cbn [where_from count_occ]. rewrite length_app, IH.
  destruct (Nat.eq_dec x lab) as [->|Hne].
  - by rewrite Nat.eqb_refl.
  - destruct (Nat.eqb_spec lab x); [congruence|done].
Qed.

Lemma length_where_rows lab (clusters : list (list nat)) :
  ∀ F : nat → list nat → list (nat * nat),
  (∀ i row, length (F i row) = count_occ Nat.eq_dec row lab) →
  length (concat (imap F clusters)) = count_occ Nat.eq_dec (concat clusters) lab.
Proof.
  induction clusters as [|row clusters IH]; intros F HF; [done|].
  rewrite imap_cons. cbn [concat].
  rewrite length_app, count_occ_app, HF. f_equal.
  apply IH. intros i row'. apply HF.
Qed.

(** The count of [np.bincount] for a label is the number of positions
    [np.where] finds for it. *)
Lemma length_where_label clusters lab :
  length (where_label clusters lab) = pixel_count clusters lab.
Proof.
  unfold where_label, pixel_count, ravel. apply length_where_rows.
  intros i row. rewrite length_fmap. apply length_where_from.
Qed.

Lemma region_of_Some clusters lab r :
  region_of clusters lab = Some r →
  where_label clusters lab ≠ [] ∧
  r_mean r = (np_mean (where_label clusters lab).*2,
              np_mean (where_label clusters lab).*1) ∧
  r_area r = Z.of_nat (pixel_count clusters lab).
Proof.
  unfold region_of.
  destruct (where_label clusters lab) as [|p idxs] eqn:Hidx; [done|].
  cbn [head]. destruct (last (p :: idxs)); [|done].
  intros [= <-]. by repeat split.
Qed.

Lemma region_of_None clusters lab :
  region_of clusters lab = None ↔ where_label clusters lab = [].
Proof.
  unfold region_of. split.
  - destruct (where_label clusters lab) as [|p idxs] eqn:Hidx; [done|].
    cbn [head]. destruct (last_is_Some (p :: idxs)) as [_ [q ->]]; done.
  - by intros ->.
Qed.

Lemma np_mean_bounds (v : list nat) (b : nat) :
  v ≠ [] → Forall (λ x, x ≤ b) v →
  (0 <= np_mean v)%Q ∧ (np_mean v <= inject_Z (Z.of_nat b))%Q.
Proof.
  intros Hne Hall. unfold np_mean.
  assert (0 < inject_Z (Z.of_nat (length v)))%Q as Hpos.
  { change 0%Q with (inject_Z 0). rewrite <- Zlt_Qlt.
    destruct v; [done|cbn [length]; lia]. }
  assert (sum_list v ≤ b * length v) as Hsum.
  { clear Hne Hpos. induction Hall as [|x v Hx _ IH]; cbn; lia. }
  split.
  - apply Qle_shift_div_l; [done|]. rewrite Qmult_0_l.
    change 0%Q with (inject_Z 0). rewrite <- Zle_Qle. lia.
  - apply Qle_shift_div_r; [done|].
    rewrite <- inject_Z_mult, <- Zle_Qle. lia.
Qed.

End RegionStatFacts.

Section RegionExtras.
Context `{Scipy}.

(** X9. The area of a region is the number of pixels [np.where] finds for
    its label, and is at least 1: the count of [get_area] and the index
    lists of line 133 agree. *)
Theorem region_area_counts_pixels (clusters : image) (lab : nat) (r : Region) :
  region_of clusters lab = Some r →
  r_area r = Z.of_nat (length (where_label clusters lab)) ∧
  (1 ≤ r_area r)%Z.
Proof.
  intros (Hne & _ & ->)%region_of_Some. rewrite length_where_label.
  split; [done|]. rewrite <- length_where_label.
  destruct (where_label clusters lab); [done|cbn [length]; lia].
Qed.

(** X10. The centroid of a region lies in the image: its first coordinate
    between 0 and the last column, its second between 0 and the last
    row. *)
Theorem region_centroid_in_image (w : nat) (clusters : image) (lab : nat)
    (r : Region) :
  uniform w clusters →
  region_of clusters lab = Some r →
  (0 <= (r_mean r).1)%Q ∧
  ((r_mean r).1 <= inject_Z (Z.of_nat (w - 1)))%Q ∧
  (0 <= (r_mean r).2)%Q ∧
  ((r_mean r).2 <= inject_Z (Z.of_nat (length clusters - 1)))%Q.
Proof.
  intros Hu (Hne & -> & _)%region_of_Some. cbn [fst snd].
  assert (Forall (λ p, p.1 ≤ length clusters - 1 ∧ p.2 ≤ w - 1)
            (where_label clusters lab)) as Hin.
  { apply Forall_forall. intros [i j] Hij%elem_of_where_label.
    destruct (pixel_in_range clusters w i j lab Hu Hij). cbn. lia. }
  destruct (np_mean_bounds (where_label clusters lab).*2 (w - 1))
    as [? ?].
  { by destruct (where_label clusters lab). }
  { apply Forall_fmap. eapply Forall_impl; [exact Hin|]. by intros ? [? ?]. }
  destruct (np_mean_bounds (where_label clusters lab).*1
              (length clusters - 1)) as [? ?].
  { by destruct (where_label clusters lab). }
  { apply Forall_fmap. eapply Forall_impl; [exact Hin|]. by intros ? [? ?]. }
  done.
Qed.

End RegionExtras.

Section FilteredRegionFacts.
Context `{Scipy}.

Lemma clear_values_fmap (a : list (list nat)) vals :
  foldl clear_value a vals =
  fmap (M := list) (λ x, if decide (x ∈ vals) then 0 else x) <$> a.
Proof.
  apply pixel_ext.
  - by rewrite shape_clear_values, shape_fmap.
  - intros r c. by rewrite pixel_clear_values, pixel_fmap.
Qed.

Lemma where_from_fmap {A B} (cond : B → bool) (f : A → B) row : ∀ k,
  where_from cond k (f <$> row) = where_from (cond ∘ f) k row.
Proof.
  induction row as [|x row IH]; intros k; [done|].
  cbn [fmap list_fmap where_from]. f_equal. apply IH.
Qed.

Lemma where_from_ext {A} (cond cond' : A → bool) row : ∀ k,
  (∀ x, cond x = cond' x) →
  where_from cond k row = where_from cond' k row.
Proof.
  induction row as [|x row IH]; intros k Hext; [done|].
  cbn [where_from]. rewrite Hext. f_equal. by apply IH.
Qed.

Lemma where_label_fmap (f : nat → nat) (a : list (list nat)) lab :
  (∀ x, Nat.eqb lab (f x) = Nat.eqb lab x) →
  where_label (fmap (M := list) f <$> a) lab = where_label a lab.
Proof.
  intros Hf. unfold where_label. rewrite imap_fmap. f_equal.
  apply imap_ext. intros r row _. cbn. f_equal. unfold np_where.
  rewrite where_from_fmap. by apply where_from_ext.
Qed.

Lemma region_of_where (a b : image) lab :
  where_label a lab = where_label b lab → region_of a lab = region_of b lab.
Proof.
  intros Heq. unfold region_of.
  change (count_occ Nat.eq_dec (ravel a) lab) with (pixel_count a lab).
  change (count_occ Nat.eq_dec (ravel b) lab) with (pixel_count b lab).
  by rewrite <- !length_where_label, Heq.
Qed.

End FilteredRegionFacts.

Section FilteredRegionExtras.
Context `{Scipy}.

(** X11. The border filter and the statistics compose as they should: in
    the filtered array a label that touched the border has no pixel left
    and gives no region, and a label that did not touch it gives the region
    it gave before, with the same centroid, length and area. *)
Theorem border_filter_keeps_inner_regions (w : nat) (img out : image)
    (lab : nat) :
  rect w img →
  remove_border_tracks img = Some out →
  lab ≠ 0 →
  (touches_border w img lab → region_of out lab = None) ∧
  (¬ touches_border w img lab → region_of out lab = region_of img lab).
Proof.
  intros Hrect Hout Hlab.
  destruct (border_values w img Hrect) as (vals & Hrm & Hvals).
  rewrite Hrm in Hout. injection Hout as <-. rewrite clear_values_fmap.
  split; intros Hborder.
  - apply region_of_None.
    destruct (where_label _ lab) as [|[r c] idxs] eqn:Hidx; [done|].
    assert ((r, c) ∈ where_label
              (fmap (M := list) (λ x, if decide (x ∈ vals) then 0 else x)
                 <$> img) lab) as Hin
      by (rewrite Hidx; left).
    apply elem_of_where_label in Hin. rewrite pixel_fmap in Hin.
    destruct (pixel img r c) as [x|]; [|done]. cbn in Hin.
    injection Hin as Hx. destruct (decide (x ∈ vals)) as [|Hout]; [done|].
    subst x. destruct Hout. by apply Hvals.
  - apply region_of_where, where_label_fmap. intros x.
    destruct (decide (x ∈ vals)) as [Hin|]; [|done].
    destruct (Nat.eqb_spec lab 0); [done|].
    destruct (Nat.eqb_spec lab x) as [->|]; [|done].
    destruct Hborder. by apply Hvals.
Qed.

End FilteredRegionExtras.

(** * Further properties of the frame loop *)

Section FrameScanFacts.
Context `{Scipy}.
Variable opt : Options.

(** A track over the regions of one frame: where it ends, how often it was
    matched, whether it is flagged. *)
Lemma scan_lookup rs : ∀ ts i t,
  ts !! i = Some t →
  ∃ t', foldl (associate_tracks opt) ts rs !! i = Some t' ∧
    t_mean t' = moved opt (t_mean t) rs ∧
    t_frames t' = (t_frames t + Z.of_nat (hits opt (t_mean t) rs))%Z ∧
    t_seen t' = t_seen t || (0 <? hits opt (t_mean t) rs) ∧
    (hits opt (t_mean t) rs = 0 → t' = t).
Proof.
  induction rs as [|r rs IH]; intros ts i t Ht.
  - exists t. cbn. rewrite orb_false_r. split_and!; try done. lia.
  - cbn [foldl hits moved].
    assert (associate_tracks opt ts r !! i = Some (update opt r t)) as Hi.
    { unfold associate_tracks. rewrite lookup_app_l.
      - by rewrite list_lookup_fmap, Ht.
      - rewrite length_fmap. by eapply lookup_lt_Some. }
    destruct (IH _ _ _ Hi) as (t' & Ht' & Hm & Hf & Hs & Hsame).
    exists t'. split; [done|]. unfold update in *.
    destruct (near opt (r_mean r) (t_mean t)); cbn in *.
    + rewrite Hm, Hf, Hs. split_and!; try done; [lia|by rewrite orb_true_r].
    + by rewrite Hm, Hf, Hs.
Qed.

Lemma scanned_lookup ts rs i t :
  ts !! i = Some t →
  ∃ t', scanned opt ts rs !! i = Some t' ∧
    t_mean t' = moved opt (t_mean t) rs ∧
    t_frames t' = (t_frames t + Z.of_nat (hits opt (t_mean t) rs))%Z ∧
    t_seen t' = (0 <? hits opt (t_mean t) rs) ∧
    (hits opt (t_mean t) rs = 0 → t' = unsee t).
Proof.
  intros Ht. unfold scanned.
  destruct (scan_lookup rs (unsee <$> ts) i (unsee t)) as (t' & ? & ? & ? & ? & ?).
  { by rewrite list_lookup_fmap, Ht. }
  by exists t'.
Qed.

Lemma lookup_app_plus {A} (l l' : list A) k :
  (l ++ l') !! (length l + k) = l' !! k.
Proof. rewrite lookup_app_r by lia. f_equal. lia. Qed.

Lemma survivors_position (ts : list Track) i t :
  ts !! i = Some t → t_seen t = true →
  ∃ j, j ≤ i ∧ survivors ts !! j = Some t.
Proof.
  intros Ht Hseen. exists (position_after ts i). split.
  - unfold position_after.
    etransitivity; [apply length_filter|]. rewrite length_take. lia.
  - by apply survivors_lookup.
Qed.

End FrameScanFacts.

Section FrameScanExtras.
Context `{Scipy}.
Variable opt : Options.

(** X12. A live track that some region of a processed frame matches stays
    in the store, at its index or before it, with the centroid of the last
    region that matched it and its frame count raised by the number of
    matches. *)
Theorem matched_track_is_kept (st : State) (rs : list Region) (i : nat)
    (t : Track) :
  same_length st →
  tracks st !! i = Some t →
  0 < hits opt (t_mean t) rs →
  ∃ st' j t', lifecycle opt st rs = Some st' ∧
    j ≤ i ∧ tracks st' !! j = Some t' ∧
    t_seen t' = true ∧
    t_mean t' = moved opt (t_mean t) rs ∧
    t_frames t' = (t_frames t + Z.of_nat (hits opt (t_mean t) rs))%Z.
Proof.
  intros Hsame. view_tracks st Hsame. intros Ht Hhits.
  rewrite lifecycle_view.
  destruct (scanned_lookup opt ts rs i t Ht) as (t' & Ht' & Hm & Hf & Hs & _).
  assert (t_seen t' = true) as Hseen.
  { rewrite Hs. by apply Nat.ltb_lt. }
  destruct (survivors_position _ i t' Ht' Hseen) as (j & Hj & Hlook).
  eexists _, j, t'. split; [done|]. by rewrite tracks_with_tracks.
Qed.

(** X13. A live track that no region of a processed frame matches is
    finalized in that frame: when it was seen in more than [framebuff]
    frames, a record with its frame count, its length over [pix_per_cm] and
    its area over the square is among the records the frame appends, at the
    same place in the three output lists. ([pix_per_cm] is not zero: the
    quotient of the source is then infinite, which [Q] has not.) *)
Theorem unmatched_track_is_written (st : State) (rs : list Region) (i : nat)
    (t : Track) :
  same_length st →
  tracks st !! i = Some t →
  hits opt (t_mean t) rs = 0 →
  (framebuff opt < t_frames t)%Z →
  pix_per_cm opt ≠ 0%Z →
  ∃ st' k, lifecycle opt st rs = Some st' ∧
    frames_abs st' !! (length (frames_abs st) + k) = Some (t_frames t) ∧
    len_abs st' !! (length (len_abs st) + k) =
      Some (t_len t / inject_Z (pix_per_cm opt))%Q ∧
    area_abs st' !! (length (area_abs st) + k) =
      Some (inject_Z (t_area t) / inject_Z (pix_per_cm opt ^ 2))%Q.
Proof.
  intros Hsame Ht Hhits Hlong _. revert Ht. view_tracks st Hsame. intros Ht.
  rewrite lifecycle_view.
  destruct (scanned_lookup opt ts rs i t Ht) as (t' & Ht' & _ & _ & _ & Hsame').
  rewrite (Hsame' Hhits) in Ht'.
  assert (unsee t ∈ finalized opt (scanned opt ts rs)) as Hin.
  { apply elem_of_finalized. split; [|split; [done|done]].
    apply list_elem_of_lookup. by exists i. }
  apply list_elem_of_lookup in Hin as (k & Hk).
  eexists _, k. split; [done|].
  cbn [frames_abs len_abs area_abs with_tracks].
  rewrite !lookup_app_plus, !list_lookup_fmap, Hk. done.
Qed.

End FrameScanExtras.

Section RunFacts.
Context `{Scipy}.
Variable opt : Options.

Lemma process_frame_skipped st mask :
  skipped opt mask = true → process_frame opt st mask = Some st.
Proof.
  unfold skipped, process_frame.
  destruct (denoise mask (denoise_thresh opt)) as [mask_proc|]; [|done].
  cbn [mbind option_bind].
  destruct (all_zero mask_proc); [done|]. cbn [orb].
  destruct (label8 mask_proc) as [clusters num]. cbn [fst].
  destruct (remove_border_tracks clusters) as [clusters'|]; [|done].
  cbn [mbind option_bind]. by intros ->.
Qed.

Lemma frame_regions_not_skipped mask rs :
  frame_regions opt mask = Some (Some rs) →
  skipped opt mask = false ∧ ∃ clusters num, rs = regions clusters num.
Proof.
  unfold frame_regions, skipped.
  destruct (denoise mask (denoise_thresh opt)) as [mask_proc|]; [|done].
  cbn [mbind option_bind].
  destruct (all_zero mask_proc); [done|]. cbn [orb].
  destruct (label8 mask_proc) as [clusters num]. cbn [fst].
  destruct (remove_border_tracks clusters) as [clusters'|]; [|done].
  cbn [mbind option_bind].
  destruct (all_zero clusters'); [done|].
  intros [= <-]. split; [done|]. by eexists _, _.
Qed.

(** An invariant of the processed frames is an invariant of the loop. *)
Lemma run_invariant (P : State → Prop) :
  (∀ st clusters num st',
     same_length st → P st →
     lifecycle opt st (regions clusters num) = Some st' → P st') →
  ∀ masks st st',
    same_length st → P st → run opt st masks = Some st' → P st'.
Proof.
  intros Hstep. unfold run.
  induction masks as [|mask masks IH]; intros st st' Hsame HP.
  - by intros [= <-].
  - cbn [for_each]. rewrite process_frame_regions.
    destruct (frame_regions opt mask) as [[rs|]|] eqn:Hfr; [| |done];
      cbn [mbind option_bind].
    + destruct (frame_regions_not_skipped _ _ Hfr)
        as (_ & clusters & num & ->).
      destruct (lifecycle_same_length opt st (regions clusters num) Hsame)
        as (st1 & Hst1 & Hsame1).
      rewrite Hst1. cbn [mbind option_bind]. apply IH; [done|].
      exact (Hstep st clusters num st1 Hsame HP Hst1).
    + by apply IH.
Qed.

Lemma run_app st masks more :
  run opt st (masks ++ more) = run opt st masks ≫= λ st', run opt st' more.
Proof. apply for_each_app. Qed.

Lemma run_reaches_same_length masks st :
  run opt init masks = Some st → same_length st.
Proof.
  intros Hrun.
  destruct (run_same_length opt masks init same_length_init
              (run_Some_regions opt masks init st Hrun))
    as (st0 & Hrun0 & Hsame0).
  congruence.
Qed.

Lemma region_of_area_pos clusters lab r :
  region_of clusters lab = Some r → (1 ≤ r_area r)%Z.
Proof.
  intros (Hne & _ & ->)%region_of_Some. rewrite <- length_where_label.
  destruct (where_label clusters lab); [done|cbn [length]; lia].
Qed.

Lemma regions_area_pos clusters num :
  Forall (λ r, (1 ≤ r_area r)%Z) (regions clusters num).
Proof.
  unfold regions. apply Forall_forall.
  intros r (lab & _ & Hr)%list_elem_of_omap. by eapply region_of_area_pos.
Qed.

(** What association keeps of a property of the tracks. *)
Lemma scanned_Forall (P : Track → Prop) ts rs :
  (∀ t, P t → P (unsee t)) →
  (∀ r t, r ∈ rs → P t → P (matched r t)) →
  (∀ r, r ∈ rs → P (created r)) →
  Forall P ts → Forall P (scanned opt ts rs).
Proof.
  intros Hunsee Hmatched Hcreated Hts. unfold scanned.
  assert (Forall P (unsee <$> ts)) as Hstart.
  { apply Forall_fmap. eapply Forall_impl; [exact Hts|]. apply Hunsee. }
  revert Hstart. generalize (unsee <$> ts) as us. clear Hts.
  induction rs as [|r rs IH]; intros us Hus; [done|].
  cbn [foldl]. apply IH.
  - intros r' t Hr'. apply Hmatched. by right.
  - intros r' Hr'. apply Hcreated. by right.
  - unfold associate_tracks. apply Forall_app. split.
    + apply Forall_fmap. eapply Forall_impl; [exact Hus|].
      intros t Ht. unfold update. cbn.
      destruct (near opt (r_mean r) (t_mean t)); [|done].
      apply Hmatched; [by left|done].
    + destruct (existsb _ us); [constructor|].
      repeat constructor. apply Hcreated. by left.
Qed.

Lemma finalized_long ts :
  Forall (λ t, (framebuff opt < t_frames t)%Z) (finalized opt ts).
Proof.
  apply Forall_forall. by intros t (_ & _ & ?)%elem_of_finalized.
Qed.

End RunFacts.

Section RunInvariants.
Context `{Scipy}.
Variable opt : Options.

Lemma run_live_tracks masks st :
  run opt init masks = Some st →
  Forall (λ t, t_seen t = true ∧ (1 ≤ t_frames t)%Z ∧ (1 ≤ t_area t)%Z)
    (tracks st).
Proof.
  apply (run_invariant opt (λ st,
    Forall (λ t, t_seen t = true ∧ (1 ≤ t_frames t)%Z ∧ (1 ≤ t_area t)%Z)
      (tracks st))); [|apply same_length_init|constructor].
  clear. intros st clusters num st' Hsame. view_tracks st Hsame.
  rewrite lifecycle_view. intros Hts [= <-].
  rewrite tracks_with_tracks.
  assert (Forall (λ t, (1 ≤ t_frames t)%Z ∧ (1 ≤ t_area t)%Z)
            (scanned opt ts (regions clusters num))) as Hscan.
  { pose proof (regions_area_pos clusters num) as Hareas.
    rewrite Forall_forall in Hareas.
    apply scanned_Forall.
    - by intros t.
    - intros r t Hr [Hf Ha]. cbn. specialize (Hareas r Hr).
      split; [lia|]. by destruct (t_area t <? r_area r)%Z.
    - intros r Hr. cbn. split; [lia|]. by apply Hareas.
    - eapply Forall_impl; [exact Hts|]. by intros t (_ & ? & ?). }
  unfold survivors. apply Forall_forall.
  intros t (Hseen & Hin)%list_elem_of_filter.
  rewrite Forall_forall in Hscan. split; [done|]. by apply Hscan.
Qed.

Lemma lifecycle_outputs st rs st' :
  same_length st → lifecycle opt st rs = Some st' →
  ∃ written,
    Forall (λ t, (framebuff opt < t_frames t)%Z) written ∧
    len_abs st' = len_abs st ++ (length_cm opt <$> written) ∧
    area_abs st' = area_abs st ++ (area_cm2 opt <$> written) ∧
    frames_abs st' = frames_abs st ++ (t_frames <$> written).
Proof.
  intros Hsame. view_tracks st Hsame. rewrite lifecycle_view.
  intros [= <-]. eexists. split; [apply finalized_long|]. done.
Qed.

(** The outputs of a run: what was there, followed by one record per
    written track. *)
Lemma run_outputs masks : ∀ st st',
  same_length st → run opt st masks = Some st' →
  ∃ written,
    Forall (λ t, (framebuff opt < t_frames t)%Z) written ∧
    len_abs st' = len_abs st ++ (length_cm opt <$> written) ∧
    area_abs st' = area_abs st ++ (area_cm2 opt <$> written) ∧
    frames_abs st' = frames_abs st ++ (t_frames <$> written).
Proof.
  intros st st' Hsame Hrun.
  apply (run_invariant opt (λ st',
    ∃ written,
      Forall (λ t, (framebuff opt < t_frames t)%Z) written ∧
      len_abs st' = len_abs st ++ (length_cm opt <$> written) ∧
      area_abs st' = area_abs st ++ (area_cm2 opt <$> written) ∧
      frames_abs st' = frames_abs st ++ (t_frames <$> written)))
    with (masks := masks) (st := st); [|done| |done].
  - clear. intros st1 clusters num st2 Hsame1 (w1 & Hw1 & Hl & Ha & Hf) Hstep.
    destruct (lifecycle_outputs _ _ _ Hsame1 Hstep)
      as (w2 & Hw2 & Hl2 & Ha2 & Hf2).
    exists (w1 ++ w2). split; [by apply Forall_app|].
    rewrite Hl2, Ha2, Hf2, Hl, Ha, Hf, !fmap_app, !app_assoc. done.
  - exists []. split; [constructor|]. by rewrite !app_nil_r.
Qed.

Lemma data_app la aa fa (written : list Track) :
  length la = length fa → length aa = length fa →
  zip (zip (la ++ (length_cm opt <$> written))
           (aa ++ (area_cm2 opt <$> written)))
      (fa ++ (t_frames <$> written)) =
  zip (zip la aa) fa ++
  zip (zip (length_cm opt <$> written) (area_cm2 opt <$> written))
      (t_frames <$> written).
Proof.
  intros Hla Haa.
  rewrite (zip_with_app pair la _ aa) by congruence.
  apply zip_with_app. rewrite length_zip_with_l_eq; congruence.
Qed.

End RunInvariants.

Section RunExtras.
Context `{Scipy}.
Variable opt : Options.

(** X14. Two tracks that hold the same centroid are matched by the same
    regions: after any regions they hold the same centroid again, carry the
    same flag when they did before, and their frame counts have risen by
    the same number. The store does not tell them apart any more. *)
Theorem equal_centroids_stay_together (st : State) (rs : list Region)
    (i j : nat) (t1 t2 : Track) :
  same_length st →
  tracks st !! i = Some t1 →
  tracks st !! j = Some t2 →
  t_mean t1 = t_mean t2 →
  ∃ st' t1' t2', for_each (associate_region opt) rs st = Some st' ∧
    tracks st' !! i = Some t1' ∧
    tracks st' !! j = Some t2' ∧
    t_mean t1' = t_mean t2' ∧
    (t_frames t1' - t_frames t1 = t_frames t2' - t_frames t2)%Z ∧
    (t_seen t1 = t_seen t2 → t_seen t1' = t_seen t2').
Proof.
  intros Hsame. view_tracks st Hsame. intros H1 H2 Hmean.
  rewrite associate_run_view.
  destruct (scan_lookup opt rs ts i t1 H1) as (t1' & ? & Hm1 & Hf1 & Hs1 & _).
  destruct (scan_lookup opt rs ts j t2 H2) as (t2' & ? & Hm2 & Hf2 & Hs2 & _).
  eexists _, t1', t2'. split; [done|]. rewrite tracks_with_tracks.
  rewrite Hm1, Hm2, Hf1, Hf2, Hs1, Hs2, Hmean.
  split_and!; try done; [lia|by intros ->].
Qed.

(** X15. Between frames every track in the store carries the seen flag,
    was seen in at least one frame and has an area of at least one
    pixel. *)
Theorem live_tracks_are_seen (masks : list image) (st : State) :
  run opt init masks = Some st →
  Forall (λ s, s = true) (seen st) ∧
  Forall (λ f, (1 ≤ f)%Z) (frame_buffer st) ∧
  Forall (λ a, (1 ≤ a)%Z) (area_buffer st).
Proof.
  intros Hrun. pose proof (run_live_tracks opt masks st Hrun) as Hlive.
  pose proof (run_reaches_same_length opt masks st Hrun) as Hsame.
  rewrite (same_length_view st Hsame). cbn [seen frame_buffer area_buffer
    with_tracks].
  split_and!; apply Forall_fmap; (eapply Forall_impl; [exact Hlive|]);
    by intros t (? & ? & ?).
Qed.

(** X16. The three output lists always have one length, so that the data
    frame of line 175 can be built, and every frame count written is
    greater than [framebuff]. *)
Theorem records_are_complete (masks : list image) (st : State) :
  run opt init masks = Some st →
  length (len_abs st) = length (frames_abs st) ∧
  length (area_abs st) = length (frames_abs st) ∧
  Forall (λ f, (framebuff opt < f)%Z) (frames_abs st).
Proof.
  intros Hrun.
  destruct (run_outputs opt masks init st same_length_init Hrun)
    as (written & Hlong & -> & -> & ->).
  cbn [init len_abs area_abs frames_abs app]. rewrite !length_fmap.
  split_and!; try done. apply Forall_fmap.
  eapply Forall_impl; [exact Hlong|]. done.
Qed.

(** X17. Records are only appended: the output for a video is a prefix of
    the output for the video with more frames after it. *)
Theorem output_grows_with_frames (masks more : list image)
    (recs recs' : list (Q * Q * Z)) :
  program opt masks = Some recs →
  program opt (masks ++ more) = Some recs' →
  recs `prefix_of` recs'.
Proof.
  unfold program. rewrite run_app.
  destruct (run opt init masks) as [st|] eqn:Hrun; [|done].
  cbn [fmap option_fmap option_map mbind option_bind].
  destruct (run opt st more) as [st'|] eqn:Hmore; [|done].
  intros [= <-] [= <-].
  pose proof (run_reaches_same_length opt masks st Hrun) as Hsame.
  destruct (run_outputs opt masks init st same_length_init Hrun)
    as (w0 & _ & Hl0 & Ha0 & Hf0).
  destruct (run_outputs opt more st st' Hsame Hmore)
    as (w1 & _ & Hl1 & Ha1 & Hf1).
  unfold data. rewrite Hl1, Ha1, Hf1, data_app.
  - by eexists.
  - rewrite Hl0, Hf0. cbn. by rewrite !length_fmap.
  - rewrite Ha0, Hf0. cbn. by rewrite !length_fmap.
Qed.

(** X18. The state of the frame loop depends only on the masks that are
    not skipped: on a list of masks the loop ends in the same state, or
    raises alike, as on the masks of the list that take neither
    [continue]. This is about the masks [fgbg.apply] returned, not about the
    frames of the video: every frame passes through [fgbg.apply] (line 113)
    before either [continue], so that leaving a frame out of the video may
    change the masks of the frames after it. *)
Theorem skipped_masks_are_invisible (st : State) (masks : list image) :
  run opt st (filter (λ mask, skipped opt mask = false) masks) =
  run opt st masks.
Proof.
  unfold run. revert st. induction masks as [|mask masks IH]; intros st.
  - done.
  - rewrite filter_cons. destruct (skipped opt mask) eqn:Hskip.
    + rewrite decide_False by done. cbn [for_each].
      rewrite process_frame_skipped by done. apply IH.
    + rewrite decide_True by done. cbn [for_each].
      destruct (process_frame opt st mask); [|done]. apply IH.
Qed.

End RunExtras.

Section OptionEdges.
Context `{Scipy}.
Variable opt : Options.

Lemma not_all_zero_rect (w : nat) (a : image) :
  uniform w a → all_zero a = false → rect w a.
Proof.
  intros Hu Hnz. split; [|split; [|done]].
  - by intros ->.
  - destruct w as [|w]; [|lia].
    assert (all_zero a = true) as Hz; [|congruence].
    apply all_zero_pixels. intros r c v Hv.
    destruct (pixel_in_range a 0 r c v Hu Hv). lia.
Qed.

Lemma frame_regions_total (w : nat) (mask : image) :
  (∀ img, shape (label img).1 = shape img) →
  (∀ img, shape (label8 img).1 = shape img) →
  uniform w mask →
  is_Some (frame_regions opt mask).
Proof.
  intros Hlabel Hlabel8 Hu. unfold frame_regions.
  destruct (denoise_pixels mask (denoise_thresh opt) (Hlabel mask))
    as (mask_proc & -> & Hshape & _).
  cbn [mbind option_bind].
  destruct (all_zero mask_proc) eqn:Hzero; [by eexists|].
  pose proof (Hlabel8 mask_proc) as Hclusters.
  destruct (label8 mask_proc) as [clusters num]. cbn [fst] in Hclusters.
  assert (rect w clusters) as Hrect.
  { eapply rect_shape; [exact Hclusters|].
    apply not_all_zero_rect; [|done]. by eapply shape_rows. }
  destruct (border_values w clusters Hrect) as (vals & -> & _).
  cbn [mbind option_bind].
  destruct (all_zero (foldl clear_value clusters vals)); by eexists.
Qed.

Lemma near_never :
  (∀ u v, (0 <= euclidean u v)%Q) →
  (meanshift_length opt ≤ 0)%Z →
  ∀ mean val, near opt mean val = false.
Proof.
  intros Hpos Hm mean val. unfold near, Qltb.
  apply negb_false_iff, Qle_bool_iff.
  apply Qle_trans with 0%Q; [|apply Hpos].
  change 0%Q with (inject_Z 0). by rewrite <- Zle_Qle.
Qed.

Lemma scan_no_match rs : ∀ us,
  (∀ mean val, near opt mean val = false) →
  foldl (associate_tracks opt) us rs = us ++ (created <$> rs).
Proof.
  induction rs as [|r rs IH]; intros us Hnever.
  - by rewrite app_nil_r.
  - cbn [foldl fmap list_fmap]. rewrite IH by done.
    unfold associate_tracks.
    assert (existsb (λ t, near opt (r_mean r) (t_mean t)) us = false) as ->.
    { induction us as [|t us IHus]; [done|]. cbn. by rewrite Hnever. }
    assert (update opt r <$> us = us) as ->.
    { induction us as [|t us IHus]; [done|]. cbn [fmap list_fmap].
      unfold update at 1. rewrite Hnever. f_equal. apply IHus. }
    by rewrite <- app_assoc.
Qed.

Lemma empty_of_no_elements {A} (l : list A) : (∀ x, x ∈ l → False) → l = [].
Proof.
  destruct l as [|x l]; [done|]. intros Hnone. destruct (Hnone x). by left.
Qed.

Lemma finalized_all_long ts :
  Forall (λ t, (framebuff opt < t_frames t)%Z) ts →
  length (finalized opt ts) + length (survivors ts) = length ts.
Proof.
  intros Hlong. unfold finalized, survivors. rewrite length_reverse.
  induction Hlong as [|t ts Ht _ IH]; [done|].
  rewrite !filter_cons.
  assert (long_enough opt t = true) as Hlong by by apply Z.ltb_lt.
  destruct (t_seen t); cbn [negb andb].
  - rewrite (decide_False (P := false = true)) by done.
    rewrite (decide_True (P := true = true)) by done. cbn [length]. lia.
  - rewrite (decide_True (P := long_enough opt t = true)) by done.
    rewrite (decide_False (P := false = true)) by done. cbn [length]. lia.
Qed.

End OptionEdges.

Section OptionExtras.
Context `{Scipy}.
Variable opt : Options.

(** X19. When both labellings return arrays of the shape of their input,
    the frame loop raises on no video whose masks are arrays (rows of one
    length each): from buffers of one length it returns a state, with
    buffers of one length. *)
Theorem frame_loop_never_raises (st : State) (masks : list image) :
  (∀ img, shape (label img).1 = shape img) →
  (∀ img, shape (label8 img).1 = shape img) →
  same_length st →
  Forall (λ mask, ∃ w, uniform w mask) masks →
  ∃ st', run opt st masks = Some st' ∧ same_length st'.
Proof.
  intros Hlabel Hlabel8 Hsame Hmasks.
  apply run_same_length; [done|].
  eapply Forall_impl; [exact Hmasks|].
  intros mask [w Hu]. by eapply frame_regions_total.
Qed.

(** X20. With a mean-shift threshold of 0 or less no distance is below it
    (distances are not negative): no track is ever continued, so every
    track in the store has a frame count of 1, whatever [framebuff]; and
    with [framebuff] at 1 or more nothing is ever written. *)
Theorem no_meanshift_no_output (masks : list image) (st : State) :
  (∀ u v, (0 <= euclidean u v)%Q) →
  (meanshift_length opt ≤ 0)%Z →
  run opt init masks = Some st →
  Forall (λ f, f = 1%Z) (frame_buffer st) ∧
  ((1 ≤ framebuff opt)%Z → data st = []).
Proof.
  intros Hpos Hm Hrun.
  pose proof (near_never opt Hpos Hm) as Hnever.
  assert (∀ ts rs, Forall (λ t, t_frames t = 1%Z) ts →
            Forall (λ t, t_frames t = 1%Z) (survivors (scanned opt ts rs)))
    as Hkeep.
  { intros ts rs Hts. unfold scanned. rewrite scan_no_match by done.
    unfold survivors. apply Forall_forall.
    intros t (Hseen & Hin)%list_elem_of_filter.
    apply elem_of_app in Hin as [Hin|Hin];
      apply list_elem_of_fmap in Hin as (x & -> & Hx); [|done].
    rewrite Forall_forall in Hts. by apply Hts. }
  pose proof (run_reaches_same_length opt masks st Hrun) as Hsame.
  split.
  - assert (Forall (λ t, t_frames t = 1%Z) (tracks st)) as Hts.
    { revert Hrun.
      apply (run_invariant opt
               (λ st, Forall (λ t, t_frames t = 1%Z) (tracks st)));
        [|apply same_length_init|done].
      clear masks st Hsame. intros st clusters num st' Hsame.
      view_tracks st Hsame. rewrite lifecycle_view.
      intros Hts [= <-]. rewrite tracks_with_tracks. by apply Hkeep. }
    rewrite (same_length_view st Hsame). cbn [frame_buffer with_tracks].
    by apply Forall_fmap.
  - intros Hfb.
    assert (len_abs st = [] ∧ area_abs st = [] ∧ frames_abs st = [] ∧
            Forall (λ t, t_frames t = 1%Z) (tracks st))
      as (Hl & Ha & Hf & _).
    { revert Hrun.
      apply (run_invariant opt (λ st,
        len_abs st = [] ∧ area_abs st = [] ∧ frames_abs st = [] ∧
        Forall (λ t, t_frames t = 1%Z) (tracks st)));
        [|apply same_length_init|by split_and!].
      clear masks st Hsame. intros st clusters num st' Hsame.
      view_tracks st Hsame. rewrite lifecycle_view.
      cbn [len_abs area_abs frames_abs with_tracks].
      intros (-> & -> & -> & Hts) [= <-].
      assert (finalized opt (scanned opt ts (regions clusters num)) = [])
        as ->.
      { apply empty_of_no_elements.
        intros t (Hin & Hunseen & Hlong)%elem_of_finalized.
        unfold scanned in Hin. rewrite scan_no_match in Hin by done.
        apply elem_of_app in Hin as [Hin|Hin];
          apply list_elem_of_fmap in Hin as (x & -> & Hx); [|done].
        rewrite Forall_forall in Hts. specialize (Hts x Hx).
        cbn in Hlong. lia. }
      cbn [fmap list_fmap app len_abs area_abs frames_abs with_tracks].
      split_and!; try done. rewrite tracks_with_tracks. by apply Hkeep. }
    unfold data. by rewrite Hl, Ha, Hf.
Qed.

(** X21. With [framebuff] below 1 no track is dropped without a record:
    when every track was seen in at least one frame, finalization turns
    each track it removes into one record, so the records and the tracks in
    the store are together as many as before. *)
Theorem framebuff_zero_writes_every_track (st : State) :
  same_length st →
  Forall (λ f, (1 ≤ f)%Z) (frame_buffer st) →
  (framebuff opt < 1)%Z →
  ∃ st', finalize opt st = Some st' ∧
    length (frames_abs st') + length (frame_buffer st') =
    length (frames_abs st) + length (frame_buffer st).
Proof.
  intros Hsame. view_tracks st Hsame.
  cbn [frame_buffer frames_abs with_tracks]. intros Hone Hfb.
  rewrite finalize_view. eexists; split; [done|].
  cbn [frame_buffer frames_abs with_tracks].
  rewrite length_app, !length_fmap.
  rewrite <- (finalized_all_long opt ts); [fold (survivors ts); lia|].
  rewrite Forall_fmap in Hone. eapply Forall_impl; [exact Hone|].
  intros t Ht. cbn in Ht. lia.
Qed.

End OptionExtras.

(** * Properties of cropping and of the script *)

Section CropFacts.

Lemma py_slice_border {A} (b : nat) (l : list A) :
  0 < b →
  py_slice (Z.of_nat b) (- Z.of_nat b) l = take (length l - 2 * b) (drop b l).
Proof.
  intros Hb. unfold py_slice, py_bound.
  destruct (Z.ltb_spec (Z.of_nat b) 0); [lia|].
  destruct (Z.ltb_spec (- Z.of_nat b) 0); [|lia].
  rewrite Nat2Z.id.
  replace (Z.to_nat (Z.max 0 (Z.of_nat (length l) + - Z.of_nat b)))
    with (length l - b) by lia.
  destruct (decide (b ≤ length l)).
  - rewrite Nat.min_r by lia. f_equal. lia.
  - rewrite Nat.min_l by lia. rewrite drop_all.
    rewrite (drop_ge l b) by lia. by rewrite !take_nil.
Qed.

Lemma py_slice_border_lookup {A} (b : nat) (l : list A) i :
  0 < b → i < length l - 2 * b →
  py_slice (Z.of_nat b) (- Z.of_nat b) l !! i = l !! (b + i).
Proof.
  intros Hb Hi. rewrite py_slice_border by done.
  rewrite lookup_take_lt by done. apply lookup_drop.
Qed.

Lemma py_slice_zero {A} (l : list A) : py_slice 0 (- 0) l = [].
Proof. unfold py_slice, py_bound. cbn. by rewrite Nat.min_0_r. Qed.

End CropFacts.

Section CropExtras.

(** X22. With a positive border the crop removes [by] rows at the top and
    at the bottom and [bx] columns at the left and at the right: the pixel
    at [(r, c)] of the cropped frame is the pixel at [(by + r, bx + c)] of
    the frame. A frame that is not larger than twice the border is cropped
    to nothing. *)
Theorem crop_removes_the_border {A} (bx by_ w : nat) (fr : list (list A)) :
  Forall (λ row, length row = w) fr →
  0 < bx → 0 < by_ →
  length (crop (Z.of_nat bx, Z.of_nat by_) fr) = length fr - 2 * by_ ∧
  Forall (λ row, length row = w - 2 * bx)
    (crop (Z.of_nat bx, Z.of_nat by_) fr) ∧
  ∀ r c, r < length fr - 2 * by_ → c < w - 2 * bx →
    pixel (crop (Z.of_nat bx, Z.of_nat by_) fr) r c =
    pixel fr (by_ + r) (bx + c).
Proof.
  intros Hu Hbx Hby. unfold crop. cbn [fst snd].
  rewrite (py_slice_border by_ fr) by done.
  assert (Forall (λ row, length row = w)
            (take (length fr - 2 * by_) (drop by_ fr))) as Hu'.
  { by apply Forall_take, Forall_drop. }
  split_and!.
  - rewrite length_fmap, length_take, length_drop. lia.
  - apply Forall_fmap. eapply Forall_impl; [exact Hu'|].
    intros row Hrow. cbn in *. rewrite py_slice_border by done.
    rewrite length_take, length_drop. lia.
  - intros r c Hr Hc. unfold pixel.
    rewrite list_lookup_fmap, lookup_take_lt, lookup_drop by done.
    destruct (fr !! (by_ + r)) as [row|] eqn:Hrow; [|done].
    cbn. apply py_slice_border_lookup; [done|].
    by rewrite (Forall_lookup_1 _ _ _ _ Hu Hrow).
Qed.

(** X23. A border of 0 does not leave the frame whole: [-0] is 0, and the
    slice [0:0] is empty. With 0 as second component the cropped frame has
    no row, with 0 as first component its rows have no pixel. *)
Theorem crop_with_zero_border_is_empty {A} (b : Z) (fr : list (list A)) :
  crop (b, 0%Z) fr = [] ∧
  Forall (λ row, row = []) (crop (0%Z, b) fr).
Proof.
  unfold crop. cbn [fst snd]. split.
  - by rewrite py_slice_zero.
  - apply Forall_fmap, Forall_forall. intros row _. cbn.
    apply py_slice_zero.
Qed.

End CropExtras.

Section ScriptFacts.
Context `{Scipy} `{Subtractor} `{VideoCapture}.
Variable opt : Options.
Variable border : Z * Z.

(** The loop of [train_bkg] reads its frames and passes them through the
    subtractor. *)
Lemma train_reads n : ∀ k cap fgbg cap' fgbg',
  for_each (train_step border) (seq k n) (cap, fgbg) = Some (cap', fgbg') →
  ∃ trained, reads n cap = Some (cap', trained) ∧
    for_each (learn_step border) trained fgbg = Some fgbg'.
Proof.
  induction n as [|n IH]; intros k cap fgbg cap' fgbg'.
  - intros [= <- <-]. by exists [].
  - cbn [seq for_each].
    destruct (train_step border (cap, fgbg) k) as [[cap1 fgbg1]|]
      eqn:Hstep; [|done].
    cbn [mbind option_bind]. intros Hrest.
    destruct (IH _ _ _ _ _ Hrest) as (trained & Hreads & Hlearn).
    unfold train_step in Hstep. cbn [reads].
    destruct (read cap) as [cap2 [fr|]]; [|done].
    cbn [mbind option_bind] in Hstep |- *.
    destruct (apply fgbg (crop border fr)) as [[fgbg2 mask]|] eqn:Happly;
      [|done].
    cbn [mbind option_bind fst] in Hstep. injection Hstep as -> ->.
    rewrite Hreads. cbn [mbind option_bind fst snd].
    exists (fr :: trained). split; [done|].
    cbn [for_each].
    change (learn_step border fgbg fr)
      with (fst <$> apply fgbg (crop border fr)).
    rewrite Happly.
    by cbn [fmap option_fmap option_map mbind option_bind fst].
Qed.

(** The loop of line 108 reads its frames, takes their masks from the
    subtractor and passes the masks through the frame loop. *)
Lemma tick_reads n : ∀ k cap fgbg st cap' fgbg' st',
  for_each (tick opt border) (seq k n) (cap, fgbg, st)
  = Some (cap', fgbg', st') →
  ∃ frames masks, reads n cap = Some (cap', frames) ∧
    masks_of border fgbg frames = Some (fgbg', masks) ∧
    run opt st masks = Some st'.
Proof.
  induction n as [|n IH]; intros k cap fgbg st cap' fgbg' st'.
  - intros [= <- <- <-]. by exists [], [].
  - cbn [seq for_each].
    destruct (tick opt border (cap, fgbg, st) k) as [[[cap1 fgbg1] st1]|]
      eqn:Htick; [|done].
    cbn [mbind option_bind]. intros Hrest.
    destruct (IH _ _ _ _ _ _ _ Hrest) as (frames & masks & Hreads & Hmasks & Hrun).
    unfold tick in Htick. cbn [reads].
    destruct (read cap) as [cap2 [fr|]]; [|done].
    cbn [mbind option_bind] in Htick |- *.
    destruct (apply fgbg (crop border fr)) as [[fgbg2 mask]|] eqn:Happly;
      [|done].
    cbn [mbind option_bind fst snd] in Htick.
    destruct (process_frame opt st mask) as [st2|] eqn:Hstep; [|done].
    cbn [mbind option_bind] in Htick. injection Htick as -> -> ->.
    rewrite Hreads. cbn [mbind option_bind fst snd].
    exists (fr :: frames), (mask :: masks). split; [done|]. split.
    + cbn [masks_of]. rewrite Happly. cbn [mbind option_bind fst snd].
      rewrite Hmasks. by cbn [mbind option_bind fst snd].
    + unfold run in *. cbn [for_each]. by rewrite Hstep.
Qed.

End ScriptFacts.

Section FileFacts.
Context `{Scipy} `{Subtractor}.
Variable opt : Options.
Variable border : Z * Z.

Lemma train_step_file fr ps d t fgbg k :
  train_step border
    ({| pending := fr :: ps; delivered := d; total := t |}, fgbg) k =
  r ← apply fgbg (crop border fr);
  Some ({| pending := ps; delivered := S d; total := t |}, r.1).
Proof. done. Qed.

Lemma tick_file_step fr ps d t fgbg st k :
  tick opt border
    ({| pending := fr :: ps; delivered := d; total := t |}, fgbg, st) k =
  r ← apply fgbg (crop border fr);
  st' ← process_frame opt st r.2;
  Some ({| pending := ps; delivered := S d; total := t |}, r.1, st').
Proof. done. Qed.

(** Training on a file: the frames go through the subtractor in order. *)
Lemma train_file ps : ∀ k rest d t fgbg,
  for_each (train_step border) (seq k (length ps))
    ({| pending := ps ++ rest; delivered := d; total := t |}, fgbg) =
  (λ fg, ({| pending := rest; delivered := d + length ps; total := t |}, fg))
    <$> for_each (learn_step border) ps fgbg.
Proof.
  induction ps as [|fr ps IH]; intros k rest d t fgbg.
  - cbn. by rewrite Nat.add_0_r.
  - cbn [length seq for_each app].
    rewrite train_step_file.
    change (learn_step border fgbg fr)
      with (fst <$> apply fgbg (crop border fr)).
    destruct (apply fgbg (crop border fr)) as [[fgbg1 mask]|]; [|done].
    cbn [mbind option_bind fmap option_fmap option_map fst].
    rewrite IH. by replace (S d + length ps) with (d + S (length ps)) by lia.
Qed.

Lemma train_file_short n : ∀ k ps d t fgbg,
  length ps < n →
  for_each (train_step border) (seq k n)
    ({| pending := ps; delivered := d; total := t |}, fgbg) = None.
Proof.
  induction n as [|n IH]; intros k ps d t fgbg Hlen; [lia|].
  cbn [seq for_each]. destruct ps as [|fr ps]; [done|].
  rewrite train_step_file.
  destruct (apply fgbg (crop border fr)) as [[fgbg1 mask]|]; [|done].
  cbn [mbind option_bind fst]. apply IH. cbn in Hlen. lia.
Qed.

(** The loop of line 108 on a file: the frames go through the subtractor
    and the frame loop in order. *)
Lemma tick_file ps : ∀ k rest d t fgbg st,
  for_each (tick opt border) (seq k (length ps))
    ({| pending := ps ++ rest; delivered := d; total := t |}, fgbg, st) =
  (λ s : subtractor * State,
     ({| pending := rest; delivered := d + length ps; total := t |},
      s.1, s.2))
    <$> for_each (feed_step opt border) ps (fgbg, st).
Proof.
  induction ps as [|fr ps IH]; intros k rest d t fgbg st.
  - cbn. by rewrite Nat.add_0_r.
  - cbn [length seq for_each app].
    rewrite tick_file_step.
    change (feed_step opt border (fgbg, st) fr)
      with (r ← apply fgbg (crop border fr);
            st' ← process_frame opt st r.2; Some (r.1, st')).
    destruct (apply fgbg (crop border fr)) as [[fgbg1 mask]|]; [|done].
    cbn [mbind option_bind fst snd].
    destruct (process_frame opt st mask) as [st1|]; [|done].
    cbn [mbind option_bind].
    rewrite IH. by replace (S d + length ps) with (d + S (length ps)) by lia.
Qed.

(** The script on a file of at least 1000 frames: the first 1000 train the
    subtractor, the others but the last go through the frame loop. *)
Lemma main_file (fs : list frame) :
  1000 ≤ length fs →
  main opt border true (open_file fs) =
  match for_each (learn_step border) (take 1000 fs)
          createBackgroundSubtractorMOG2 with
  | None => Raised
  | Some fgbg =>
      match for_each (feed_step opt border)
              (take (length fs - 1001) (drop 1000 fs)) (fgbg, init) with
      | None => Raised
      | Some s => Written (data s.2)
      end
  end.
Proof.
  intros Hlen. unfold main, train_bkg, open_file. cbn [negb].
  assert (Z.to_nat 1000 = length (take 1000 fs)) as ->.
  { rewrite length_take. lia. }
  set (seen_frames := take (length fs - 1001) (drop 1000 fs)).
  assert (take 1000 fs
            ++ (seen_frames ++ drop (length fs - 1001) (drop 1000 fs)) = fs)
    as Hsplit by by unfold seen_frames; rewrite !take_drop.
  pose proof (train_file (take 1000 fs) 0
                (seen_frames ++ drop (length fs - 1001) (drop 1000 fs))
                0 (length fs) createBackgroundSubtractorMOG2) as Htrain.
  rewrite Hsplit in Htrain.
  match goal with
  | |- match ?loop with _ => _ end = _ =>
      change loop with
        (for_each (train_step border) (seq 0 (length (take 1000 fs)))
           ({| pending := fs; delivered := 0; total := length fs |},
            createBackgroundSubtractorMOG2))
  end.
  rewrite Htrain. clear Htrain.
  destruct (for_each (learn_step border) (take 1000 fs) _) as [fgbg|];
    [|done].
  cbn [fmap option_fmap option_map pos_frames frame_count file_capture
       delivered total].
  rewrite length_take.
  destruct (Z.leb_spec (Z.of_nat (length fs) - 1) 0); [lia|].
  replace (Z.to_nat (Z.of_nat (length fs) - 1
                     - Z.of_nat (0 + 1000 `min` length fs)))
    with (length seen_frames)
    by (unfold seen_frames; rewrite length_take, length_drop; lia).
  rewrite tick_file.
  by destruct (for_each (feed_step opt border) seen_frames _) as [[? ?]|].
Qed.

End FileFacts.

Section ScriptExtras.
Context `{Scipy} `{Subtractor}.
Variable opt : Options.
Variable border : Z * Z.

(** X24. Training comes before the check of the frame count: on a capture
    that delivers no first frame the script raises (slicing [None]) and
    never reaches the exit "video has no frames". *)
Theorem no_first_frame_raises `{VideoCapture} (cap : capture) :
  (read cap).2 = None →
  main opt border true cap = Raised.
Proof.
  intros Hread. unfold main, train_bkg. cbn [negb].
  change (Z.to_nat 1000) with (S 999). cbn [seq for_each].
  assert (train_step border (cap, createBackgroundSubtractorMOG2) 0 = None)
    as ->; [|done].
  unfold train_step. destruct (read cap) as [cap1 fr].
  cbn [snd] in Hread. by rewrite Hread.
Qed.

(** X25. What the script writes is the output of the frame loop on the
    masks of the frames it read: the first 1000 frames read train the
    subtractor; then as many frames are read as the frame count less one
    exceeds the position; the subtractor returns their masks in order; and
    the rows written are [program] of these masks. ([pix_per_cm] is not
    zero: the quotient of the source is then infinite, which [Q] has
    not.) *)
Theorem script_writes_program_output `{VideoCapture} (isfile : bool)
    (cap : capture) (rows : list (Q * Q * Z)) :
  pix_per_cm opt ≠ 0%Z →
  main opt border isfile cap = Written rows →
  ∃ cap1 trained fgbg cap2 frames fgbg' masks,
    isfile = true ∧
    reads 1000 cap = Some (cap1, trained) ∧
    for_each (learn_step border) trained createBackgroundSubtractorMOG2
      = Some fgbg ∧
    reads (Z.to_nat (frame_count cap1 - 1 - pos_frames cap1)) cap1
      = Some (cap2, frames) ∧
    masks_of border fgbg frames = Some (fgbg', masks) ∧
    program opt masks = Some rows.
Proof.
  intros _. unfold main. destruct isfile; [|done]. cbn [negb].
  destruct (train_bkg border cap 1000 createBackgroundSubtractorMOG2)
    as [[cap1 fgbg]|] eqn:Htrain; [|done].
  destruct (_ <=? 0)%Z; [done|].
  destruct (for_each _ _ _) as [[[cap2 fgbg2] st]|] eqn:Hloop; [|done].
  intros [= <-].
  unfold train_bkg in Htrain. change (Z.to_nat 1000) with 1000 in Htrain.
  destruct (train_reads border _ _ _ _ _ _ Htrain)
    as (trained & Hreads & Hlearn).
  destruct (tick_reads opt border _ _ _ _ _ _ _ _ Hloop)
    as (frames & masks & Hframes & Hmasks & Hrun).
  exists cap1, trained, fgbg, cap2, frames, fgbg2, masks.
  split_and!; try done. unfold program. by rewrite Hrun.
Qed.

(** X26. On a capture that is exact the exit "video has no frames" is
    never taken, whatever the file holds: a file of fewer than 1000 frames,
    an empty one too, makes the training raise, and after 1000 frames the
    frame count is above 1. *)
Theorem no_frames_exit_is_unreachable (fs : list frame) :
  main opt border true (open_file fs) ≠ Exited video_has_no_frames.
Proof.
  destruct (decide (length fs < 1000)) as [Hlen|Hlen].
  - unfold main, train_bkg, open_file. cbn [negb].
    by rewrite train_file_short by lia.
  - rewrite main_file by lia.
    destruct (for_each (learn_step border) _ _); [|done].
    by destruct (for_each (feed_step opt border) _ _).
Qed.

(** X28. A video of fewer than 1000 frames cannot be analysed: the training
    reads 1000 frames whatever the file holds and raises on the first one
    that is missing. *)
Theorem short_video_raises (fs : list frame) :
  length fs < 1000 →
  main opt border true (open_file fs) = Raised.
Proof.
  intros Hlen. unfold main, train_bkg, open_file. cbn [negb].
  change (Z.to_nat 1000) with 1000.
  by rewrite train_file_short.
Qed.

(** X27. On a capture that is exact the last frame of the video is never
    read: replacing it changes nothing in what the script does. *)
Theorem last_frame_is_ignored (fs : list frame) (fr fr' : frame)
    (isfile : bool) :
  1000 ≤ length fs →
  main opt border isfile (open_file (fs ++ [fr])) =
  main opt border isfile (open_file (fs ++ [fr'])).
Proof.
  intros Hlen. destruct isfile; [|done].
  rewrite !main_file by (rewrite length_app; lia).
  rewrite !take_app_le, !drop_app_le, !length_app by lia. cbn [length].
  by rewrite !take_app_length' by (rewrite length_drop; lia).
Qed.

End ScriptExtras.

Section HistoryFacts.
Context `{Scipy}.
Variable opt : Options.

Lemma length_matches rs : ∀ c, length (matches opt c rs) = hits opt c rs.
Proof.
  induction rs as [|r rs IH]; intros c; cbn [matches hits]; [done|].
  destruct (near opt (r_mean r) c); cbn [length]; by rewrite IH.
Qed.

(** A track over the regions of one frame: the fields lines 143-151 leave,
    whatever its index and whatever the other tracks. *)
Lemma scan_fields rs : ∀ ts i t,
  ts !! i = Some t →
  ∃ t', foldl (associate_tracks opt) ts rs !! i = Some t' ∧
    t_mean t' = moved opt (t_mean t) rs ∧
    t_len t' =
      foldl max_float (t_len t) (r_length <$> matches opt (t_mean t) rs) ∧
    t_area t' =
      foldl max_int (t_area t) (r_area <$> matches opt (t_mean t) rs) ∧
    t_frames t' =
      (t_frames t + Z.of_nat (length (matches opt (t_mean t) rs)))%Z ∧
    t_seen t' = t_seen t || (0 <? hits opt (t_mean t) rs).
Proof.
  induction rs as [|r rs IH]; intros ts i t Ht.
  - exists t. cbn. rewrite orb_false_r. split_and!; try done. lia.
  - cbn [foldl hits moved matches].
    assert (associate_tracks opt ts r !! i = Some (update opt r t)) as Hi.
    { unfold associate_tracks. rewrite lookup_app_l.
      - by rewrite list_lookup_fmap, Ht.
      - rewrite length_fmap. by eapply lookup_lt_Some. }
    destruct (IH _ _ _ Hi) as (t' & Ht' & Hm & Hl & Ha & Hf & Hs).
    exists t'. split; [done|]. unfold update in *.
    destruct (near opt (r_mean r) (t_mean t)); cbn in *.
    + rewrite Hm, Hl, Ha, Hf, Hs.
      split_and!; try done; [lia|by rewrite orb_true_r].
    + by rewrite Hm, Hl, Ha, Hf, Hs.
Qed.

(** A track of the store that some region of the frame matches: where the
    frame leaves it. *)
Lemma lifecycle_keeps st rs i t :
  same_length st →
  tracks st !! i = Some t →
  0 < hits opt (t_mean t) rs →
  ∃ st1 j t1, lifecycle opt st rs = Some st1 ∧ same_length st1 ∧
    tracks st1 !! j = Some t1 ∧
    t_mean t1 = moved opt (t_mean t) rs ∧
    t_len t1 =
      foldl max_float (t_len t) (r_length <$> matches opt (t_mean t) rs) ∧
    t_area t1 =
      foldl max_int (t_area t) (r_area <$> matches opt (t_mean t) rs) ∧
    t_frames t1 =
      (t_frames t + Z.of_nat (length (matches opt (t_mean t) rs)))%Z.
Proof.
  intros Hsame. view_tracks st Hsame. intros Ht Hhits.
  rewrite lifecycle_view.
  destruct (scan_fields rs (unsee <$> ts) i (unsee t))
    as (t' & Ht' & Hm & Hl & Ha & Hf & Hs).
  { by rewrite list_lookup_fmap, Ht. }
  cbn [unsee t_mean t_len t_area t_frames t_seen orb] in Hm, Hl, Ha, Hf, Hs.
  assert (t_seen t' = true) as Hseen.
  { rewrite Hs. by apply Nat.ltb_lt. }
  destruct (survivors_position _ i t' Ht' Hseen) as (j & _ & Hlook).
  eexists _, j, t'. split; [done|].
  split; [apply same_length_with_tracks|].
  by rewrite tracks_with_tracks.
Qed.

(** A track of the store that every one of the frames matches. *)
Lemma lifecycles_tracked frames : ∀ st i t,
  same_length st →
  tracks st !! i = Some t →
  tracked opt (t_mean t) frames = true →
  ∃ st1 j t1, lifecycles opt st frames = Some st1 ∧ same_length st1 ∧
    tracks st1 !! j = Some t1 ∧
    t_mean t1 = moved_over opt (t_mean t) frames ∧
    t_len t1 =
      foldl max_float (t_len t) (r_length <$> history opt (t_mean t) frames) ∧
    t_area t1 =
      foldl max_int (t_area t) (r_area <$> history opt (t_mean t) frames) ∧
    t_frames t1 =
      (t_frames t + Z.of_nat (length (history opt (t_mean t) frames)))%Z.
Proof.
  induction frames as [|rs frames IH]; intros st i t Hsame Ht Htracked.
  - exists st, i, t. cbn. split_and!; try done. lia.
  - cbn [tracked] in Htracked.
    apply andb_true_iff in Htracked as [Hhits%Nat.ltb_lt Htracked].
    destruct (lifecycle_keeps st rs i t Hsame Ht Hhits)
      as (st1 & j & t1 & Hstep & Hsame1 & Ht1 & Hm & Hl & Ha & Hf).
    rewrite <- Hm in Htracked.
    destruct (IH st1 j t1 Hsame1 Ht1 Htracked)
      as (st2 & j2 & t2 & Hrun & Hsame2 & Ht2 & Hm2 & Hl2 & Ha2 & Hf2).
    exists st2, j2, t2. unfold lifecycles in *. cbn [for_each].
    rewrite Hstep. cbn [mbind option_bind]. split; [done|].
    split; [done|]. split; [done|].
    unfold moved_over in *. cbn [foldl history].
    rewrite !fmap_app, !foldl_app, length_app.
    rewrite Hm2, Hl2, Ha2, Hf2, Hm, Hl, Ha, Hf. split_and!; try done. lia.
Qed.

(** A track of the store that no region of the frame matches: the record
    the frame writes for it. *)
Lemma lifecycle_writes st rs i t :
  same_length st →
  tracks st !! i = Some t →
  hits opt (t_mean t) rs = 0 →
  (framebuff opt < t_frames t)%Z →
  ∃ st' k, lifecycle opt st rs = Some st' ∧
    len_abs st' !! (length (len_abs st) + k) = Some (length_cm opt t) ∧
    area_abs st' !! (length (area_abs st) + k) = Some (area_cm2 opt t) ∧
    frames_abs st' !! (length (frames_abs st) + k) = Some (t_frames t).
Proof.
  intros Hsame Ht Hhits Hlong. revert Ht. view_tracks st Hsame. intros Ht.
  rewrite lifecycle_view.
  destruct (scanned_lookup opt ts rs i t Ht)
    as (t' & Ht' & _ & _ & _ & Hsame').
  rewrite (Hsame' Hhits) in Ht'.
  assert (unsee t ∈ finalized opt (scanned opt ts rs)) as Hin.
  { apply elem_of_finalized. split; [|split; [done|done]].
    apply list_elem_of_lookup. by exists i. }
  apply list_elem_of_lookup in Hin as (k & Hk).
  eexists _, k. split; [done|].
  cbn [frames_abs len_abs area_abs with_tracks].
  rewrite !lookup_app_plus, !list_lookup_fmap, Hk. done.
Qed.

(** The track a region starts when no track of the store is near it (line
    153), after the other regions of its frame. *)
Lemma lifecycle_creates st pre r post :
  same_length st →
  existsb (λ t, near opt (r_mean r) (t_mean t))
    (scanned opt (tracks st) pre) = false →
  ∃ st1 j t1, lifecycle opt st (pre ++ r :: post) = Some st1 ∧
    same_length st1 ∧
    tracks st1 !! j = Some t1 ∧
    t_mean t1 = moved opt (r_mean r) post ∧
    t_len t1 =
      foldl max_float (r_length r)
        (r_length <$> matches opt (r_mean r) post) ∧
    t_area t1 =
      foldl max_int (r_area r) (r_area <$> matches opt (r_mean r) post) ∧
    t_frames t1 =
      (1 + Z.of_nat (length (matches opt (r_mean r) post)))%Z.
Proof.
  intros Hsame. view_tracks st Hsame.
  intros Hnew. rewrite lifecycle_view.
  set (before := scanned opt ts pre) in *.
  assert (scanned opt ts (pre ++ r :: post) =
          foldl (associate_tracks opt)
            ((update opt r <$> before) ++ [created r]) post) as Hscan.
  { unfold scanned, before. rewrite foldl_app. cbn [foldl].
    unfold associate_tracks at 2. fold (scanned opt ts pre).
    fold before. by rewrite Hnew. }
  destruct (scan_fields post ((update opt r <$> before) ++ [created r])
              (length (update opt r <$> before)) (created r))
    as (t' & Ht' & Hm & Hl & Ha & Hf & Hs).
  { rewrite lookup_app_r by lia. by rewrite Nat.sub_diag. }
  cbn [created t_mean t_len t_area t_frames t_seen orb] in Hm, Hl, Ha, Hf, Hs.
  rewrite <- Hscan in Ht'.
  destruct (survivors_position _ _ t' Ht' Hs) as (j & _ & Hlook).
  eexists _, j, t'. split; [done|].
  split; [apply same_length_with_tracks|].
  by rewrite tracks_with_tracks.
Qed.

End HistoryFacts.

Section MaximaTheorem.
Context `{Scipy}.
Variable opt : Options.

(** C10. The record of a track holds the running maxima over every match of
    its life, whatever the store and the other regions. The track starts at
    a region [r] that no track of the store is near when the loop reaches
    it (line 153), is matched by the regions [seen_in], those after [r] in
    its frame and at least one in each of the frames that follow, a frame
    holding any number of regions, and is matched by none in the frame
    after them. That frame writes one record for it, at one position of the
    three output lists, when the track was seen more often than
    [framebuff]: the greatest length of [r] and [seen_in] divided by
    [pix_per_cm], the greatest area divided by the square of [pix_per_cm],
    and a frame count of one more than the number of matches.
    ([pix_per_cm] is not zero: the quotient of the source is then infinite,
    which [Q] has not.) *)
Theorem record_holds_running_maxima (st : State) (pre : list Region)
    (r : Region) (post : list Region) (frames : list (list Region))
    (rs' : list Region) :
  same_length st →
  existsb (λ t, near opt (r_mean r) (t_mean t))
    (scanned opt (tracks st) pre) = false →
  tracked opt (moved opt (r_mean r) post) frames = true →
  hits opt (moved_over opt (moved opt (r_mean r) post) frames) rs' = 0 →
  (framebuff opt < 1 + Z.of_nat (length (seen_in opt r post frames)))%Z →
  pix_per_cm opt ≠ 0%Z →
  ∃ st1 st' k,
    lifecycles opt st ((pre ++ r :: post) :: frames) = Some st1 ∧
    lifecycle opt st1 rs' = Some st' ∧
    len_abs st' !! (length (len_abs st1) + k) =
      Some (foldl max_float (r_length r)
              (r_length <$> seen_in opt r post frames)
            / inject_Z (pix_per_cm opt))%Q ∧
    area_abs st' !! (length (area_abs st1) + k) =
      Some (inject_Z (foldl max_int (r_area r)
                        (r_area <$> seen_in opt r post frames))
            / inject_Z (pix_per_cm opt ^ 2))%Q ∧
    frames_abs st' !! (length (frames_abs st1) + k) =
      Some (1 + Z.of_nat (length (seen_in opt r post frames)))%Z.
Proof.
  intros Hsame Hnew Htracked Hlost Hlong _.
  destruct (lifecycle_creates opt st pre r post Hsame Hnew)
    as (sta & j & ta & Hfirst & Hsamea & Hta & Hm & Hl & Ha & Hf).
  rewrite <- Hm in Htracked, Hlost.
  destruct (lifecycles_tracked opt frames sta j ta Hsamea Hta Htracked)
    as (st1 & j1 & t1 & Hrun & Hsame1 & Ht1 & Hm1 & Hl1 & Ha1 & Hf1).
  rewrite <- Hm1 in Hlost.
  assert (t_frames t1 =
          (1 + Z.of_nat (length (seen_in opt r post frames)))%Z) as Hcount.
  { unfold seen_in. rewrite length_app, Hf1, Hf, Hm. lia. }
  assert (framebuff opt < t_frames t1)%Z as Hlong1 by by rewrite Hcount.
  destruct (lifecycle_writes opt st1 rs' j1 t1 Hsame1 Ht1 Hlost Hlong1)
    as (st' & k & Hlast & Hlen & Harea & Hframes).
  exists st1, st', k. split.
  { unfold lifecycles in *. cbn [for_each]. rewrite Hfirst.
    by cbn [mbind option_bind]. }
  split; [done|].
  rewrite Hlen, Harea, Hframes, Hcount. unfold length_cm, area_cm2, seen_in.
  rewrite !fmap_app, !foldl_app, Hl1, Ha1, Hl, Ha, Hm. done.
Qed.

End MaximaTheorem.

Section OutputFacts.
Context `{Scipy}.
Variable opt : Options.

Lemma zip_records (ws : list Track) :
  zip (zip (length_cm opt <$> ws) (area_cm2 opt <$> ws)) (t_frames <$> ws)
  = record opt <$> ws.
Proof. induction ws as [|w ws IH]; [done|]. cbn. by rewrite <- IH. Qed.

Lemma written_unseen frames : ∀ ts,
  Forall (λ t, t_seen t = false ∧ (framebuff opt < t_frames t)%Z)
    (written opt ts frames).
Proof.
  induction frames as [|rs frames IH]; intros ts; cbn [written]; [done|].
  apply Forall_app. split; [|apply IH].
  apply Forall_forall. intros t Ht. by apply elem_of_finalized in Ht as (_ & ? & ?).
Qed.

Lemma live_seen frames : ∀ ts,
  Forall (λ t, t_seen t = true) ts →
  Forall (λ t, t_seen t = true) (live opt ts frames).
Proof.
  unfold live.
  induction frames as [|rs frames IH]; intros ts Hts; cbn [foldl]; [done|].
  apply IH. unfold survivors. apply Forall_forall.
  intros t Ht. by apply list_elem_of_filter in Ht as [? _].
Qed.

(** The frame loop on the track view: what it writes and what it leaves in
    the store. *)
Lemma run_written masks : ∀ st0 st,
  same_length st0 →
  run opt st0 masks = Some st →
  ∃ frs, Forall2 (λ mask fr, frame_regions opt mask = Some fr) masks frs ∧
    st = with_tracks
           (len_abs st0
            ++ (length_cm opt <$> written opt (tracks st0) (omap id frs)))
           (area_abs st0
            ++ (area_cm2 opt <$> written opt (tracks st0) (omap id frs)))
           (frames_abs st0
            ++ (t_frames <$> written opt (tracks st0) (omap id frs)))
           (live opt (tracks st0) (omap id frs)).
Proof.
  unfold run.
  induction masks as [|mask masks IH]; intros st0 st Hsame Hrun.
  - injection Hrun as <-. exists []. split; [constructor|].
    cbn. rewrite !app_nil_r. by apply same_length_view.
  - cbn [for_each] in Hrun. rewrite process_frame_regions in Hrun.
    destruct (frame_regions opt mask) as [[rs|]|] eqn:Hmask; [| |done];
      cbn [mbind option_bind] in Hrun.
    + revert Hrun. rewrite (same_length_view st0 Hsame) at 1.
      rewrite lifecycle_view. cbn [mbind option_bind]. intros Hrun.
      apply IH in Hrun as (frs & Hall & ->);
        [|apply same_length_with_tracks].
      exists (Some rs :: frs). split; [by constructor|].
      rewrite tracks_with_tracks.
      change (omap id (Some rs :: frs)) with (rs :: omap id frs).
      unfold live.
      cbn [len_abs area_abs frames_abs with_tracks written foldl].
      by rewrite !fmap_app, !app_assoc.
    + apply IH in Hrun as (frs & Hall & ->); [|done].
      exists (None :: frs). split; [by constructor|]. done.
Qed.

End OutputFacts.

Section OutputTheorem.
Context `{Scipy}.
Variable opt : Options.

(** C5. Nothing is written after the loop. The output is the records of the
    tracks the processed frames wrote out, frame after frame, each one a
    track that went unseen in a processed frame after more than
    [framebuff] matches; the tracks still in the store when the frames are
    exhausted, all of them seen in the last processed frame, are left
    there, whatever their number and their frame counts, and no row is
    written for them. (The rows hold the values of the source where
    [pix_per_cm] is not zero.) *)
Theorem live_tracks_are_not_written (masks : list image) (st : State) :
  run opt init masks = Some st →
  ∃ frs, Forall2 (λ mask fr, frame_regions opt mask = Some fr) masks frs ∧
    tracks st = live opt [] (omap id frs) ∧
    Forall (λ t, t_seen t = true) (tracks st) ∧
    frames_abs st = t_frames <$> written opt [] (omap id frs) ∧
    length (len_abs st) = length (written opt [] (omap id frs)) ∧
    length (area_abs st) = length (written opt [] (omap id frs)) ∧
    Forall (λ t, t_seen t = false ∧ (framebuff opt < t_frames t)%Z)
      (written opt [] (omap id frs)) ∧
    (pix_per_cm opt ≠ 0%Z →
     program opt masks = Some (record opt <$> written opt [] (omap id frs))).
Proof.
  intros Hrun.
  destruct (run_written opt masks init st (same_length_init) Hrun)
    as (frs & Hall & Hst).
  cbn [len_abs area_abs frames_abs init app] in Hst.
  change (tracks init) with (@nil Track) in Hst.
  exists frs. split; [done|].
  unfold program. rewrite Hrun. clear Hrun. subst st.
  rewrite tracks_with_tracks.
  cbn [len_abs area_abs frames_abs with_tracks fmap option_fmap option_map].
  rewrite !length_fmap. split_and!; try done.
  - by apply live_seen.
  - apply written_unseen.
  - intros _. unfold data.
    cbn [len_abs area_abs frames_abs with_tracks]. by rewrite zip_records.
Qed.

End OutputTheorem.

(** * The properties on the example data *)

Section Examples.

(** The distances the examples use are exact. *)
Example euclidean_floor_3_4 :
  euclidean_floor (0%Q, 0%Q) (3%Q, 4%Q) = 5%Q.
Proof. reflexivity. Qed.

Example two_tracks_reached :
  lifecycle defaults init [region 100 50 500 501; region 130 50 500 501]
  = Some two_tracks.
Proof. reflexivity. Qed.

(** C1 fails as stated. The region [between] lies 15 pixels from each of the
    two tracks of [two_tracks]; the track at index 0 is the first one within
    [meanshift_length], yet the track at index 1 is updated as well: its
    frame count goes from 1 to 2, its centroid from (130, 50) to (115, 50),
    its length and area to the region's. *)
Lemma associate_updates_second_track :
  associate defaults two_tracks (115%Q, 50%Q) 520%Q 530%Z
  = Some both_matched ∧
  Qltb (euclidean (100%Q, 50%Q) (115%Q, 50%Q)) 25%Q = true ∧
  tracks two_tracks !! 1 =
    Some {| t_mean := (130%Q, 50%Q); t_len := 500%Q; t_area := 501%Z;
            t_frames := 1%Z; t_seen := true |} ∧
  tracks both_matched !! 1 =
    Some {| t_mean := (115%Q, 50%Q); t_len := 520%Q; t_area := 530%Z;
            t_frames := 2%Z; t_seen := true |} ∧
  tracks both_matched !! 1 ≠ tracks two_tracks !! 1.
Proof. repeat split; try reflexivity. by vm_compute. Qed.

(** C1 (as amended) at [two_tracks] and [between]. *)
Lemma associate_updates_every_near_track_witness :
  same_length two_tracks ∧
  ∃ st', associate_region defaults two_tracks between = Some st' ∧
    (∀ i t, tracks two_tracks !! i = Some t →
       tracks st' !! i =
       Some (if near defaults (r_mean between) (t_mean t)
             then matched between t else t)) ∧
    tracks st' =
      (update defaults between <$> tracks two_tracks) ++
      (if existsb (λ t, near defaults (r_mean between) (t_mean t))
            (tracks two_tracks)
       then [] else [created between]).
Proof.
  assert (same_length two_tracks) as Hsame by (by repeat split).
  split; [exact Hsame|].
  exact (associate_updates_every_near_track defaults two_tracks between Hsame).
Defined.

(** C2 fails as stated. In [two_frames] the track of the first frame is
    matched by both regions of the second: after two processed frames its
    frame count is 3. *)
Lemma frames_seen_exceeds_frames :
  lifecycles defaults init two_frames = Some matched_thrice ∧
  frame_buffer matched_thrice = [3%Z] ∧
  (Z.of_nat (length two_frames) < 3)%Z.
Proof. by repeat split. Qed.

(** C2 (as amended) at the second frame of [two_frames]. *)
Lemma frames_seen_counts_matches_witness :
  let t := created (region 251 10 500 501) in
  let rs := [region 251 10 500 501; region 251 12 500 501] in
  let st := with_tracks [] [] [] [unsee t] in
  same_length st ∧
  tracks st !! 0 = Some (unsee t) ∧
  hits defaults (t_mean t) rs = 2 ∧
  ∃ st' t', for_each (associate_region defaults) rs st = Some st' ∧
    tracks st' !! 0 = Some t' ∧
    t_frames t' = (1 + Z.of_nat (hits defaults (t_mean t) rs))%Z.
Proof.
  intros t rs st.
  assert (same_length st) as Hsame by (by repeat split).
  assert (tracks st !! 0 = Some (unsee t)) as Ht by reflexivity.
  split; [exact Hsame|]. split; [exact Ht|]. split; [reflexivity|].
  exact (frames_seen_counts_matches defaults st rs 0 (unsee t) Hsame Ht).
Defined.


(** The track seen in exactly [framebuff] frames (index 3) leaves no
    record; the two seen in more (indices 4 and 1, in that order) do. *)
Example finalize_five_tracks :
  ∃ st', finalize defaults five_tracks = Some st' ∧
    frames_abs st' = [3%Z; 2%Z] ∧
    frame_buffer st' = [5%Z; 7%Z] ∧
    len_buffer st' = [10%Q; 12%Q].
Proof. eexists. by repeat split. Qed.

(** C4 at a speck, a border region and a speck again. *)
Lemma skipped_frames_change_nothing_witness :
  Forall (λ mask, skipped small_images mask = true)
    [speck; on_border; speck] ∧
  run small_images two_tracks [speck; on_border; speck] = Some two_tracks.
Proof.
  assert (Forall (λ mask, skipped small_images mask = true)
            [speck; on_border; speck]) as Hskip
    by (repeat constructor).
  split; [exact Hskip|].
  exact (skipped_frames_change_nothing small_images two_tracks _ Hskip).
Defined.

(** The state two frames with the same region, moved one pixel, end in. *)
Example run_inside_twice :
  run small_images init [inside; inside_next] = Some followed_twice.
Proof. reflexivity. Qed.

(** C6 at [two_tracks]. *)
Lemma buffers_keep_one_length_witness :
  same_length two_tracks ∧
  (∀ r, ∃ st', associate_region defaults two_tracks r = Some st' ∧
     same_length st' ∧
     length (mean_buffer st') =
       length (mean_buffer two_tracks) +
       (if existsb (λ t, near defaults (r_mean r) (t_mean t))
             (tracks two_tracks)
        then 0 else 1)) ∧
  (∃ st', finalize defaults two_tracks = Some st' ∧ same_length st' ∧
     length (mean_buffer st') =
       length (filter (λ s, s = true) (seen two_tracks))) ∧
  (∀ clusters num,
     ∃ st', track_frame defaults two_tracks clusters num = Some st' ∧
       same_length st') ∧
  (∀ masks,
     Forall (λ mask, is_Some (frame_regions defaults mask)) masks →
     ∃ st', run defaults two_tracks masks = Some st' ∧ same_length st').
Proof.
  assert (same_length two_tracks) as Hsame by (by repeat split).
  split; [exact Hsame|].
  exact (buffers_keep_one_length defaults two_tracks Hsame).
Defined.

(** C7 at the track of index 2 of [five_tracks]. *)
Lemma removal_keeps_survivors_witness :
  let t := {| t_mean := (200%Q, 0%Q); t_len := 12%Q; t_area := 120%Z;
              t_frames := 7%Z; t_seen := true |} in
  same_length five_tracks ∧
  tracks five_tracks !! 2 = Some t ∧
  descending (reverse (np_where negb (seen five_tracks))) ∧
  ∃ st', finalize defaults five_tracks = Some st' ∧
    tracks st' !! position_after (tracks five_tracks) 2 = Some t ∧
    position_after (tracks five_tracks) 2 =
      2 - length (filter (λ t, t_seen t = false)
                    (take 2 (tracks five_tracks))).
Proof.
  intros t.
  assert (same_length five_tracks) as Hsame by (by repeat split).
  assert (tracks five_tracks !! 2 = Some t) as Ht by reflexivity.
  split; [exact Hsame|]. split; [exact Ht|].
  exact (removal_keeps_survivors defaults five_tracks 2 t Hsame Ht eq_refl).
Defined.

(** The indices 1, 3 and 4 are deleted from the last to the first; the
    tracks at 0 and 2 stay, at 0 and 1. *)
Example removal_of_1_3_4 :
  reverse (np_where negb (seen five_tracks)) = [4; 3; 1] ∧
  ∃ st', finalize defaults five_tracks = Some st' ∧
    tracks st' !! 0 = tracks five_tracks !! 0 ∧
    tracks st' !! 1 = tracks five_tracks !! 2 ∧
    length (tracks st') = 2.
Proof. split; [done|]. eexists. by repeat split. Qed.

(** C8 at [four_regions]. *)
Lemma border_regions_removed_witness :
  rect 5 four_regions ∧
  ∃ out, remove_border_tracks four_regions = Some out ∧
    shape out = shape four_regions ∧
    ∀ r c v, pixel four_regions r c = Some v →
      (touches_border 5 four_regions v → pixel out r c = Some 0) ∧
      (¬ touches_border 5 four_regions v → pixel out r c = Some v).
Proof.
  assert (rect 5 four_regions) as Hrect.
  { split; [done|]. split; [lia|]. repeat constructor. }
  split; [exact Hrect|].
  exact (border_regions_removed 5 four_regions Hrect).
Defined.

Example remove_border_four_regions :
  remove_border_tracks four_regions =
  Some [[0; 0; 0; 0; 0]; [0; 1; 1; 0; 0]; [0; 0; 0; 3; 0]; [0; 0; 0; 0; 0];
        [0; 0; 0; 0; 0]].
Proof. reflexivity. Qed.

(** C9 at [inside] and threshold 2. *)
Lemma denoise_clears_small_components_witness :
  shape (label inside).1 = shape inside ∧
  ∃ out, denoise inside 2 = Some out ∧
    shape out = shape inside ∧
    ∀ r c v, pixel inside r c = Some v →
      ∃ l, pixel (label inside).1 r c = Some l ∧
        ((Z.of_nat (pixel_count (label inside).1 l) ≤ 2)%Z →
           pixel out r c = Some 0) ∧
        ((2 < Z.of_nat (pixel_count (label inside).1 l))%Z →
           pixel out r c = Some v).
Proof.
  assert (shape (label inside).1 = shape inside) as Hshape by reflexivity.
  split; [exact Hshape|].
  exact (denoise_clears_small_components inside 2 Hshape).
Defined.

(** A region of two pixels goes at threshold 2 and stays at threshold 1. *)
Example denoise_inside :
  denoise inside 2 = Some [[0; 0; 0; 0; 0]; [0; 0; 0; 0; 0]; [0; 0; 0; 0; 0]] ∧
  denoise inside 1 = Some inside.
Proof. by split. Qed.

(** Lengths 10, 40, 25 and areas 100, 80, 150 over three frames: one
    record, of length 40 / 120, area 150 / 120², 3 frames. *)
Example record_of_three_frames :
  ∃ st', lifecycles defaults init
           [[region 50 50 10 100]; [region 51 50 40 80];
            [region 52 50 25 150]; [region 150 50 5 60]] = Some st' ∧
    len_abs st' = [(40 / 120)%Q] ∧
    area_abs st' = [(150 / 14400)%Q] ∧
    frames_abs st' = [3%Z].
Proof. eexists. by repeat split. Qed.

(** At 120 pixels per centimetre a length of 120 is 1 cm and an area of
    14400 is 1 cm². *)
Example one_centimetre (t : Track) :
  t_len t = 120%Q → t_area t = 14400%Z →
  (length_cm defaults t == 1)%Q ∧ (area_cm2 defaults t == 1)%Q.
Proof. unfold length_cm, area_cm2. intros -> ->. by split. Qed.

(** C5 at a video of four masks, two strips per frame: the track of the
    upper strip is lost in the last frame and written, the track of the
    lower strip is matched in all three processed frames and stays in the
    store with a frame count of 3, above [framebuff]; no row is written for
    it. *)
Lemma live_tracks_are_not_written_witness :
  let masks := [two_strips; no_track; two_strips_next; track_elsewhere] in
  let st := {| len_abs := [(1 # 120)%Q]; area_abs := [(2 # 14400)%Q];
               frames_abs := [2%Z]; len_buffer := [1%Q];
               area_buffer := [2%Z]; frame_buffer := [3%Z];
               mean_buffer := [(3 # 2, 6 # 2)%Q]; seen := [true] |} in
  @run scipy_strips close_tracks init masks = Some st ∧
  ∃ frs,
    Forall2 (λ mask fr, @frame_regions scipy_strips close_tracks mask
                        = Some fr) masks frs ∧
    tracks st = @live scipy_strips close_tracks [] (omap id frs) ∧
    Forall (λ t, t_seen t = true) (tracks st) ∧
    frames_abs st =
      t_frames <$> @written scipy_strips close_tracks [] (omap id frs) ∧
    length (len_abs st) =
      length (@written scipy_strips close_tracks [] (omap id frs)) ∧
    length (area_abs st) =
      length (@written scipy_strips close_tracks [] (omap id frs)) ∧
    Forall (λ t, t_seen t = false ∧ (framebuff close_tracks < t_frames t)%Z)
      (@written scipy_strips close_tracks [] (omap id frs)) ∧
    (pix_per_cm close_tracks ≠ 0%Z →
     @program scipy_strips close_tracks masks =
     Some (record close_tracks
           <$> @written scipy_strips close_tracks [] (omap id frs))).
Proof.
  intros masks st.
  assert (@run scipy_strips close_tracks init masks = Some st) as Hrun
    by reflexivity.
  split; [exact Hrun|].
  exact (@live_tracks_are_not_written scipy_strips close_tracks masks st
           Hrun).
Defined.

(** The two tracks of [two_strips], matched in the next processed frame,
    are both in the store when the video ends, each with a frame count of
    2, above [framebuff]: nothing is written. *)
Example two_live_tracks_no_record :
  @run scipy_strips close_tracks init [two_strips; no_track; two_strips_next]
  = Some {| len_abs := []; area_abs := []; frames_abs := [];
            len_buffer := [1%Q; 1%Q]; area_buffer := [2%Z; 2%Z];
            frame_buffer := [2%Z; 2%Z];
            mean_buffer := [(5 # 2, 2 # 2)%Q; (3 # 2, 6 # 2)%Q];
            seen := [true; true] |} ∧
  @program scipy_strips close_tracks [two_strips; no_track; two_strips_next]
  = Some [].
Proof. by split. Qed.

(** C10 at lengths 10, 40, 25 and areas 100, 80, 150, in a store that holds
    another track: the track starts as the second region of its frame, at
    index 1; the other track is lost in the next frame, so that it goes on
    at index 0; a third track starts in the frame after that; then it is
    lost. *)
Lemma record_holds_running_maxima_witness :
  let st := with_tracks [] [] [] [created (region 300 50 7 70)] in
  let pre := [region 300 50 8 75] in
  let r := region 50 50 10 100 in
  let frames := [[region 51 50 40 80];
                 [region 300 50 9 76; region 52 50 25 150]] in
  let rs' := [region 300 50 5 60] in
  same_length st ∧
  existsb (λ t, near defaults (r_mean r) (t_mean t))
    (scanned defaults (tracks st) pre) = false ∧
  tracked defaults (moved defaults (r_mean r) []) frames = true ∧
  hits defaults (moved_over defaults (moved defaults (r_mean r) []) frames)
    rs' = 0 ∧
  (framebuff defaults < 1 + Z.of_nat (length (seen_in defaults r [] frames)))%Z ∧
  pix_per_cm defaults ≠ 0%Z ∧
  ∃ st1 st' k,
    lifecycles defaults st ((pre ++ r :: []) :: frames) = Some st1 ∧
    lifecycle defaults st1 rs' = Some st' ∧
    len_abs st' !! (length (len_abs st1) + k) =
      Some (foldl max_float (r_length r)
              (r_length <$> seen_in defaults r [] frames)
            / inject_Z (pix_per_cm defaults))%Q ∧
    area_abs st' !! (length (area_abs st1) + k) =
      Some (inject_Z (foldl max_int (r_area r)
                        (r_area <$> seen_in defaults r [] frames))
            / inject_Z (pix_per_cm defaults ^ 2))%Q ∧
    frames_abs st' !! (length (frames_abs st1) + k) =
      Some (1 + Z.of_nat (length (seen_in defaults r [] frames)))%Z.
Proof.
  intros st pre r frames rs'.
  assert (same_length st) as Hsame by (by repeat split).
  assert (existsb (λ t, near defaults (r_mean r) (t_mean t))
            (scanned defaults (tracks st) pre) = false) as Hnew
    by reflexivity.
  assert (tracked defaults (moved defaults (r_mean r) []) frames = true)
    as Htracked by reflexivity.
  assert (hits defaults
            (moved_over defaults (moved defaults (r_mean r) []) frames) rs'
          = 0) as Hlost by reflexivity.
  assert (framebuff defaults
          < 1 + Z.of_nat (length (seen_in defaults r [] frames)))%Z as Hlong
    by (vm_compute; reflexivity).
  assert (pix_per_cm defaults ≠ 0%Z) as Hpix by (cbn; lia).
  repeat (split; [done|]).
  exact (record_holds_running_maxima defaults st pre r [] frames rs'
           Hsame Hnew Htracked Hlost Hlong Hpix).
Defined.

(** The records of the video of the witness above: the other track with
    length 8 / 120 and 2 frames, then the track followed with length
    40 / 120, area 150 / 120², 3 frames. *)
Example records_of_two_tracks :
  ∃ st', lifecycles defaults
           (with_tracks [] [] [] [created (region 300 50 7 70)])
           [[region 300 50 8 75; region 50 50 10 100];
            [region 51 50 40 80];
            [region 300 50 9 76; region 52 50 25 150];
            [region 300 50 5 60]] = Some st' ∧
    len_abs st' = [(8 / 120)%Q; (40 / 120)%Q] ∧
    area_abs st' = [(75 / 14400)%Q; (150 / 14400)%Q] ∧
    frames_abs st' = [2%Z; 3%Z].
Proof. eexists. by repeat split. Qed.

(** ** The further properties on example data *)

(** The labelling of the examples keeps the shape of the array, and the
    distances of the examples are not negative. *)
Lemma label_single_shape (img : image) :
  shape (label_single img).1 = shape img.
Proof. apply shape_fmap. Qed.

Lemma euclidean_floor_nonneg (u v : Q * Q) : (0 <= euclidean_floor u v)%Q.
Proof.
  unfold euclidean_floor, sqrt_floor, Qle. cbn. rewrite Z.mul_1_r.
  apply Z.sqrt_nonneg.
Qed.

Lemma rect_four_regions : rect 5 four_regions.
Proof. split; [done|]. split; [lia|]. repeat constructor. Qed.

(** X1 at an array of two rows and no column. *)
Lemma remove_border_raises_iff_empty_witness :
  uniform 0 [[]; []] ∧
  (remove_border_tracks [[]; []] = None ↔ ([[]; []] : image) = [] ∨ 0 = 0).
Proof.
  assert (uniform 0 [[]; []]) as Hu by (repeat constructor).
  split; [exact Hu|].
  exact (remove_border_raises_iff_empty 0 [[]; []] Hu).
Defined.

(** X2 at [four_regions]. *)
Lemma remove_border_leaves_zero_border_witness :
  rect 5 four_regions ∧
  ∃ out, remove_border_tracks four_regions = Some out ∧
    ∀ r c v, pixel out r c = Some v →
      at_border (length four_regions) 5 r c → v = 0.
Proof.
  split; [exact rect_four_regions|].
  exact (remove_border_leaves_zero_border 5 four_regions rect_four_regions).
Defined.

(** X3 at [four_regions]. *)
Lemma remove_border_idempotent_witness :
  let out := [[0; 0; 0; 0; 0]; [0; 1; 1; 0; 0]; [0; 0; 0; 3; 0];
              [0; 0; 0; 0; 0]; [0; 0; 0; 0; 0]] in
  rect 5 four_regions ∧
  remove_border_tracks four_regions = Some out ∧
  remove_border_tracks out = Some out.
Proof.
  intros out.
  assert (remove_border_tracks four_regions = Some out) as Hout
    by reflexivity.
  split; [exact rect_four_regions|]. split; [exact Hout|].
  exact (remove_border_idempotent 5 four_regions out rect_four_regions Hout).
Defined.

(** X4 at [inside], whose two pixels lie off the border. *)
Lemma remove_border_keeps_inner_image_witness :
  rect 5 inside ∧
  (∀ r c v, pixel inside r c = Some v →
     at_border (length inside) 5 r c → v = 0) ∧
  remove_border_tracks inside = Some inside.
Proof.
  assert (rect 5 inside) as Hrect.
  { split; [done|]. split; [lia|]. repeat constructor. }
  assert (∀ r c v, pixel inside r c = Some v →
            at_border (length inside) 5 r c → v = 0) as Hclean.
  { intros r c v Hv Hborder. unfold at_border in Hborder. cbn in Hborder.
    do 3 (destruct r as [|r]; [
      do 5 (destruct c as [|c];
              [cbn in Hv; injection Hv as <-; first [reflexivity | lia]|]);
      discriminate Hv|]).
    discriminate Hv. }
  split; [exact Hrect|]. split; [exact Hclean|].
  exact (remove_border_keeps_inner_image 5 inside Hrect Hclean).
Defined.

(** X5 at an array of two rows. *)
Lemma thin_arrays_are_cleared_witness :
  rect 3 two_rows ∧
  (length two_rows ≤ 2 ∨ 3 ≤ 2) ∧
  ∃ out, remove_border_tracks two_rows = Some out ∧ all_zero out = true.
Proof.
  assert (rect 3 two_rows) as Hrect.
  { split; [done|]. split; [lia|]. repeat constructor. }
  assert (length two_rows ≤ 2 ∨ 3 ≤ 2) as Hthin by (left; cbn; lia).
  split; [exact Hrect|]. split; [exact Hthin|].
  exact (thin_arrays_are_cleared 3 two_rows Hrect Hthin).
Defined.

(** X6 at [inside] and threshold -1. *)
Lemma denoise_negative_threshold_witness :
  shape (label inside).1 = shape inside ∧
  (-1 < 0)%Z ∧
  denoise inside (-1) = Some inside.
Proof.
  assert (shape (label inside).1 = shape inside) as Hshape by reflexivity.
  assert (-1 < 0)%Z as Hneg by lia.
  split; [exact Hshape|]. split; [exact Hneg|].
  exact (denoise_negative_threshold inside (-1) Hshape Hneg).
Defined.

(** X7 at [inside], of 15 pixels, and threshold 15. *)
Lemma denoise_threshold_above_size_witness :
  shape (label inside).1 = shape inside ∧
  (Z.of_nat (length (ravel inside)) ≤ 15)%Z ∧
  ∃ out, denoise inside 15 = Some out ∧ all_zero out = true.
Proof.
  assert (shape (label inside).1 = shape inside) as Hshape by reflexivity.
  assert (Z.of_nat (length (ravel inside)) ≤ 15)%Z as Hsize by (cbn; lia).
  split; [exact Hshape|]. split; [exact Hsize|].
  exact (denoise_threshold_above_size inside 15 Hshape Hsize).
Defined.

(** X8 at [inside] and thresholds 1 and 2. *)
Lemma denoise_only_clears_witness :
  shape (label inside).1 = shape inside ∧
  (1 ≤ 2)%Z ∧
  ∃ out out', denoise inside 1 = Some out ∧
    denoise inside 2 = Some out' ∧
    ∀ r c v, pixel inside r c = Some v →
      (pixel out r c = Some 0 ∨ pixel out r c = Some v) ∧
      (pixel out r c = Some 0 → pixel out' r c = Some 0).
Proof.
  assert (shape (label inside).1 = shape inside) as Hshape by reflexivity.
  assert (1 ≤ 2)%Z as Hle by lia.
  split; [exact Hshape|]. split; [exact Hle|].
  exact (denoise_only_clears inside 1 2 Hshape Hle).
Defined.

(** X9 at label 1 of [four_regions]. *)
Lemma region_area_counts_pixels_witness :
  let r := {| r_mean := (3 # 2, 2 # 2)%Q; r_length := 1%Q; r_area := 2%Z |} in
  region_of four_regions 1 = Some r ∧
  r_area r = Z.of_nat (length (where_label four_regions 1)) ∧
  (1 ≤ r_area r)%Z.
Proof.
  intros r.
  assert (region_of four_regions 1 = Some r) as Hr by reflexivity.
  split; [exact Hr|].
  exact (region_area_counts_pixels four_regions 1 r Hr).
Defined.

(** X10 at label 3 of [four_regions]. *)
Lemma region_centroid_in_image_witness :
  let r := {| r_mean := (3%Q, 2%Q); r_length := 0%Q; r_area := 1%Z |} in
  uniform 5 four_regions ∧
  region_of four_regions 3 = Some r ∧
  (0 <= (r_mean r).1)%Q ∧
  ((r_mean r).1 <= inject_Z (Z.of_nat (5 - 1)))%Q ∧
  (0 <= (r_mean r).2)%Q ∧
  ((r_mean r).2 <= inject_Z (Z.of_nat (length four_regions - 1)))%Q.
Proof.
  intros r.
  assert (uniform 5 four_regions) as Hu by (repeat constructor).
  assert (region_of four_regions 3 = Some r) as Hr by reflexivity.
  split; [exact Hu|]. split; [exact Hr|].
  exact (region_centroid_in_image 5 four_regions 3 r Hu Hr).
Defined.

(** X11 at label 3 of [four_regions]. *)
Lemma border_filter_keeps_inner_regions_witness :
  let out := [[0; 0; 0; 0; 0]; [0; 1; 1; 0; 0]; [0; 0; 0; 3; 0];
              [0; 0; 0; 0; 0]; [0; 0; 0; 0; 0]] in
  rect 5 four_regions ∧
  remove_border_tracks four_regions = Some out ∧
  3 ≠ 0 ∧
  (touches_border 5 four_regions 3 → region_of out 3 = None) ∧
  (¬ touches_border 5 four_regions 3 →
     region_of out 3 = region_of four_regions 3).
Proof.
  intros out.
  assert (remove_border_tracks four_regions = Some out) as Hout
    by reflexivity.
  assert (3 ≠ 0) as Hlab by lia.
  split; [exact rect_four_regions|]. split; [exact Hout|].
  split; [exact Hlab|].
  exact (border_filter_keeps_inner_regions 5 four_regions out 3
           rect_four_regions Hout Hlab).
Defined.

(** X12 at the first track of [two_tracks] and the region [between]. *)
Lemma matched_track_is_kept_witness :
  let t := created (region 100 50 500 501) in
  same_length two_tracks ∧
  tracks two_tracks !! 0 = Some t ∧
  0 < hits defaults (t_mean t) [between] ∧
  ∃ st' j t', lifecycle defaults two_tracks [between] = Some st' ∧
    j ≤ 0 ∧ tracks st' !! j = Some t' ∧
    t_seen t' = true ∧
    t_mean t' = moved defaults (t_mean t) [between] ∧
    t_frames t' =
      (t_frames t + Z.of_nat (hits defaults (t_mean t) [between]))%Z.
Proof.
  intros t.
  assert (same_length two_tracks) as Hsame by (by repeat split).
  assert (tracks two_tracks !! 0 = Some t) as Ht by reflexivity.
  assert (0 < hits defaults (t_mean t) [between]) as Hhit
    by (vm_compute; lia).
  split; [exact Hsame|]. split; [exact Ht|]. split; [exact Hhit|].
  exact (matched_track_is_kept defaults two_tracks [between] 0 t
           Hsame Ht Hhit).
Defined.

(** X13 at the first track of [five_tracks], seen in 5 frames, and a
    region far from it. *)
Lemma unmatched_track_is_written_witness :
  let t := {| t_mean := (0%Q, 0%Q); t_len := 10%Q; t_area := 100%Z;
              t_frames := 5%Z; t_seen := true |} in
  let rs := [region 300 300 10 600] in
  same_length five_tracks ∧
  tracks five_tracks !! 0 = Some t ∧
  hits defaults (t_mean t) rs = 0 ∧
  (framebuff defaults < t_frames t)%Z ∧
  pix_per_cm defaults ≠ 0%Z ∧
  ∃ st' k, lifecycle defaults five_tracks rs = Some st' ∧
    frames_abs st' !! (length (frames_abs five_tracks) + k)
      = Some (t_frames t) ∧
    len_abs st' !! (length (len_abs five_tracks) + k) =
      Some (t_len t / inject_Z (pix_per_cm defaults))%Q ∧
    area_abs st' !! (length (area_abs five_tracks) + k) =
      Some (inject_Z (t_area t) / inject_Z (pix_per_cm defaults ^ 2))%Q.
Proof.
  intros t rs.
  assert (same_length five_tracks) as Hsame by (by repeat split).
  assert (tracks five_tracks !! 0 = Some t) as Ht by reflexivity.
  assert (hits defaults (t_mean t) rs = 0) as Hhit by reflexivity.
  assert (framebuff defaults < t_frames t)%Z as Hlong by (cbn; lia).
  assert (pix_per_cm defaults ≠ 0%Z) as Hpix by (cbn; lia).
  split; [exact Hsame|]. split; [exact Ht|]. split; [exact Hhit|].
  split; [exact Hlong|]. split; [exact Hpix|].
  exact (unmatched_track_is_written defaults five_tracks rs 0 t
           Hsame Ht Hhit Hlong Hpix).
Defined.

(** X14 at the two tracks of [both_matched], which hold one centroid. *)
Lemma equal_centroids_stay_together_witness :
  let t := {| t_mean := (115%Q, 50%Q); t_len := 520%Q; t_area := 530%Z;
              t_frames := 2%Z; t_seen := true |} in
  let rs := [region 120 50 510 540; region 300 50 10 600] in
  same_length both_matched ∧
  tracks both_matched !! 0 = Some t ∧
  tracks both_matched !! 1 = Some t ∧
  ∃ st' t1' t2',
    for_each (associate_region defaults) rs both_matched = Some st' ∧
    tracks st' !! 0 = Some t1' ∧
    tracks st' !! 1 = Some t2' ∧
    t_mean t1' = t_mean t2' ∧
    (t_frames t1' - t_frames t = t_frames t2' - t_frames t)%Z ∧
    (t_seen t = t_seen t → t_seen t1' = t_seen t2').
Proof.
  intros t rs.
  assert (same_length both_matched) as Hsame by (by repeat split).
  assert (tracks both_matched !! 0 = Some t) as Ht1 by reflexivity.
  assert (tracks both_matched !! 1 = Some t) as Ht2 by reflexivity.
  split; [exact Hsame|]. split; [exact Ht1|]. split; [exact Ht2|].
  exact (equal_centroids_stay_together defaults both_matched rs 0 1 t t
           Hsame Ht1 Ht2 eq_refl).
Defined.

(** X15 at the two masks [inside] and [inside_next]. *)
Lemma live_tracks_are_seen_witness :
  run small_images init [inside; inside_next] = Some followed_twice ∧
  Forall (λ s, s = true) (seen followed_twice) ∧
  Forall (λ f, (1 ≤ f)%Z) (frame_buffer followed_twice) ∧
  Forall (λ a, (1 ≤ a)%Z) (area_buffer followed_twice).
Proof.
  assert (run small_images init [inside; inside_next] = Some followed_twice)
    as Hrun by reflexivity.
  split; [exact Hrun|].
  exact (live_tracks_are_seen small_images [inside; inside_next]
           followed_twice Hrun).
Defined.

(** X16 at three masks that leave one record. *)
Lemma records_are_complete_witness :
  let masks := [track_enters; track_moves; track_elsewhere] in
  let st := {| len_abs := [(1 # 120)%Q]; area_abs := [(2 # 14400)%Q];
               frames_abs := [2%Z]; len_buffer := [1%Q];
               area_buffer := [2%Z]; frame_buffer := [1%Z];
               mean_buffer := [(3 # 2, 6 # 2)%Q]; seen := [true] |} in
  run close_tracks init masks = Some st ∧
  length (len_abs st) = length (frames_abs st) ∧
  length (area_abs st) = length (frames_abs st) ∧
  Forall (λ f, (framebuff close_tracks < f)%Z) (frames_abs st).
Proof.
  intros masks st.
  assert (run close_tracks init masks = Some st) as Hrun by reflexivity.
  split; [exact Hrun|].
  exact (records_are_complete close_tracks masks st Hrun).
Defined.

(** X17 at two masks and a third one after them. *)
Lemma output_grows_with_frames_witness :
  let masks := [track_enters; track_moves] in
  let more := [track_elsewhere] in
  let recs' := [((1 # 120)%Q, (2 # 14400)%Q, 2%Z)] in
  program close_tracks masks = Some [] ∧
  program close_tracks (masks ++ more) = Some recs' ∧
  [] `prefix_of` recs'.
Proof.
  intros masks more recs'.
  assert (program close_tracks masks = Some []) as Hrecs by reflexivity.
  assert (program close_tracks (masks ++ more) = Some recs') as Hrecs'
    by reflexivity.
  split; [exact Hrecs|]. split; [exact Hrecs'|].
  exact (output_grows_with_frames close_tracks masks more [] recs'
           Hrecs Hrecs').
Defined.

(** X19 at the labelling of the examples and three masks. *)
Lemma frame_loop_never_raises_witness :
  let masks := [track_enters; speck; track_elsewhere] in
  (∀ img, shape (label img).1 = shape img) ∧
  (∀ img, shape (label8 img).1 = shape img) ∧
  same_length init ∧
  Forall (λ mask, ∃ w, uniform w mask) masks ∧
  ∃ st', run close_tracks init masks = Some st' ∧ same_length st'.
Proof.
  intros masks.
  assert (same_length init) as Hsame by (by repeat split).
  assert (Forall (λ mask, ∃ w, uniform w mask) masks) as Harrays.
  { repeat constructor.
    - exists 5. repeat constructor.
    - exists 4. repeat constructor.
    - exists 5. repeat constructor. }
  split; [exact label_single_shape|]. split; [exact label_single_shape|].
  split; [exact Hsame|]. split; [exact Harrays|].
  exact (frame_loop_never_raises close_tracks init masks
           label_single_shape label_single_shape Hsame Harrays).
Defined.

(** X20 at a mean-shift threshold of 0. *)
Lemma no_meanshift_no_output_witness :
  let masks := [track_enters; track_moves] in
  let st := {| len_abs := []; area_abs := []; frames_abs := [];
               len_buffer := [1%Q]; area_buffer := [2%Z];
               frame_buffer := [1%Z]; mean_buffer := [(5 # 2, 2 # 2)%Q];
               seen := [true] |} in
  (∀ u v, (0 <= euclidean u v)%Q) ∧
  (meanshift_length no_meanshift ≤ 0)%Z ∧
  run no_meanshift init masks = Some st ∧
  (1 ≤ framebuff no_meanshift)%Z ∧
  Forall (λ f, f = 1%Z) (frame_buffer st) ∧
  data st = [].
Proof.
  intros masks st.
  assert (meanshift_length no_meanshift ≤ 0)%Z as Hshift by (cbn; lia).
  assert (1 ≤ framebuff no_meanshift)%Z as Hbuff by (cbn; lia).
  assert (run no_meanshift init masks = Some st) as Hrun by reflexivity.
  assert (∀ u v, (0 <= euclidean u v)%Q) as Hpos
    by (intros u v; apply euclidean_floor_nonneg).
  split; [exact Hpos|]. split; [exact Hshift|].
  split; [exact Hrun|]. split; [exact Hbuff|].
  destruct (no_meanshift_no_output no_meanshift masks st
              Hpos Hshift Hrun) as [Hcount Hdata].
  split; [exact Hcount|]. exact (Hdata Hbuff).
Defined.

(** X21 at [five_tracks] and [framebuff] 0. *)
Lemma framebuff_zero_writes_every_track_witness :
  same_length five_tracks ∧
  Forall (λ f, (1 ≤ f)%Z) (frame_buffer five_tracks) ∧
  (framebuff every_track < 1)%Z ∧
  ∃ st', finalize every_track five_tracks = Some st' ∧
    length (frames_abs st') + length (frame_buffer st') =
    length (frames_abs five_tracks) + length (frame_buffer five_tracks).
Proof.
  assert (same_length five_tracks) as Hsame by (by repeat split).
  assert (Forall (λ f, (1 ≤ f)%Z) (frame_buffer five_tracks)) as Hone
    by (repeat constructor; lia).
  assert (framebuff every_track < 1)%Z as Hbuff by (cbn; lia).
  split; [exact Hsame|]. split; [exact Hone|]. split; [exact Hbuff|].
  exact (framebuff_zero_writes_every_track every_track five_tracks
           Hsame Hone Hbuff).
Defined.

(** X22 at a frame of 7 by 7 pixels and a border of 1. *)
Lemma crop_removes_the_border_witness :
  let fr := framed track_enters in
  Forall (λ row, length row = 7) fr ∧
  0 < 1 ∧
  length (crop (Z.of_nat 1, Z.of_nat 1) fr) = length fr - 2 * 1 ∧
  Forall (λ row, length row = 7 - 2 * 1)
    (crop (Z.of_nat 1, Z.of_nat 1) fr) ∧
  ∀ r c, r < length fr - 2 * 1 → c < 7 - 2 * 1 →
    pixel (crop (Z.of_nat 1, Z.of_nat 1) fr) r c = pixel fr (1 + r) (1 + c).
Proof.
  intros fr.
  assert (Forall (λ row, length row = 7) fr) as Hrows
    by (repeat constructor).
  assert (0 < 1) as Hpos by lia.
  split; [exact Hrows|]. split; [exact Hpos|].
  exact (crop_removes_the_border 1 1 7 fr Hrows Hpos Hpos).
Defined.

(** X24 at a file without a frame. *)
Lemma no_first_frame_raises_witness :
  (read (open_file [])).2 = None ∧
  main close_tracks (1%Z, 1%Z) true (open_file []) = Raised.
Proof.
  assert ((read (open_file [])).2 = None) as Hread by reflexivity.
  split; [exact Hread|].
  exact (no_first_frame_raises close_tracks (1%Z, 1%Z) (open_file [])
           Hread).
Defined.

(** X25 at [short_film]: 1000 frames of training, three frames analysed,
    one record. *)
Lemma script_writes_program_output_witness :
  let rows := [((1 # 120)%Q, (2 # 14400)%Q, 2%Z)] in
  let cap := open_file short_film in
  pix_per_cm close_tracks ≠ 0%Z ∧
  main close_tracks (1%Z, 1%Z) true cap = Written rows ∧
  ∃ cap1 trained fgbg cap2 frames fgbg' masks,
    true = true ∧
    reads 1000 cap = Some (cap1, trained) ∧
    for_each (learn_step (1%Z, 1%Z)) trained createBackgroundSubtractorMOG2
      = Some fgbg ∧
    reads (Z.to_nat (frame_count cap1 - 1 - pos_frames cap1)) cap1
      = Some (cap2, frames) ∧
    masks_of (1%Z, 1%Z) fgbg frames = Some (fgbg', masks) ∧
    program close_tracks masks = Some rows.
Proof.
  intros rows cap.
  assert (pix_per_cm close_tracks ≠ 0%Z) as Hpix by (cbn; lia).
  assert (main close_tracks (1%Z, 1%Z) true cap = Written rows) as Hmain
    by (vm_compute; reflexivity).
  split; [exact Hpix|]. split; [exact Hmain|].
  exact (script_writes_program_output close_tracks (1%Z, 1%Z) true
           cap rows Hpix Hmain).
Defined.

(** X27 at 1002 frames and two last frames. *)
Lemma last_frame_is_ignored_witness :
  let fs := training_frames ++ [framed track_enters; framed track_moves] in
  1000 ≤ length fs ∧
  main close_tracks (1%Z, 1%Z) true
    (open_file (fs ++ [framed no_track])) =
  main close_tracks (1%Z, 1%Z) true
    (open_file (fs ++ [framed track_elsewhere])).
Proof.
  intros fs.
  assert (1000 ≤ length fs) as Hlen.
  { unfold fs, training_frames.
    rewrite length_app, length_replicate. apply Nat.le_add_r. }
  split; [exact Hlen|].
  exact (last_frame_is_ignored close_tracks (1%Z, 1%Z) fs
           (framed no_track) (framed track_elsewhere) true Hlen).
Defined.

(** X28 at a video of three frames. *)
Lemma short_video_raises_witness :
  let fs := [framed track_enters; framed track_moves;
             framed track_elsewhere] in
  length fs < 1000 ∧
  main close_tracks (1%Z, 1%Z) true (open_file fs) = Raised.
Proof.
  intros fs.
  assert (length fs < 1000) as Hlen by (cbn; lia).
  split; [exact Hlen|].
  exact (short_video_raises close_tracks (1%Z, 1%Z) fs Hlen).
Defined.

End Examples.
